(** * AnimationLayersManager: keyframe codec, curve collector, component scan
      and layer transfer, embedded from [AnimationLayersManager.py].

    The Python functions are embedded shallowly.  Host objects of the
    animation SDK (curves, keys, animation nodes, layers, takes) are records;
    code that mutates a host object is written in a small state-and-exception
    monad, so that the state left behind by a raised exception is visible. *)

From Stdlib Require Import ZArith Floats.
From stdpp Require Import gmap strings list fin_maps.

Set Default Proof Using "Type".
#[local] Set Warnings "-inexact-float,-clear-no-such-hyp,-register-all".

(** ** Exceptions and mutable state *)

(** The Python exceptions the embedded code can raise. *)
Inductive error : Set :=
  | KeyError        (* lookup in an enumeration's [values] dictionary *)
  | IndexError      (* sequence index out of range *)
  | AttributeError  (* attribute access on an object that lacks it *)
  | UnboundWrapperError. (* use of a host object that was deleted *)

Inductive outcome (A : Type) : Type :=
  | Ok (a : A)
  | Raise (e : error).
Arguments Ok {A} a.
Arguments Raise {A} e.

(** A computation over a mutable object of type [S]: it returns the object as
    it is left, also when an exception escapes. *)
Definition M (S A : Type) : Type := S → S * outcome A.

Definition ret {S A} (a : A) : M S A := λ s, (s, Ok a).
Definition raise {S A} (e : error) : M S A := λ s, (s, Raise e).
Definition bind {S A B} (m : M S A) (k : A → M S B) : M S B :=
  λ s, match m s with
       | (s', Ok a) => k a s'
       | (s', Raise e) => (s', Raise e)
       end.
Definition get {S} : M S S := λ s, (s, Ok s).
Definition modify {S} (f : S → S) : M S unit := λ s, (f s, Ok tt).

Notation "'do' x <- m ; k" := (bind m (λ x, k))
  (at level 10, x name, m at level 100, k at level 200).
Notation "m >> k" := (bind m (λ _, k))
  (at level 100, k at level 200, right associativity).

(** [for x in l: body x] *)
Fixpoint for_each {S A} (l : list A) (body : A → M S unit) : M S unit :=
  match l with
  | [] => ret tt
  | x :: rest => body x >> for_each rest body
  end.

(** ** Host enumerations *)

(** Modelled from the spec: the host SDK's key enumerations ([FBInterpolation],
    [FBTangentMode], [FBTangentConstantMode]) are declared by [pyfbsdk], which
    the repository imports but does not contain.  The spec lists
    interpolation as Constant, Linear, Cubic; a tangent-mode set that contains
    the mode unsupported for reconstruction, which the code names
    [kFBTangentModeTCB], and the manual mode [kFBTangentModeBreak]; and two
    constant modes.  [int_E e] is [int(e)] of a member, [E_values] the
    dictionary [E.values] from integers back to members. *)
Inductive FBInterpolation : Set :=
  | kFBInterpolationConstant | kFBInterpolationLinear | kFBInterpolationCubic.

Inductive FBTangentMode : Set :=
  | kFBTangentModeAuto | kFBTangentModeTCB | kFBTangentModeUser
  | kFBTangentModeBreak | kFBTangentModeClampProgressive
  | kFBTangentModeTimeIndependent.

Inductive FBTangentConstantMode : Set :=
  | kFBTangentConstantModeNormal | kFBTangentConstantModeNext.

#[global] Instance FBInterpolation_eq_dec : EqDecision FBInterpolation.
Proof. solve_decision. Defined.
#[global] Instance FBTangentMode_eq_dec : EqDecision FBTangentMode.
Proof. solve_decision. Defined.
#[global] Instance FBTangentConstantMode_eq_dec : EqDecision FBTangentConstantMode.
Proof. solve_decision. Defined.

Definition int_FBInterpolation (e : FBInterpolation) : Z :=
  match e with
  | kFBInterpolationConstant => 0
  | kFBInterpolationLinear => 1
  | kFBInterpolationCubic => 2
  end.

Definition FBInterpolation_values (n : Z) : option FBInterpolation :=
  match n with
  | 0 => Some kFBInterpolationConstant
  | 1 => Some kFBInterpolationLinear
  | 2 => Some kFBInterpolationCubic
  | _ => None
  end%Z.

Definition int_FBTangentMode (e : FBTangentMode) : Z :=
  match e with
  | kFBTangentModeAuto => 0
  | kFBTangentModeTCB => 1
  | kFBTangentModeUser => 2
  | kFBTangentModeBreak => 3
  | kFBTangentModeClampProgressive => 4
  | kFBTangentModeTimeIndependent => 5
  end.

Definition FBTangentMode_values (n : Z) : option FBTangentMode :=
  match n with
  | 0 => Some kFBTangentModeAuto
  | 1 => Some kFBTangentModeTCB
  | 2 => Some kFBTangentModeUser
  | 3 => Some kFBTangentModeBreak
  | 4 => Some kFBTangentModeClampProgressive
  | 5 => Some kFBTangentModeTimeIndependent
  | _ => None
  end%Z.

Definition int_FBTangentConstantMode (e : FBTangentConstantMode) : Z :=
  match e with
  | kFBTangentConstantModeNormal => 0
  | kFBTangentConstantModeNext => 1
  end.

Definition FBTangentConstantMode_values (n : Z) : option FBTangentConstantMode :=
  match n with
  | 0 => Some kFBTangentConstantModeNormal
  | 1 => Some kFBTangentConstantModeNext
  | _ => None
  end%Z.

(** [d[k]] on a dictionary: [KeyError] when the key is missing. *)
Definition getitem {S K V} (d : K → option V) (k : K) : M S V :=
  match d k with
  | Some v => ret v
  | None => raise KeyError
  end.

(** ** Keys and curves *)

(** A key of a host curve ([FBFCurveKey]); [Time] is the tick count that
    [key.Time.Get()] returns and [FBTime(ticks)] takes. *)
Record FBFCurveKey : Set := mkKey {
  Time : Z;
  Value : float;
  Interpolation : FBInterpolation;
  TangentMode : FBTangentMode;
  TangentConstantMode : FBTangentConstantMode;
  LeftDerivative : float;
  RightDerivative : float;
  LeftTangentWeight : float;
  RightTangentWeight : float;
}.

(** The dictionary [serialize_curve] builds for one key. *)
Record key_data : Set := mkKeyData {
  kd_time : Z;
  kd_value : float;
  kd_interpolation : Z;
  kd_tangent_mode : Z;
  kd_constant_mode : Z;
  kd_left_derivative : float;
  kd_right_derivative : float;
  kd_left_weight : float;
  kd_right_weight : float;
}.

(** A host curve ([FBFCurve]) is its [Keys] list. *)
Abbreviation FBFCurve := (list FBFCurveKey) (only parsing).

Definition serialize_key (key : FBFCurveKey) : key_data :=
  {| kd_time := Time key;
     kd_value := Value key;
     kd_interpolation := int_FBInterpolation (Interpolation key);
     kd_tangent_mode := int_FBTangentMode (TangentMode key);
     kd_constant_mode := int_FBTangentConstantMode (TangentConstantMode key);
     kd_left_derivative := LeftDerivative key;
     kd_right_derivative := RightDerivative key;
     kd_left_weight := LeftTangentWeight key;
     kd_right_weight := RightTangentWeight key |}.

(** [serialize_curve]: one dictionary per key, appended in the order of
    [fcurve.Keys]. *)
Definition serialize_curve (fcurve : FBFCurve) : list key_data :=
  foldl (λ key_data_list key, key_data_list ++ [serialize_key key]) [] fcurve.

(** [tangent_weight_is_default]: the chained comparison
    [0.3333 < tangent_weight < 0.3334] on binary64 floats. *)
Definition tangent_weight_is_default (tangent_weight : float) : bool :=
  PrimFloat.ltb 0.3333%float tangent_weight
  && PrimFloat.ltb tangent_weight 0.3334%float.

(** *** The host's curve operations *)

(** Modelled from the spec: the weight a key has when nothing has set it, the
    reserved constant of about 1/3 that denotes an unweighted tangent. *)
Definition default_tangent_weight : float := 0.3333333432674408%float.

(** Modelled from the spec: the key that the host's [KeyAdd] creates at a
    time with a value, before any other field is set. *)
Definition new_key (t : Z) (v : float) : FBFCurveKey :=
  {| Time := t;
     Value := v;
     Interpolation := kFBInterpolationCubic;
     TangentMode := kFBTangentModeAuto;
     TangentConstantMode := kFBTangentConstantModeNormal;
     LeftDerivative := 0%float;
     RightDerivative := 0%float;
     LeftTangentWeight := default_tangent_weight;
     RightTangentWeight := default_tangent_weight |}.

Definition set_Value (v : float) (k : FBFCurveKey) : FBFCurveKey :=
  mkKey (Time k) v (Interpolation k) (TangentMode k) (TangentConstantMode k)
        (LeftDerivative k) (RightDerivative k)
        (LeftTangentWeight k) (RightTangentWeight k).
Definition set_Interpolation (x : FBInterpolation) (k : FBFCurveKey) : FBFCurveKey :=
  mkKey (Time k) (Value k) x (TangentMode k) (TangentConstantMode k)
        (LeftDerivative k) (RightDerivative k)
        (LeftTangentWeight k) (RightTangentWeight k).
Definition set_TangentMode (x : FBTangentMode) (k : FBFCurveKey) : FBFCurveKey :=
  mkKey (Time k) (Value k) (Interpolation k) x (TangentConstantMode k)
        (LeftDerivative k) (RightDerivative k)
        (LeftTangentWeight k) (RightTangentWeight k).
Definition set_TangentConstantMode (x : FBTangentConstantMode) (k : FBFCurveKey)
  : FBFCurveKey :=
  mkKey (Time k) (Value k) (Interpolation k) (TangentMode k) x
        (LeftDerivative k) (RightDerivative k)
        (LeftTangentWeight k) (RightTangentWeight k).
Definition set_LeftDerivative (x : float) (k : FBFCurveKey) : FBFCurveKey :=
  mkKey (Time k) (Value k) (Interpolation k) (TangentMode k)
        (TangentConstantMode k) x (RightDerivative k)
        (LeftTangentWeight k) (RightTangentWeight k).
Definition set_RightDerivative (x : float) (k : FBFCurveKey) : FBFCurveKey :=
  mkKey (Time k) (Value k) (Interpolation k) (TangentMode k)
        (TangentConstantMode k) (LeftDerivative k) x
        (LeftTangentWeight k) (RightTangentWeight k).
Definition set_LeftTangentWeight (x : float) (k : FBFCurveKey) : FBFCurveKey :=
  mkKey (Time k) (Value k) (Interpolation k) (TangentMode k)
        (TangentConstantMode k) (LeftDerivative k) (RightDerivative k)
        x (RightTangentWeight k).
Definition set_RightTangentWeight (x : float) (k : FBFCurveKey) : FBFCurveKey :=
  mkKey (Time k) (Value k) (Interpolation k) (TangentMode k)
        (TangentConstantMode k) (LeftDerivative k) (RightDerivative k)
        (LeftTangentWeight k) x.

(** Modelled from the spec: [fcurve.EditClear()] removes every key. *)
Definition EditClear : M FBFCurve unit := modify (λ _, []).

(** Modelled from the spec: the host keeps the keys of a curve ordered by
    time.  [insert_key t v keys] is the key list after a key is added at [t],
    with the position of that key: before the first later key.  Where a key
    is already at [t], that key gets the value and no key is added; the
    properties below that concern decoded keys are stated for pairwise
    distinct times, where this case does not occur. *)
Fixpoint insert_key (t : Z) (v : float) (keys : list FBFCurveKey)
  : list FBFCurveKey * nat :=
  match keys with
  | [] => ([new_key t v], 0)
  | k :: rest =>
      if (t <? Time k)%Z then (new_key t v :: k :: rest, 0)
      else if (t =? Time k)%Z then (set_Value v k :: rest, 0)
      else let '(rest', i) := insert_key t v rest in (k :: rest', S i)
  end.

(** [fcurve.KeyAdd(FBTime(t), v)] returns the index of the key. *)
Definition KeyAdd (t : Z) (v : float) : M FBFCurve nat :=
  λ keys, let '(keys', i) := insert_key t v keys in (keys', Ok i).

(** [fcurve.Keys[i]] as a read: [IndexError] out of range. *)
Definition Keys_getitem (i : nat) : M FBFCurve FBFCurveKey :=
  λ keys, match keys !! i with
          | Some k => (keys, Ok k)
          | None => (keys, Raise IndexError)
          end.

(** An assignment [key.field = x] through the reference [key = fcurve.Keys[i]]
    changes key [i] of the curve. *)
Definition Keys_setattr (i : nat) (f : FBFCurveKey → FBFCurveKey) : M FBFCurve unit :=
  modify (λ keys, alter f i keys).

(** *** [deserialize_curve] *)

(** Body of the first loop for one dictionary. *)
Definition add_key (kd : key_data) : M FBFCurve unit :=
  do key_index <- KeyAdd (kd_time kd) (kd_value kd);
  do _ <- Keys_getitem key_index;
  do interp <- getitem FBInterpolation_values (kd_interpolation kd);
  Keys_setattr key_index (set_Interpolation interp) >>
  do tm <- getitem FBTangentMode_values (kd_tangent_mode kd);
  Keys_setattr key_index (set_TangentMode tm) >>
  do key <- Keys_getitem key_index;
  (if decide (TangentMode key = kFBTangentModeTCB)
   then Keys_setattr key_index (set_TangentMode kFBTangentModeBreak)
   else ret tt) >>
  do cm <- getitem FBTangentConstantMode_values (kd_constant_mode kd);
  Keys_setattr key_index (set_TangentConstantMode cm).

(** Body of the second loop for position [i]. *)
Definition set_tangents (key_data_list : list key_data) (i : nat) : M FBFCurve unit :=
  match key_data_list !! i with
  | None => raise IndexError
  | Some kd =>
      do _ <- Keys_getitem i;
      Keys_setattr i (set_LeftDerivative (kd_left_derivative kd)) >>
      Keys_setattr i (set_RightDerivative (kd_right_derivative kd)) >>
      (if negb (tangent_weight_is_default (kd_left_weight kd))
       then Keys_setattr i (set_LeftTangentWeight (kd_left_weight kd))
       else ret tt) >>
      (if negb (tangent_weight_is_default (kd_right_weight kd))
       then Keys_setattr i (set_RightTangentWeight (kd_right_weight kd))
       else ret tt)
  end.

Definition deserialize_curve (key_data_list : list key_data) : M FBFCurve unit :=
  EditClear >>
  for_each key_data_list add_key >>
  for_each (seq 0 (length key_data_list)) (set_tangents key_data_list).

(** ** The codec on time-ordered input *)

(** The key that the first loop leaves for a dictionary whose enumeration
    values are known. *)
Definition remap_tangent_mode (tm : FBTangentMode) : FBTangentMode :=
  if decide (tm = kFBTangentModeTCB) then kFBTangentModeBreak else tm.

Definition first_pass_key (kd : key_data) (i : FBInterpolation)
    (tm : FBTangentMode) (cm : FBTangentConstantMode) : FBFCurveKey :=
  set_TangentConstantMode cm
    (set_TangentMode (remap_tangent_mode tm)
       (set_Interpolation i (new_key (kd_time kd) (kd_value kd)))).

(** What the second loop does to the key at the position of [kd]. *)
Definition second_pass_key (kd : key_data) (k : FBFCurveKey) : FBFCurveKey :=
  let k := set_LeftDerivative (kd_left_derivative kd) k in
  let k := set_RightDerivative (kd_right_derivative kd) k in
  let k := if tangent_weight_is_default (kd_left_weight kd) then k
           else set_LeftTangentWeight (kd_left_weight kd) k in
  if tangent_weight_is_default (kd_right_weight kd) then k
  else set_RightTangentWeight (kd_right_weight kd) k.

(** Every enumeration value of the dictionary is a key of its [values]. *)
Definition known_enums (kd : key_data) : Prop :=
  is_Some (FBInterpolation_values (kd_interpolation kd))
  ∧ is_Some (FBTangentMode_values (kd_tangent_mode kd))
  ∧ is_Some (FBTangentConstantMode_values (kd_constant_mode kd)).

#[global] Instance known_enums_dec kd : Decision (known_enums kd).
Proof. unfold known_enums. apply _. Defined.

(** The key that the first loop creates for a dictionary, when its
    enumeration values are known. *)
Definition first_pass (kd : key_data) : option FBFCurveKey :=
  i ← FBInterpolation_values (kd_interpolation kd);
  tm ← FBTangentMode_values (kd_tangent_mode kd);
  cm ← FBTangentConstantMode_values (kd_constant_mode kd);
  Some (first_pass_key kd i tm cm).

(** The key decoded from a dictionary: both loops applied. *)
Definition decoded_key (kd : key_data) : option FBFCurveKey :=
  second_pass_key kd <$> first_pass kd.

(** Times strictly increasing along a list. *)
Fixpoint increasing (ts : list Z) : Prop :=
  match ts with
  | [] => True
  | t :: rest => Forall (λ u, (t < u)%Z) rest ∧ increasing rest
  end.

#[global] Instance increasing_dec ts : Decision (increasing ts).
Proof. induction ts; simpl; apply _. Defined.

(** The three assignments of the first loop, as one update of the key. *)
Definition apply_first (i : FBInterpolation) (tm : FBTangentMode)
    (cm : FBTangentConstantMode) (k : FBFCurveKey) : FBFCurveKey :=
  set_TangentConstantMode cm
    (set_TangentMode (remap_tangent_mode tm) (set_Interpolation i k)).

(** The times of the keys after [insert_key]. *)
Fixpoint insert_time (t : Z) (ts : list Z) : list Z :=
  match ts with
  | [] => [t]
  | u :: rest =>
      if (t <? u)%Z then t :: u :: rest
      else if (t =? u)%Z then u :: rest
      else u :: insert_time t rest
  end.

(** The default-weight band as the decode rule words it: the interval
    [[0.3333, 0.3334)], closed on the left. *)
Definition spec_default_band (w : float) : bool :=
  PrimFloat.leb 0.3333%float w && PrimFloat.ltb w 0.3334%float.

(** ** Animation nodes and components *)

(** A host animation node as the code reads it: its identity (the node
    object is a dictionary key), [KeyCount], [FCurve] ([None] on nodes that
    own no curve) and the child [Nodes]. *)
Inductive FBAnimationNode : Type :=
  AnimNode (node_id : positive) (KeyCount : Z)
           (FCurve : option (list FBFCurveKey)) (Nodes : list FBAnimationNode).

Definition node_id (n : FBAnimationNode) : positive :=
  match n with AnimNode id _ _ _ => id end.
Definition KeyCount (n : FBAnimationNode) : Z :=
  match n with AnimNode _ c _ _ => c end.
Definition FCurve (n : FBAnimationNode) : option (list FBFCurveKey) :=
  match n with AnimNode _ _ fc _ => fc end.
Definition Nodes (n : FBAnimationNode) : list FBAnimationNode :=
  match n with AnimNode _ _ _ ns => ns end.

(** A scene component; [AnimationNode] is [None] when the component has no
    such attribute, and reading it raises [AttributeError]. *)
Record FBComponent : Type := mkComponent {
  AnimationNode : option FBAnimationNode;
}.

(** [has_keys(anim_node, res=False)]. *)
Fixpoint has_keys (anim_node : FBAnimationNode) (res : bool) : bool :=
  match anim_node with
  | AnimNode _ key_count _ nodes =>
      if negb (key_count =? 0)%Z then true
      else
        (fix for_sub_node (nodes : list FBAnimationNode) (res : bool) : bool :=
           match nodes with
           | [] => res
           | sub_node :: rest =>
               let res := res || has_keys sub_node false in
               if res then res else for_sub_node rest res
           end) nodes res
  end.

(** The guarded call [has_keys(comp.AnimationNode)] of the scan. *)
Definition try_has_keys (comp : FBComponent) : outcome bool :=
  match AnimationNode comp with
  | Some anim_node => Ok (has_keys anim_node false)
  | None => Raise AttributeError
  end.

(** The loop of [get_animated_components]; [except AttributeError: continue]
    catches that exception only. *)
Fixpoint get_animated_components_loop (components animated : list FBComponent)
  : outcome (list FBComponent) :=
  match components with
  | [] => Ok animated
  | comp :: rest =>
      match try_has_keys comp with
      | Ok true => get_animated_components_loop rest (animated ++ [comp])
      | Ok false => get_animated_components_loop rest animated
      | Raise AttributeError => get_animated_components_loop rest animated
      | Raise e => Raise e
      end
  end.

(** [get_animated_components()], over the scene's component list. *)
Definition get_animated_components (components : list FBComponent)
  : outcome (list FBComponent) :=
  get_animated_components_loop components [].

(** [fill_props_recursively], threading the dictionary [props]. *)
Fixpoint fill_props_recursively (anim_node : FBAnimationNode)
    (props : gmap positive (list key_data)) : gmap positive (list key_data) :=
  match anim_node with
  | AnimNode id _ fcurve nodes =>
      match fcurve with
      | Some keys =>
          match keys with
          | [] => props
          | _ :: _ => <[id := serialize_curve keys]> props
          end
      | None =>
          (fix for_node (nodes : list FBAnimationNode)
               (props : gmap positive (list key_data)) :=
             match nodes with
             | [] => props
             | node :: rest => for_node rest (fill_props_recursively node props)
             end) nodes props
      end
  end.

Definition get_serialized_fcurves (component : FBComponent)
  : outcome (gmap positive (list key_data)) :=
  match AnimationNode component with
  | Some root_anim_node => Ok (fill_props_recursively root_anim_node ∅)
  | None => Raise AttributeError
  end.

(** All nodes of a hierarchy, the root first. *)
Fixpoint subnodes (n : FBAnimationNode) : list FBAnimationNode :=
  match n with
  | AnimNode _ _ _ nodes =>
      n :: (fix subs (nodes : list FBAnimationNode) : list FBAnimationNode :=
              match nodes with
              | [] => []
              | c :: rest => subnodes c ++ subs rest
              end) nodes
  end.

(** The host's hierarchies keep curves on leaves: a node that owns a curve
    has no children. *)
Definition curves_on_leaves (root : FBAnimationNode) : Prop :=
  Forall (λ n, is_Some (FCurve n) → length (Nodes n) = 0) (subnodes root).

#[global] Instance curves_on_leaves_dec root : Decision (curves_on_leaves root).
Proof. unfold curves_on_leaves. apply _. Defined.

(** Some node of the hierarchy has a non-zero [KeyCount]. *)
Definition any_keys (root : FBAnimationNode) : Prop :=
  Exists (λ n, KeyCount n ≠ 0%Z) (subnodes root).

(** A component that has an animation node with keys somewhere below it. *)
Definition animated (comp : FBComponent) : Prop :=
  match AnimationNode comp with
  | Some root => any_keys root
  | None => False
  end.

#[global] Instance animated_dec comp : Decision (animated comp).
Proof. unfold animated, any_keys. destruct (AnimationNode comp); apply _. Defined.

(** The child loop of [fill_props_recursively]. *)
Definition fill_nodes (nodes : list FBAnimationNode)
    (props : gmap positive (list key_data)) : gmap positive (list key_data) :=
  foldl (λ props node, fill_props_recursively node props) props nodes.

(** The node owns a curve with at least one key, serialized as [recs]. *)
Definition keyed_curve (n : FBAnimationNode) (recs : list key_data) : Prop :=
  ∃ keys, FCurve n = Some keys ∧ keys ≠ [] ∧ recs = serialize_curve keys.

(** What the dictionary holds for a node of the hierarchy, when curves sit
    on leaves and node identities are distinct. *)
Definition entry_of (m : FBAnimationNode) (old : option (list key_data))
  : option (list key_data) :=
  match FCurve m with
  | Some (k :: ks) => Some (serialize_curve (k :: ks))
  | _ => old
  end.

(** ** Layers, takes and the scene *)

(** Modelled from the spec: the host's layer enumerations ([FBLayerMode],
    [FBLayerRotationMode]), declared by [pyfbsdk]: modes Additive, Override,
    Override-Passthrough, and rotation per channel (Euler) or per layer
    (quaternion). *)
Inductive FBLayerMode : Set :=
  | kFBLayerModeAdditive | kFBLayerModeOverride | kFBLayerModeOverridePassthrough.

Inductive FBLayerRotationMode : Set :=
  | kFBLayerRotationModeEulerRotation | kFBLayerRotationModeQuaternionRotation.

(** An animation layer with the attributes the code reads and writes, and
    the keys that each channel's curve holds under this layer. *)
Record FBAnimationLayer : Type := mkLayer {
  Name : string;
  LayerMode : FBLayerMode;
  LayerRotationMode : FBLayerRotationMode;
  Weight : float;
  Mute : bool;
  layer_curves : gmap positive (list FBFCurveKey);
}.

(** A take: its layer stack, index 0 at the bottom, and the index of the
    exclusively selected layer. *)
Record FBTake : Type := mkTake {
  take_Name : string;
  Layers : list FBAnimationLayer;
  selected_layer : nat;
}.

(** The channel hierarchy of a component: the part of an animation node that
    is the same under every take and layer. *)
Inductive channel : Type :=
  Channel (channel_id : positive) (owns_curve : bool) (sub_channels : list channel).

(** The host scene: takes, the current take, and the components (a component
    without animation node is [None]).

    Modelled from the spec: [unique_name] is the host's own uniqueness policy
    for layer names, which [pyfbsdk] implements and the repository does not
    contain.  The spec says that duplicate names are resolved by it and that
    the name of a created layer may therefore differ from the source name;
    the code's comments say that a layer is given another name if the name
    already existed.  [unique_name taken wanted] is the name that the host
    gives instead of [wanted] when [wanted] is among the names [taken] of the
    other layers of the take; nothing is assumed about it. *)
Record host : Type := mkHost {
  Takes : list FBTake;
  CurrentTake : nat;
  Components : list (option channel);
  unique_name : list string → string → string;
}.

(** References to host objects: a take by its index, a layer by the index of
    its take and its index in the stack. *)
Abbreviation take_ref := nat (only parsing).
Abbreviation layer_ref := (nat * nat)%type (only parsing).

(** The layer record with one field replaced.  What the host stores on an
    assignment to [Name] is decided by [host_name] below. *)
Definition set_Name (x : string) (l : FBAnimationLayer) : FBAnimationLayer :=
  mkLayer x (LayerMode l) (LayerRotationMode l) (Weight l) (Mute l) (layer_curves l).
Definition set_LayerMode (x : FBLayerMode) (l : FBAnimationLayer) : FBAnimationLayer :=
  mkLayer (Name l) x (LayerRotationMode l) (Weight l) (Mute l) (layer_curves l).
Definition set_LayerRotationMode (x : FBLayerRotationMode) (l : FBAnimationLayer)
  : FBAnimationLayer :=
  mkLayer (Name l) (LayerMode l) x (Weight l) (Mute l) (layer_curves l).
Definition set_Weight (x : float) (l : FBAnimationLayer) : FBAnimationLayer :=
  mkLayer (Name l) (LayerMode l) (LayerRotationMode l) x (Mute l) (layer_curves l).
Definition set_layer_curves (x : gmap positive (list FBFCurveKey))
    (l : FBAnimationLayer) : FBAnimationLayer :=
  mkLayer (Name l) (LayerMode l) (LayerRotationMode l) (Weight l) (Mute l) x.

Definition set_Layers (x : list FBAnimationLayer) (t : FBTake) : FBTake :=
  mkTake (take_Name t) x (selected_layer t).
Definition set_selected_layer (x : nat) (t : FBTake) : FBTake :=
  mkTake (take_Name t) (Layers t) x.

Definition set_Takes (x : list FBTake) (st : host) : host :=
  mkHost x (CurrentTake st) (Components st) (unique_name st).

(** Modelled from the spec: the layer that the host's [CreateNewLayer] puts
    on top of the stack, with the host's default attributes and no keys. *)
Definition host_new_layer : FBAnimationLayer :=
  {| Name := "AnimLayer";
     LayerMode := kFBLayerModeAdditive;
     LayerRotationMode := kFBLayerRotationModeEulerRotation;
     Weight := 100%float;
     Mute := false;
     layer_curves := ∅ |}.

Definition get_layer (st : host) (ref : layer_ref) : option FBAnimationLayer :=
  take ← Takes st !! ref.1; Layers take !! ref.2.

(** The name that a layer gets when [wanted] is assigned to its [Name] and
    the other layers of its take have the names [taken]: [wanted], unless
    it already exists; then the host's policy [unique] decides. *)
Definition assigned_name (unique : list string → string → string)
    (taken : list string) (wanted : string) : string :=
  if decide (wanted ∈ taken) then unique taken wanted else wanted.

(** The name that the layer [layer] of the scene gets on [layer.Name =
    wanted]. *)
Definition host_name (st : host) (layer : layer_ref) (wanted : string) : string :=
  assigned_name (unique_name st)
    (Name <$> delete layer.2 (default [] (Layers <$> Takes st !! layer.1)))
    wanted.

(** The layer that curve reads and writes go to: the selected layer of the
    current take. *)
Definition current_layer (st : host) : option FBAnimationLayer :=
  take ← Takes st !! CurrentTake st; Layers take !! selected_layer take.

Definition current_curves (st : host) : gmap positive (list FBFCurveKey) :=
  default ∅ (layer_curves <$> current_layer st).

(** The animation node of a channel as it reads under the given curves: a
    channel that owns a curve has an [FCurve], without keys where the layer
    holds none for it, and [KeyCount] counts its keys. *)
Fixpoint animation_node (curves : gmap positive (list FBFCurveKey)) (ch : channel)
  : FBAnimationNode :=
  match ch with
  | Channel id owns subs =>
      let fcurve := if owns then Some (default [] (curves !! id)) else None in
      AnimNode id (Z.of_nat (length (default [] fcurve))) fcurve
               (animation_node curves <$> subs)
  end.

(** [FBSystem().Scene.Components] under the current take and layer. *)
Definition Scene_Components (st : host) : list FBComponent :=
  (λ root, mkComponent (animation_node (current_curves st) <$> root))
    <$> Components st.

(** The identities of the channels that own a curve. *)
Fixpoint curve_channels (ch : channel) : list positive :=
  match ch with
  | Channel id owns subs =>
      (if owns then [id] else []) ++ (subs ≫= curve_channels)
  end.

Definition scene_curve_channels (st : host) : list positive :=
  Components st ≫= (λ root, from_option curve_channels [] root).

(** *** Host calls *)

Definition lift {S A} (o : outcome A) : M S A := λ s, (s, o).

(** [FBSystem().CurrentTake = take] *)
Definition set_CurrentTake (take : take_ref) : M host unit :=
  modify (λ st, mkHost (Takes st) take (Components st) (unique_name st)).

(** Access to a take or layer object that the scene no longer has raises the
    wrapper error. *)
Definition take_get (take : take_ref) : M host FBTake :=
  λ st, match Takes st !! take with
        | Some t => (st, Ok t)
        | None => (st, Raise UnboundWrapperError)
        end.

Definition take_set (take : take_ref) (f : FBTake → FBTake) : M host unit :=
  take_get take >> modify (λ st, set_Takes (alter f take (Takes st)) st).

Definition layer_get (layer : layer_ref) : M host FBAnimationLayer :=
  λ st, match get_layer st layer with
        | Some l => (st, Ok l)
        | None => (st, Raise UnboundWrapperError)
        end.

Definition layer_set (layer : layer_ref) (f : FBAnimationLayer → FBAnimationLayer)
  : M host unit :=
  layer_get layer >>
  take_set layer.1 (λ t, set_Layers (alter f layer.2 (Layers t)) t).

(** [layer.Name = wanted]: the host stores the name that its policy
    gives. *)
Definition layer_set_Name (layer : layer_ref) (wanted : string) : M host unit :=
  do st <- get;
  layer_set layer (set_Name (host_name st layer wanted)).

(** [layer.SelectLayer(True, True)]: the layer becomes the only selected
    layer of its take. *)
Definition SelectLayer (layer : layer_ref) : M host unit :=
  layer_get layer >> take_set layer.1 (set_selected_layer layer.2).

(** [take.CreateNewLayer()]: a new layer on top of the stack. *)
Definition CreateNewLayer (take : take_ref) : M host unit :=
  take_set take (λ t, set_Layers (Layers t ++ [host_new_layer]) t).

Definition GetLayerCount (take : take_ref) : M host nat :=
  do t <- take_get take; ret (length (Layers t)).

(** The scene after the curve of a channel, under the current take and
    layer, is replaced by [keys]. *)
Definition set_current_curve (id : positive) (keys : list FBFCurveKey) (st : host)
  : host :=
  set_Takes
    (alter (λ t, set_Layers
                   (alter (λ l, set_layer_curves (<[id := keys]> (layer_curves l)) l)
                          (selected_layer t) (Layers t)) t)
           (CurrentTake st) (Takes st)) st.

(** [deserialize_curve(anim_node.FCurve, curve)] on the scene: the curve is
    the one the node has under the current take and layer; on a node that
    owns no curve [anim_node.FCurve] is [None], and the first call on it,
    [fcurve.EditClear()], raises [AttributeError]. *)
Definition deserialize_into (anim_node : positive) (curve : list key_data)
  : M host unit :=
  λ st,
    if decide (anim_node ∈ scene_curve_channels st) then
      let '(keys, o) :=
        deserialize_curve curve (default [] (current_curves st !! anim_node)) in
      (set_current_curve anim_node keys st, o)
    else (st, Raise AttributeError).

(** ** The source and destination trees, and the transfer *)

(** A layer node of the source tree and the layer it connects to. *)
Record layer_node : Set := mkLayerNode {
  layer_Checked : bool;
  layer_data : nat * nat;
}.

(** A take node of the source tree, the take it connects to, and its
    ['children'] list.  The ordered dictionary [nodes_src] also has the layer
    nodes as keys; the transfer passes over them, taking only entries whose
    data is a take, so the model lists the take nodes. *)
Record take_node : Set := mkTakeNode {
  take_Checked : bool;
  take_data : nat;
  children : list layer_node;
}.

Record dst_node : Set := mkDstNode {
  dst_Checked : bool;
  dst_data : nat;
}.

(** [reload_src_tree]: a node per take; its children are the layers from
    the top of the stack down ([xrange(num_layers - 1, -1, -1)]). *)
Definition reload_src_tree (st : host) : list take_node :=
  imap (λ ti take,
          mkTakeNode false ti
            ((λ i, mkLayerNode false (ti, i)) <$> rev (seq 0 (length (Layers take)))))
       (Takes st).

(** [reload_dst_tree]: a node per take. *)
Definition reload_dst_tree (st : host) : list dst_node :=
  imap (λ ti _, mkDstNode false ti) (Takes st).

(** The user ticks the box of a layer node; [tree_src_check_callback] then
    sets the take node's box to whether some child is checked. *)
Definition check_layer_node (layer : nat * nat) (nodes_src : list take_node)
  : list take_node :=
  alter (λ node,
           let children :=
             (λ child, if decide (layer_data child = layer)
                       then mkLayerNode true layer else child) <$> children node in
           mkTakeNode (existsb layer_Checked children) (take_data node) children)
        layer.1 nodes_src.

(** The user ticks the box of a destination take. *)
Definition check_dst_node (take : nat) (nodes_dst : list dst_node) : list dst_node :=
  alter (λ node, mkDstNode true (dst_data node)) take nodes_dst.

(** One entry of [layers_data]: the source layer object and its curves. *)
Record layer_map : Type := mkLayerMap {
  lm_layer : nat * nat;
  lm_curves : gmap positive (list key_data);
}.

(** [for comp in components: curves.update(get_serialized_fcurves(comp))] *)
Fixpoint update_curves (components : list FBComponent)
    (curves : gmap positive (list key_data))
  : outcome (gmap positive (list key_data)) :=
  match components with
  | [] => Ok curves
  | comp :: rest =>
      match get_serialized_fcurves comp with
      | Ok props => update_curves rest (props ∪ curves)
      | Raise e => Raise e
      end
  end.

(** The loop over the children of a checked take node. *)
Fixpoint collect_layers (children : list layer_node) (layers_data : list layer_map)
  : M host (list layer_map) :=
  match children with
  | [] => ret layers_data
  | child_node :: rest =>
      if layer_Checked child_node then
        let src_layer := layer_data child_node in
        SelectLayer src_layer >>
        do st <- get;
        do components <- lift (get_animated_components (Scene_Components st));
        do curves <- lift (update_curves components ∅);
        collect_layers rest (layers_data ++ [mkLayerMap src_layer curves])
      else collect_layers rest layers_data
  end.

(** The body of [for layer_map in layers_data] on a destination take. *)
Definition replay_layer (take : nat) (layer_map : layer_map) : M host unit :=
  let src_layer := lm_layer layer_map in
  CreateNewLayer take >>
  do layerCount <- GetLayerCount take;
  let new_layer := (take, layerCount - 1) in
  do src <- layer_get src_layer;
  layer_set_Name new_layer (Name src) >>
  do src <- layer_get src_layer;
  layer_set new_layer (set_LayerMode (LayerMode src)) >>
  do src <- layer_get src_layer;
  layer_set new_layer (set_LayerRotationMode (LayerRotationMode src)) >>
  do src <- layer_get src_layer;
  layer_set new_layer (set_Weight (Weight src)) >>
  SelectLayer new_layer >>
  for_each (map_to_list (lm_curves layer_map))
           (λ item, deserialize_into item.1 item.2).

Definition transfer_anim_layers (nodes_src : list take_node)
    (nodes_dst : list dst_node) : M host unit :=
  for_each nodes_src (λ src_node,
    if take_Checked src_node then
      set_CurrentTake (take_data src_node) >>
      do layers_data <- collect_layers (children src_node) [];
      let layers_data := rev layers_data in
      for_each nodes_dst (λ dst_node,
        if dst_Checked dst_node then
          let take := dst_data dst_node in
          set_CurrentTake take >>
          for_each layers_data (replay_layer take)
        else ret tt)
    else ret tt).

(** *** Notions for the transfer's properties *)

(** The scene with take [d] replaced. *)
Definition put (d : nat) (t : FBTake) (st : host) : host :=
  set_Takes (<[d := t]> (Takes st)) st.

(** The name that the replay of [src] gets on a take whose stack is that of
    [t] when the new layer is created. *)
Definition replay_name (st : host) (t : FBTake) (src : FBAnimationLayer) : string :=
  assigned_name (unique_name st) (Name <$> Layers t) (Name src).

(** The four attribute assignments of the replay, from the source layer [src]
    onto the layer [l], which the host stores under the name [name]. *)
Definition copy_attributes (name : string) (src l : FBAnimationLayer)
  : FBAnimationLayer :=
  set_Weight (Weight src)
    (set_LayerRotationMode (LayerRotationMode src)
       (set_LayerMode (LayerMode src) (set_Name name l))).

(** A list of dictionaries that decodes: known enumeration values and
    increasing times. *)
Definition decodable (recs : list key_data) : Prop :=
  Forall known_enums recs ∧ increasing (kd_time <$> recs).

(** A payload that a scene can take: every channel owns a curve in the
    scene and its dictionaries decode. *)
Definition resolvable (chs : list positive)
    (curves : gmap positive (list key_data)) : Prop :=
  map_Forall (λ id recs, id ∈ chs ∧ decodable recs) curves.

(** The curves of the scene are host curves: key times increase. *)
Definition layer_wf (l : FBAnimationLayer) : Prop :=
  map_Forall (λ _ keys, increasing (Time <$> keys)) (layer_curves l).

Definition host_wf (st : host) : Prop :=
  Forall (λ t, Forall layer_wf (Layers t)) (Takes st).

#[global] Instance host_wf_dec st : Decision (host_wf st).
Proof. unfold host_wf, layer_wf. apply _. Defined.

(** The scene after take [d], which was [t], got the layer [new] on top of
    its stack, selected. *)
Definition with_top_layer (d : nat) (t : FBTake) (new : FBAnimationLayer)
    (st : host) : host :=
  put d (mkTake (take_Name t) (Layers t ++ [new]) (length (Layers t))) st.

(** The curves collected from the scene under the current take and layer:
    the scan, then the collector on every component it returns. *)
Definition collected (st : host) : outcome (gmap positive (list key_data)) :=
  match get_animated_components (Scene_Components st) with
  | Ok components => update_curves components ∅
  | Raise e => Raise e
  end.

(** The layer [new] is a replay of the source layer [src]: mode, rotation
    mode and weight are the source's, the mute flag is the one the host gives
    a new layer.  The name is the host's to decide, see [host_named]. *)
Definition replayed (src new : FBAnimationLayer) : Prop :=
  LayerMode new = LayerMode src
  ∧ LayerRotationMode new = LayerRotationMode src
  ∧ Weight new = Weight src
  ∧ Mute new = Mute host_new_layer.

(** The layers [news], put one after the other on a stack whose layers have
    the names [taken], were each assigned the name of its source in [srcs]:
    a layer has its source's name unless a layer below it, old or new, has
    that name; then it has the name that the host's policy gives. *)
Fixpoint host_named (unique : list string → string → string)
    (taken : list string) (srcs news : list FBAnimationLayer) : Prop :=
  match srcs, news with
  | [], [] => True
  | src :: srcs, new :: news =>
      Name new = assigned_name unique taken (Name src)
      ∧ host_named unique (taken ++ [Name new]) srcs news
  | _, _ => False
  end.

(** *** Sample curves and dictionaries *)

Definition sample_key (t : Z) (v : float) (tm : FBTangentMode) (w : float)
  : FBFCurveKey :=
  mkKey t v kFBInterpolationCubic tm kFBTangentConstantModeNormal
        0.5%float 0.25%float w w.

(** Two keys with supported tangent modes and weights away from 1/3. *)
Definition sample_curve : list FBFCurveKey :=
  [sample_key 0 0%float kFBTangentModeBreak 0.5%float;
   sample_key 24 10%float kFBTangentModeUser 0.25%float].

(** A TCB key with default weights, then a Break key with weight 0.5. *)
Definition sample_records : list key_data :=
  [serialize_key (sample_key 0 0%float kFBTangentModeTCB 0.33333%float);
   serialize_key (sample_key 24 10%float kFBTangentModeBreak 0.5%float)].

(** The same two dictionaries, later time first. *)
Definition unordered_records : list key_data :=
  [serialize_key (sample_key 24 10%float kFBTangentModeBreak 0.5%float);
   serialize_key (sample_key 0 0%float kFBTangentModeTCB 0.33333%float)].

(** A dictionary whose interpolation value 7 is in no enumeration. *)
Definition bad_enum_records : list key_data :=
  [mkKeyData 0 0%float 7 3 0 0%float 0%float 0.5%float 0.5%float].

(** One dictionary whose left weight is exactly 0.3333. *)
Definition endpoint_records : list key_data :=
  [serialize_key (mkKey 0 0%float kFBInterpolationCubic kFBTangentModeBreak
                    kFBTangentConstantModeNormal 0%float 0%float
                    0.3333%float 0.5%float)].

(** A hierarchy: a root without curve over a keyed leaf, a leaf whose curve
    is empty, and an interior node over another keyed leaf. *)
Definition sample_root : FBAnimationNode :=
  AnimNode 1 0 None
    [AnimNode 2 2 (Some sample_curve) [];
     AnimNode 3 0 (Some []) [];
     AnimNode 4 0 None [AnimNode 5 2 (Some sample_curve) []]].

Definition sample_component : FBComponent := mkComponent (Some sample_root).

(** A scene with one component: a root channel over two channels that own
    curves. *)
Definition sample_channels : channel :=
  Channel 1 false [Channel 2 true []; Channel 3 true []].

Definition sample_base : FBAnimationLayer :=
  mkLayer "BaseAnimation" kFBLayerModeAdditive kFBLayerRotationModeEulerRotation
          100%float false {[ 2%positive := sample_curve ]}.

Definition sample_walk : FBAnimationLayer :=
  mkLayer "Walk" kFBLayerModeOverride kFBLayerRotationModeQuaternionRotation
          50%float true {[ 2%positive := sample_curve ]}.

Definition sample_wave : FBAnimationLayer :=
  mkLayer "Wave" kFBLayerModeOverridePassthrough kFBLayerRotationModeEulerRotation
          75%float false {[ 3%positive := sample_curve ]}.

(** Take [T1] with the stack Base, Walk, Wave, and take [T2] with its base
    layer only. *)
Definition sample_base2 : FBAnimationLayer :=
  mkLayer "BaseAnimation" kFBLayerModeAdditive kFBLayerRotationModeEulerRotation
          100%float false ∅.

Definition sample_components : list (option channel) :=
  [Some sample_channels; None].

(** A sample of a uniqueness policy: a mark is put after the name. *)
Definition sample_unique_name (taken : list string) (wanted : string) : string :=
  wanted +:+ " 1".

Definition sample_host : host :=
  mkHost [mkTake "T1" [sample_base; sample_walk; sample_wave] 0;
          mkTake "T2" [sample_base2] 0]
         0 sample_components sample_unique_name.

(** The sample scene with [T2] as the current take. *)
Definition sample_host_dst : host :=
  mkHost (Takes sample_host) 1 sample_components sample_unique_name.

(** A payload of two layers whose channels the scene has. *)
Definition sample_payload : list layer_map :=
  [mkLayerMap (0, 1) {[ 2%positive := serialize_curve sample_curve ]};
   mkLayerMap (0, 2) {[ 3%positive := serialize_curve sample_curve ]}].

(** ** Further notions: the codec *)

(** What one encode and decode make of a key: a TCB tangent mode becomes
    Break, and a weight that passes the default test is the weight of a new
    key; every other field is kept. *)
Definition normalized_key (k : FBFCurveKey) : FBFCurveKey :=
  mkKey (Time k) (Value k) (Interpolation k)
        (remap_tangent_mode (TangentMode k)) (TangentConstantMode k)
        (LeftDerivative k) (RightDerivative k)
        (if tangent_weight_is_default (LeftTangentWeight k)
         then default_tangent_weight else LeftTangentWeight k)
        (if tangent_weight_is_default (RightTangentWeight k)
         then default_tangent_weight else RightTangentWeight k).

(** A dictionary that the decode keeps as it is: its tangent mode is not
    TCB and its weights fail the default test. *)
Definition kept_verbatim (kd : key_data) : Prop :=
  FBTangentMode_values (kd_tangent_mode kd) ≠ Some kFBTangentModeTCB
  ∧ tangent_weight_is_default (kd_left_weight kd) = false
  ∧ tangent_weight_is_default (kd_right_weight kd) = false.

#[global] Instance kept_verbatim_dec kd : Decision (kept_verbatim kd).
Proof. unfold kept_verbatim. apply _. Defined.

(** Dictionaries in time order whose last one has an interpolation value
    outside the enumeration, followed by one more. *)
Definition partly_bad_records : list key_data :=
  sample_records
  ++ [mkKeyData 48 3%float 7 3 0 0%float 0%float 0.5%float 0.5%float;
      serialize_key (sample_key 72 10%float kFBTangentModeBreak 0.5%float)].

(** A curve with a TCB key and weights inside the default band. *)
Definition tcb_curve : list FBFCurveKey :=
  [sample_key 0 0%float kFBTangentModeTCB 0.33335%float;
   sample_key 24 10%float kFBTangentModeUser 0.25%float].

(** ** Further notions: hierarchies *)

(** [KeyCount] agrees with the curves below a node: where a curve has keys,
    the count of its node is not zero. *)
Definition key_counts_agree (root : FBAnimationNode) : Prop :=
  Forall (λ n, ∀ keys, FCurve n = Some keys → keys ≠ [] → KeyCount n ≠ 0%Z)
         (subnodes root).

(** A hierarchy no node of which reports keys, with an empty curve on its
    leaf. *)
Definition still_component : FBComponent :=
  mkComponent (Some (AnimNode 1 0 None [AnimNode 2 0 (Some []) []])).

(** ** Further notions: the transfer on any selection *)

(** The layers that a take node has checked, in the order of its children. *)
Definition checked_layers (node : take_node) : list (nat * nat) :=
  layer_data <$> filter (λ c, layer_Checked c = true) (children node).

(** The checked destination nodes that connect to take [i]. *)
Definition destinations (nodes_dst : list dst_node) (i : nat) : list dst_node :=
  filter (λ n, dst_Checked n = true ∧ dst_data n = i) nodes_dst.

(** The source layers whose replays take [i] receives, in the order in which
    they are put on its stack: source take nodes in tree order, for each the
    checked destinations, for each the checked layers in reverse child
    order. *)
Definition transferred (nodes_src : list take_node) (nodes_dst : list dst_node)
    (i : nat) : list (nat * nat) :=
  nodes_src ≫= (λ node,
    if take_Checked node
    then destinations nodes_dst i ≫= (λ _, rev (checked_layers node))
    else []).

(** The scene [st'] is [st] with the layers [f i] put on top of take [i]:
    same components, same takes by name, every layer stack extended. *)
Definition grown (st st' : host) (f : nat → list FBAnimationLayer) : Prop :=
  Components st' = Components st
  ∧ unique_name st' = unique_name st
  ∧ length (Takes st') = length (Takes st)
  ∧ ∀ i t, Takes st !! i = Some t →
      ∃ t', Takes st' !! i = Some t'
            ∧ take_Name t' = take_Name t
            ∧ Layers t' = Layers t ++ f i.

(** A checked take node fits the scene: its take exists, and each of its
    checked children connects to a layer of that take whose curves are host
    curves. *)
Definition src_node_ok (st : host) (node : take_node) : Prop :=
  take_Checked node = true →
  is_Some (Takes st !! take_data node)
  ∧ Forall (λ c, layer_Checked c = true →
                 (layer_data c).1 = take_data node
                 ∧ ∃ l, get_layer st (layer_data c) = Some l ∧ layer_wf l)
           (children node).

Definition dst_node_ok (st : host) (node : dst_node) : Prop :=
  dst_Checked node = true → dst_data node < length (Takes st).

(** The trees were loaded from the scene: they are those of [reload_src_tree]
    and [reload_dst_tree], with any boxes ticked. *)
Definition loaded_src (st : host) (nodes_src : list take_node) : Prop :=
  (λ n, (take_data n, layer_data <$> children n)) <$> nodes_src
  = (λ n, (take_data n, layer_data <$> children n)) <$> reload_src_tree st.

Definition loaded_dst (st : host) (nodes_dst : list dst_node) : Prop :=
  dst_data <$> nodes_dst = dst_data <$> reload_dst_tree st.

(** ** Further notions: what a replay copies *)

(** The component list as it reads while the selected layer of the current
    take holds [curves]. *)
Definition components_under (comps : list (option channel))
    (curves : gmap positive (list FBFCurveKey)) : list FBComponent :=
  (λ root, mkComponent (animation_node curves <$> root)) <$> comps.

(** The payload of a layer: what the scan and the collector of the transfer
    give while a layer with these curves is the selected one. *)
Definition payload (comps : list (option channel))
    (curves : gmap positive (list FBFCurveKey))
  : outcome (gmap positive (list key_data)) :=
  match get_animated_components (components_under comps curves) with
  | Ok components => update_curves components ∅
  | Raise e => Raise e
  end.

(** The curves that the replay's decode loop writes into a new layer. *)
Definition decoded_curves (m : gmap positive (list key_data))
  : gmap positive (list FBFCurveKey) :=
  (λ recs, (deserialize_curve recs []).1) <$> m.

Definition channel_id (ch : channel) : positive :=
  match ch with Channel id _ _ => id end.
Definition owns_curve (ch : channel) : bool :=
  match ch with Channel _ owns _ => owns end.
Definition sub_channels (ch : channel) : list channel :=
  match ch with Channel _ _ subs => subs end.

(** All channels of a hierarchy, the root first. *)
Fixpoint channel_nodes (ch : channel) : list channel :=
  match ch with
  | Channel _ _ subs => ch :: (subs ≫= channel_nodes)
  end.

(** The host's channel hierarchies: node identities are distinct within a
    component, and a channel that owns a curve has no sub-channels. *)
Definition channel_wf (ch : channel) : Prop :=
  NoDup (channel_id <$> channel_nodes ch)
  ∧ Forall (λ c, owns_curve c = true → length (sub_channels c) = 0)
           (channel_nodes ch).

Definition channels_wf (comps : list (option channel)) : Prop :=
  Forall (λ root, from_option channel_wf True root) comps.

#[global] Instance channels_wf_dec comps : Decision (channels_wf comps).
Proof.
  unfold channels_wf, channel_wf. apply Forall_dec. intros [ch|]; cbn; apply _.
Defined.

(** What a replay of a layer with the curves [curves] holds: for each
    channel of the scene that owns a curve and has keys under the source
    layer, those keys with tangent mode and weights as the decode leaves
    them. *)
Definition copied_curves (chs : list positive)
    (curves : gmap positive (list FBFCurveKey))
  : gmap positive (list FBFCurveKey) :=
  (λ keys : list FBFCurveKey, normalized_key <$> keys)
    <$> (filter (λ kv, kv.1 ∈ chs ∧ kv.2 ≠ []) curves
         : gmap positive (list FBFCurveKey)).

(** The layer [new] holds the decode of the payload of the layer that [r]
    refers to in the scene [st]. *)
Definition decoded_from (st : host) (r : nat * nat) (new : FBAnimationLayer)
  : Prop :=
  ∃ l m, get_layer st r = Some l
         ∧ payload (Components st) (layer_curves l) = Ok m
         ∧ layer_curves new = decoded_curves m.

(** The layer [new] is a copy of the source layer [src] in a scene with the
    curve channels [chs]: a replay (mode, rotation mode, weight, host mute
    flag) that holds the source's keyed curves.  Its name is the host's to
    decide. *)
Definition copy_of (chs : list positive) (src new : FBAnimationLayer) : Prop :=
  replayed src new
  ∧ layer_curves new = copied_curves chs (layer_curves src).

(** [transfer_btn_callback]: the transfer, then the source tree is rebuilt;
    the destination tree stays as it is.  The result is the new source
    tree.  The closing [Scene.Evaluate()] touches nothing that the scene
    record holds. *)
Definition transfer_btn_callback (nodes_src : list take_node)
    (nodes_dst : list dst_node) : M host (list take_node) :=
  transfer_anim_layers nodes_src nodes_dst >>
  do st <- get;
  ret (reload_src_tree st).

(** ** The check boxes of the trees *)

(** A node of the source tree: the take node at a position of the tree, or
    the child at a position of a take node's ['children'] list. *)
Inductive src_tree_node : Set :=
  | TakeNode (i : nat)
  | LayerNode (i j : nat).

Definition set_take_Checked (b : bool) (node : take_node) : take_node :=
  mkTakeNode b (take_data node) (children node).
Definition set_children (cs : list layer_node) (node : take_node) : take_node :=
  mkTakeNode (take_Checked node) (take_data node) cs.
Definition set_layer_Checked (b : bool) (c : layer_node) : layer_node :=
  mkLayerNode b (layer_data c).
Definition set_dst_Checked (b : bool) (n : dst_node) : dst_node :=
  mkDstNode b (dst_data n).

(** [src_all_btn_callback]: every key of [nodes_src], take node or layer
    node, is checked.  ([main_layout.Refresh()] only redraws.) *)
Definition src_all_btn_callback (nodes_src : list take_node) : list take_node :=
  (λ node, set_take_Checked true
             (set_children (set_layer_Checked true <$> children node) node))
    <$> nodes_src.

(** [src_none_btn_callback] *)
Definition src_none_btn_callback (nodes_src : list take_node) : list take_node :=
  (λ node, set_take_Checked false
             (set_children (set_layer_Checked false <$> children node) node))
    <$> nodes_src.

(** The loop [some_active = some_active or child.Checked] over the children
    of a take node. *)
Definition some_active (children : list layer_node) : bool :=
  foldl (λ some_active child, some_active || layer_Checked child) false children.

(** [src_set_take_state] *)
Definition src_set_take_state (nodes_src : list take_node) : list take_node :=
  (λ node, set_take_Checked (some_active (children node)) node) <$> nodes_src.

(** [src_invert_btn_callback]: the layer nodes flip, then the take nodes
    follow their children. *)
Definition src_invert_btn_callback (nodes_src : list take_node) : list take_node :=
  src_set_take_state
    ((λ node, set_children
                ((λ c, set_layer_Checked (negb (layer_Checked c)) c)
                   <$> children node) node) <$> nodes_src).

(** [tree_src_check_callback], for the node of the event: on a take node the
    children get the state of the take node; on a layer node the parent
    take node follows its children. *)
Definition tree_src_check_callback (node : src_tree_node)
    (nodes_src : list take_node) : list take_node :=
  match node with
  | TakeNode i =>
      alter (λ n, set_children (set_layer_Checked (take_Checked n) <$> children n) n)
            i nodes_src
  | LayerNode i _ =>
      alter (λ n, set_take_Checked (some_active (children n)) n) i nodes_src
  end.

(** A click on a check box of the source tree: the host flips the box of the
    node and raises [OnClickCheck], which [tree_src_check_callback] is
    registered for. *)
Definition src_click_check (node : src_tree_node) (nodes_src : list take_node)
  : list take_node :=
  tree_src_check_callback node
    match node with
    | TakeNode i =>
        alter (λ n, set_take_Checked (negb (take_Checked n)) n) i nodes_src
    | LayerNode i j =>
        alter (λ n, set_children
                      (alter (λ c, set_layer_Checked (negb (layer_Checked c)) c)
                             j (children n)) n) i nodes_src
    end.

(** [dst_all_btn_callback], [dst_none_btn_callback],
    [dst_invert_btn_callback] *)
Definition dst_all_btn_callback (nodes_dst : list dst_node) : list dst_node :=
  set_dst_Checked true <$> nodes_dst.
Definition dst_none_btn_callback (nodes_dst : list dst_node) : list dst_node :=
  set_dst_Checked false <$> nodes_dst.
Definition dst_invert_btn_callback (nodes_dst : list dst_node) : list dst_node :=
  (λ n, set_dst_Checked (negb (dst_Checked n)) n) <$> nodes_dst.

(** A click on a check box of the destination tree, which has no callback:
    the host flips the box. *)
Definition dst_click_check (i : nat) (nodes_dst : list dst_node) : list dst_node :=
  alter (λ n, set_dst_Checked (negb (dst_Checked n)) n) i nodes_dst.

(** What the user can do to the check boxes, and the trees after a sequence
    of such actions. *)
Inductive check_action : Set :=
  | SrcAll | SrcNone | SrcInvert | SrcClick (node : src_tree_node)
  | DstAll | DstNone | DstInvert | DstClick (i : nat).

Definition check_step (trees : list take_node * list dst_node) (a : check_action)
  : list take_node * list dst_node :=
  match a with
  | SrcAll => (src_all_btn_callback trees.1, trees.2)
  | SrcNone => (src_none_btn_callback trees.1, trees.2)
  | SrcInvert => (src_invert_btn_callback trees.1, trees.2)
  | SrcClick node => (src_click_check node trees.1, trees.2)
  | DstAll => (trees.1, dst_all_btn_callback trees.2)
  | DstNone => (trees.1, dst_none_btn_callback trees.2)
  | DstInvert => (trees.1, dst_invert_btn_callback trees.2)
  | DstClick i => (trees.1, dst_click_check i trees.2)
  end.

Definition check_run (actions : list check_action)
    (trees : list take_node * list dst_node) : list take_node * list dst_node :=
  foldl check_step trees actions.

(** What a take node connects to: its take and the layers of its children. *)
Definition src_refs (node : take_node) : nat * list (nat * nat) :=
  (take_data node, layer_data <$> children node).

(** The state that the transfer's comment relies on: a take node is checked
    exactly when one of its children is. *)
Definition take_follows_children (node : take_node) : Prop :=
  take_Checked node = true ↔ Exists (λ c, layer_Checked c = true) (children node).

(** ** The attribute buttons of the source panel *)

Definition set_Mute (x : bool) (l : FBAnimationLayer) : FBAnimationLayer :=
  mkLayer (Name l) (LayerMode l) (LayerRotationMode l) (Weight l) x
          (layer_curves l).

(** [is_BaseAnimation_layer(node)] on a layer node.  On a take node the type
    test fails first and the result is [False] without any read of the
    host, so the loops below pass over the take nodes. *)
Definition is_BaseAnimation_layer (node : layer_node) : M host bool :=
  do data <- layer_get (layer_data node);
  ret (bool_decide (Name data = "BaseAnimation")).

(** The loop that the four attribute callbacks share, over [nodes_src] in
    its order (a take node, then its layer nodes): the assignment [f] goes
    to the layer of every checked layer node that is not a BaseAnimation
    layer. *)
Definition for_checked_layers (f : FBAnimationLayer → FBAnimationLayer)
    (nodes_src : list take_node) : M host unit :=
  for_each nodes_src (λ node,
    for_each (children node) (λ child,
      if layer_Checked child then
        do base <- is_BaseAnimation_layer child;
        if base then ret tt else layer_set (layer_data child) f
      else ret tt)).

(** [on_mute_click]: the state for the chosen menu item, [item] being what
    [mute_menu.Execute] returns ([None], or an item with this [Id]). *)
Definition on_mute_click (item : option Z) : option bool :=
  match item with
  | Some id =>
      if (id =? 10)%Z then Some true
      else if (id =? 100)%Z then Some false
      else None
  | None => None
  end.

(** [mute_btn_callback]; [result] is whether [GetCursorPos] succeeded. *)
Definition mute_btn_callback (result : bool) (item : option Z)
    (nodes_src : list take_node) : M host unit :=
  if result then
    match on_mute_click item with
    | Some state => for_checked_layers (set_Mute state) nodes_src
    | None => ret tt
    end
  else ret tt.

(** [get_layer_mode] *)
Definition get_layer_mode (item : option Z) : option FBLayerMode :=
  match item with
  | Some id =>
      if (id =? 10)%Z then Some kFBLayerModeAdditive
      else if (id =? 11)%Z then Some kFBLayerModeOverride
      else if (id =? 12)%Z then Some kFBLayerModeOverridePassthrough
      else None
  | None => None
  end.

(** [mode_btn_callback] *)
Definition mode_btn_callback (result : bool) (item : option Z)
    (nodes_src : list take_node) : M host unit :=
  if result then
    match get_layer_mode item with
    | Some mode => for_checked_layers (set_LayerMode mode) nodes_src
    | None => ret tt
    end
  else ret tt.

(** [get_layer_rotation_mode] *)
Definition get_layer_rotation_mode (item : option Z) : option FBLayerRotationMode :=
  match item with
  | Some id =>
      if (id =? 10)%Z then Some kFBLayerRotationModeEulerRotation
      else if (id =? 11)%Z then Some kFBLayerRotationModeQuaternionRotation
      else None
  | None => None
  end.

(** [rotation_mode_btn_callback] *)
Definition rotation_mode_btn_callback (result : bool) (item : option Z)
    (nodes_src : list take_node) : M host unit :=
  if result then
    match get_layer_rotation_mode item with
    | Some mode => for_checked_layers (set_LayerRotationMode mode) nodes_src
    | None => ret tt
    end
  else ret tt.

(** [any([node.Checked for node in nl.nodes_src])], over take and layer
    nodes. *)
Definition any_checked (nodes_src : list take_node) : bool :=
  existsb (λ node, take_Checked node || existsb layer_Checked (children node))
          nodes_src.

(** [weight_btn_callback]; [btn] and [value] are what the input box
    returns.  A value outside [0.0 <= value <= 100.0] shows the error box and
    returns.  The closing [Scene.Evaluate()] touches nothing that the scene
    record holds. *)
Definition weight_btn_callback (btn : Z) (value : float)
    (nodes_src : list take_node) : M host unit :=
  if any_checked nodes_src then
    if (btn =? 1)%Z then
      if negb (PrimFloat.leb 0 value && PrimFloat.leb value 100) then ret tt
      else for_checked_layers (set_Weight value) nodes_src
    else ret tt
  else ret tt.

(** *** Notions for the attribute buttons *)

(** The scene with [g] applied to every layer, by its reference. *)
Definition map_layers (g : nat * nat → FBAnimationLayer → FBAnimationLayer)
    (st : host) : host :=
  set_Takes
    (imap (λ i t, set_Layers (imap (λ j l, g (i, j) l) (Layers t)) t) (Takes st))
    st.

(** The layers that an attribute button reaches: those of the checked layer
    nodes, but for the layers named BaseAnimation. *)
Definition reached (nodes_src : list take_node) (r : nat * nat)
    (l : FBAnimationLayer) : bool :=
  bool_decide (r ∈ nodes_src ≫= checked_layers)
  && negb (bool_decide (Name l = "BaseAnimation")).

Definition touched (f : FBAnimationLayer → FBAnimationLayer)
    (nodes_src : list take_node) (r : nat * nat) (l : FBAnimationLayer)
  : FBAnimationLayer :=
  if reached nodes_src r l then f l else l.

(** Closed decidable facts, by evaluation. *)
Ltac by_evaluation :=
  match goal with
  | |- ?P => apply (@bool_decide_eq_true_1 P _); vm_compute; reflexivity
  end.

(** * Properties *)

Section codec_lemmas.

Lemma serialize_curve_map fcurve :
  serialize_curve fcurve = serialize_key <$> fcurve.
Proof.
  unfold serialize_curve.
  assert (∀ acc, foldl (λ l key, l ++ [serialize_key key]) acc fcurve
                 = acc ++ (serialize_key <$> fcurve)) as H.
  { induction fcurve as [|k ks IH]; intros acc; simpl.
    - by rewrite app_nil_r.
    - rewrite IH. by rewrite <- app_assoc. }
  apply (H []).
Qed.

Lemma values_int_FBInterpolation e :
  FBInterpolation_values (int_FBInterpolation e) = Some e.
Proof. by destruct e. Qed.

Lemma values_int_FBTangentMode e :
  FBTangentMode_values (int_FBTangentMode e) = Some e.
Proof. by destruct e. Qed.

Lemma values_int_FBTangentConstantMode e :
  FBTangentConstantMode_values (int_FBTangentConstantMode e) = Some e.
Proof. by destruct e. Qed.

Lemma known_enums_serialize_key k : known_enums (serialize_key k).
Proof.
  unfold known_enums; simpl.
  rewrite values_int_FBInterpolation, values_int_FBTangentMode,
    values_int_FBTangentConstantMode. eauto.
Qed.

Lemma insert_key_after t v keys :
  Forall (λ k, (Time k < t)%Z) keys →
  insert_key t v keys = (keys ++ [new_key t v], length keys).
Proof.
  induction 1 as [|k ks Hk _ IH]; simpl; [done|].
  destruct (Z.ltb_spec t (Time k)); [lia|].
  destruct (Z.eqb_spec t (Time k)); [lia|].
  by rewrite IH.
Qed.

Lemma alter_snoc {A} (f : A → A) (l : list A) (x : A) :
  alter f (length l) (l ++ [x]) = l ++ [f x].
Proof.
  rewrite alter_app_r_alt by lia. by replace (length l - length l) with 0 by lia.
Qed.

Lemma lookup_snoc {A} (l : list A) (x : A) : (l ++ [x]) !! length l = Some x.
Proof. by apply list_lookup_middle. Qed.

Lemma add_key_after kd keys i tm cm :
  Forall (λ k, (Time k < kd_time kd)%Z) keys →
  FBInterpolation_values (kd_interpolation kd) = Some i →
  FBTangentMode_values (kd_tangent_mode kd) = Some tm →
  FBTangentConstantMode_values (kd_constant_mode kd) = Some cm →
  add_key kd keys = (keys ++ [first_pass_key kd i tm cm], Ok tt).
Proof.
  intros Hlt Hi Htm Hcm.
  unfold add_key, bind, KeyAdd, Keys_getitem, Keys_setattr, getitem, modify, ret.
  rewrite (insert_key_after _ _ _ Hlt), Hi, Htm, Hcm.
  rewrite lookup_snoc, !alter_snoc, lookup_snoc.
  unfold first_pass_key, remap_tangent_mode. cbn [TangentMode set_TangentMode].
  destruct (decide (tm = kFBTangentModeTCB)) as [->|Hne];
    by rewrite !alter_snoc.
Qed.

Lemma known_enums_first_pass kd : known_enums kd ↔ is_Some (first_pass kd).
Proof.
  unfold known_enums, first_pass. split.
  - intros ([i ->] & [tm ->] & [cm ->]). simpl. eauto.
  - intros [k Hk].
    destruct (FBInterpolation_values _); [|done].
    destruct (FBTangentMode_values _); [|done].
    destruct (FBTangentConstantMode_values _); [|done]. eauto.
Qed.

Lemma first_pass_Time kd k : first_pass kd = Some k → Time k = kd_time kd.
Proof.
  unfold first_pass. intros Hk.
  destruct (FBInterpolation_values _); [|done].
  destruct (FBTangentMode_values _); [|done].
  destruct (FBTangentConstantMode_values _); [|done].
  simpl in Hk. by injection Hk as <-.
Qed.

Lemma add_key_after' kd keys k :
  Forall (λ k, (Time k < kd_time kd)%Z) keys →
  first_pass kd = Some k →
  add_key kd keys = (keys ++ [k], Ok tt).
Proof.
  unfold first_pass. intros Hlt Hk.
  destruct (FBInterpolation_values _) as [i|] eqn:Hi; [|done].
  destruct (FBTangentMode_values _) as [tm|] eqn:Htm; [|done].
  destruct (FBTangentConstantMode_values _) as [cm|] eqn:Hcm; [|done].
  simpl in Hk. injection Hk as <-. by apply add_key_after.
Qed.

(** The first loop on time-ordered dictionaries appends one key each. *)
Lemma first_loop_increasing recs :
  ∀ keys,
    Forall known_enums recs →
    increasing (kd_time <$> recs) →
    Forall (λ k, Forall (λ kd, (Time k < kd_time kd)%Z) recs) keys →
    ∃ ks, Forall2 (λ kd k, first_pass kd = Some k) recs ks
          ∧ for_each recs add_key keys = (keys ++ ks, Ok tt).
Proof.
  induction recs as [|kd recs IH]; intros keys Hen Hinc Hlt.
  - exists []. split; [constructor|]. simpl. by rewrite app_nil_r.
  - apply Forall_cons in Hen as [Hkd Hen]. rewrite fmap_cons in Hinc.
    destruct Hinc as [Hhd Hinc]. rewrite Forall_fmap in Hhd.
    apply known_enums_first_pass in Hkd as [k Hk].
    assert (Forall (λ k, (Time k < kd_time kd)%Z) keys) as Hlt1.
    { eapply Forall_impl; [exact Hlt|]. intros k' Hk'. by inversion Hk'. }
    destruct (IH (keys ++ [k]) Hen Hinc) as (ks & Hks & Hrun).
    { apply Forall_app. split.
      - eapply Forall_impl; [exact Hlt|]. intros k' Hk'. by inversion Hk'.
      - apply Forall_singleton. rewrite (first_pass_Time _ _ Hk).
        exact Hhd. }
    exists (k :: ks). split; [by constructor|].
    simpl. unfold bind at 1. rewrite (add_key_after' _ _ _ Hlt1 Hk).
    rewrite Hrun. by rewrite <- app_assoc.
Qed.

(** One step of the second loop, at a position where a key exists. *)
Lemma set_tangents_at l1 kd l2 ks1 k ks2 :
  length ks1 = length l1 →
  set_tangents (l1 ++ kd :: l2) (length l1) (ks1 ++ k :: ks2)
  = (ks1 ++ second_pass_key kd k :: ks2, Ok tt).
Proof.
  intros Hlen. unfold set_tangents.
  rewrite list_lookup_middle by done.
  unfold bind, Keys_getitem, Keys_setattr, modify, ret.
  rewrite list_lookup_middle by done.
  rewrite <- Hlen. unfold second_pass_key.
  rewrite !alter_app_r_alt by lia.
  replace (length ks1 - length ks1) with 0 by lia. simpl.
  destruct (tangent_weight_is_default (kd_left_weight kd)); simpl;
    rewrite ?alter_app_r_alt by lia;
    replace (length ks1 - length ks1) with 0 by lia; simpl;
    destruct (tangent_weight_is_default (kd_right_weight kd)); simpl;
    rewrite ?alter_app_r_alt by lia;
    replace (length ks1 - length ks1) with 0 by lia; simpl; done.
Qed.

(** One step of the second loop, past the last key. *)
Lemma set_tangents_past l1 kd l2 ks1 :
  length ks1 = length l1 →
  set_tangents (l1 ++ kd :: l2) (length l1) ks1 = (ks1, Raise IndexError).
Proof.
  intros Hlen. unfold set_tangents.
  rewrite list_lookup_middle by done.
  unfold bind, Keys_getitem. rewrite <- Hlen.
  by rewrite lookup_ge_None_2 by lia.
Qed.

(** The second loop from position [length l1] on: it rewrites one key per
    dictionary and raises [IndexError] when the keys run out first. *)
Lemma second_loop l2 :
  ∀ l1 ks1 ks2,
    length ks1 = length l1 →
    for_each (seq (length l1) (length l2)) (set_tangents (l1 ++ l2)) (ks1 ++ ks2)
    = if decide (length l2 ≤ length ks2)
      then (ks1 ++ zip_with second_pass_key l2 ks2 ++ drop (length l2) ks2, Ok tt)
      else (ks1 ++ zip_with second_pass_key l2 ks2, Raise IndexError).
Proof.
  induction l2 as [|kd l2 IH]; intros l1 ks1 ks2 Hlen.
  - rewrite decide_True by (simpl; lia). by cbn.
  - destruct ks2 as [|k ks2]; cbn [length seq for_each]; unfold bind at 1.
    + rewrite app_nil_r, (set_tangents_past _ _ _ _ Hlen).
      rewrite decide_False by lia. cbn. by rewrite app_nil_r.
    + rewrite (set_tangents_at _ _ _ _ _ _ Hlen).
      replace (S (length l1)) with (length (l1 ++ [kd]))
        by (rewrite length_app; simpl; lia).
      replace (l1 ++ kd :: l2) with ((l1 ++ [kd]) ++ l2)
        by (by rewrite <- app_assoc).
      replace (ks1 ++ second_pass_key kd k :: ks2)
        with ((ks1 ++ [second_pass_key kd k]) ++ ks2)
        by (by rewrite <- app_assoc).
      rewrite IH by (rewrite !length_app; simpl; lia).
      destruct (decide (length l2 ≤ length ks2)).
      * rewrite decide_True by lia. by rewrite <- app_assoc.
      * rewrite decide_False by lia. by rewrite <- app_assoc.
Qed.

(** *** The first loop on arbitrary input *)

Lemma insert_key_lookup t v keys :
  is_Some ((insert_key t v keys).1 !! (insert_key t v keys).2).
Proof.
  induction keys as [|k ks IH]; simpl; [eauto|].
  destruct (t <? Time k)%Z; [simpl; eauto|].
  destruct (t =? Time k)%Z; [simpl; eauto|].
  destruct (insert_key t v ks) as [ks' i]. simpl in *. done.
Qed.

(** [add_key] with known enumeration values: the key is added and then
    updated in place; nothing is raised. *)
Lemma add_key_known kd keys i tm cm :
  FBInterpolation_values (kd_interpolation kd) = Some i →
  FBTangentMode_values (kd_tangent_mode kd) = Some tm →
  FBTangentConstantMode_values (kd_constant_mode kd) = Some cm →
  add_key kd keys
  = (alter (apply_first i tm cm)
       (insert_key (kd_time kd) (kd_value kd) keys).2
       (insert_key (kd_time kd) (kd_value kd) keys).1, Ok tt).
Proof.
  intros Hi Htm Hcm.
  pose proof (insert_key_lookup (kd_time kd) (kd_value kd) keys) as [k0 Hk0].
  unfold add_key, bind, KeyAdd, Keys_getitem, Keys_setattr, getitem, modify, ret.
  destruct (insert_key _ _ keys) as [keys' idx]. simpl in Hk0 |- *.
  rewrite Hk0, Hi, Htm, Hcm.
  rewrite !list_lookup_alter_eq, Hk0. cbn [fmap option_fmap option_map].
  cbn [TangentMode set_TangentMode set_Interpolation].
  unfold apply_first, remap_tangent_mode.
  destruct (decide (tm = kFBTangentModeTCB)) as [->|Hne];
    rewrite !list_alter_alter_eq; f_equal; apply list_alter_ext; done.
Qed.

(** [add_key] with an enumeration value outside its [values]: [KeyError]. *)
Lemma add_key_unknown kd keys :
  ¬ known_enums kd → (add_key kd keys).2 = Raise KeyError.
Proof.
  intros Hun.
  pose proof (insert_key_lookup (kd_time kd) (kd_value kd) keys) as [k0 Hk0].
  unfold add_key, bind, KeyAdd, Keys_getitem, Keys_setattr, getitem, modify, ret.
  destruct (insert_key _ _ keys) as [keys' idx]. simpl in Hk0 |- *.
  rewrite Hk0.
  destruct (FBInterpolation_values _) as [i|] eqn:Hi; [|done].
  destruct (FBTangentMode_values _) as [tm|] eqn:Htm; [|done].
  rewrite !list_lookup_alter_eq, Hk0. cbn [fmap option_fmap option_map].
  destruct (FBTangentConstantMode_values _) as [cm|] eqn:Hcm.
  { destruct Hun. unfold known_enums. rewrite Hi, Htm, Hcm. eauto. }
  by destruct (decide _).
Qed.

Lemma add_key_known' kd keys :
  known_enums kd →
  ∃ f, (∀ k, Time (f k) = Time k) ∧
    add_key kd keys
    = (alter f (insert_key (kd_time kd) (kd_value kd) keys).2
                 (insert_key (kd_time kd) (kd_value kd) keys).1, Ok tt).
Proof.
  intros ([i Hi] & [tm Htm] & [cm Hcm]).
  exists (apply_first i tm cm). split; [done|]. by apply add_key_known.
Qed.

(** The first loop raises exactly when some dictionary has an unknown
    enumeration value, and then it raises [KeyError]. *)
Lemma first_loop_outcome recs :
  ∀ keys,
    (for_each recs add_key keys).2
    = if decide (Forall known_enums recs) then Ok tt else Raise KeyError.
Proof.
  induction recs as [|kd recs IH]; intros keys.
  - by rewrite decide_True by constructor.
  - cbn [for_each]. unfold bind at 1.
    destruct (decide (known_enums kd)) as [Hkd|Hkd].
    + destruct (add_key_known' kd keys Hkd) as (f & _ & ->).
      rewrite IH. destruct (decide (Forall known_enums recs)).
      * by rewrite decide_True by by constructor.
      * rewrite decide_False; [done|]. by inversion 1.
    + pose proof (add_key_unknown kd keys Hkd) as Hr.
      destruct (add_key kd keys) as [s o]. simpl in Hr. subst o.
      rewrite decide_False; [done|]. by inversion 1.
Qed.

Lemma insert_key_times t v keys :
  Time <$> (insert_key t v keys).1 = insert_time t (Time <$> keys).
Proof.
  induction keys as [|k ks IH]; [done|]. cbn [insert_key].
  rewrite fmap_cons. cbn [insert_time].
  destruct (t <? Time k)%Z; [done|].
  destruct (t =? Time k)%Z; [done|].
  destruct (insert_key t v ks) as [ks' i]. cbn [fst] in *.
  by rewrite fmap_cons, IH.
Qed.

Lemma alter_times (f : FBFCurveKey → FBFCurveKey) (i : nat)
    (keys : list FBFCurveKey) :
  (∀ k, Time (f k) = Time k) → Time <$> alter f i keys = Time <$> keys.
Proof.
  intros Hf. rewrite (list_fmap_alter Time f id).
  - by apply list_alter_id.
  - apply Forall_forall. intros k _. apply Hf.
Qed.

Lemma insert_time_elem t ts x : x ∈ insert_time t ts ↔ x = t ∨ x ∈ ts.
Proof.
  induction ts as [|u ts IH]; simpl.
  - set_solver.
  - destruct (Z.ltb_spec t u); [set_solver|].
    destruct (Z.eqb_spec t u); set_solver.
Qed.

Lemma insert_time_increasing t ts : increasing ts → increasing (insert_time t ts).
Proof.
  induction ts as [|u ts IH]; simpl; [by intros _; split; [constructor|]|].
  intros [Hu Hts].
  destruct (Z.ltb_spec t u).
  - simpl. split_and!; [|done..]. constructor; [done|].
    eapply Forall_impl; [exact Hu|]. simpl. lia.
  - destruct (Z.eqb_spec t u); [done|].
    simpl. split; [|by apply IH].
    apply Forall_forall. intros x [->|Hx]%insert_time_elem; [lia|].
    by eapply Forall_forall in Hu.
Qed.

Lemma insert_time_length t ts :
  increasing ts →
  length (insert_time t ts) = if decide (t ∈ ts) then length ts else S (length ts).
Proof.
  induction ts as [|u ts IH]; cbn [insert_time increasing].
  - intros _. destruct (decide (t ∈ [])) as [Hin|Hin]; [|done].
    by apply elem_of_nil in Hin.
  - intros [Hu Hts]. destruct (Z.ltb_spec t u).
    + destruct (decide (t ∈ u :: ts)) as [Hin|Hin]; [|done].
      apply elem_of_cons in Hin as [->|Hin]; [lia|].
      eapply Forall_forall in Hu; [|done]. lia.
    + destruct (Z.eqb_spec t u) as [->|Hne].
      * destruct (decide (u ∈ u :: ts)) as [Hin|Hin]; [done|].
        destruct Hin. by left.
      * cbn [length]. rewrite IH by done.
        destruct (decide (t ∈ ts)) as [Hin|Hin];
          destruct (decide (t ∈ u :: ts)) as [Hin'|Hin']; try done.
        -- destruct Hin'. by right.
        -- apply elem_of_cons in Hin' as [?|?]; done.
Qed.

(** Inserting a list of times one by one: the length grows by the length of
    the list exactly when its times are new and pairwise distinct. *)
Lemma insert_times_length l :
  ∀ acc, increasing acc →
    let r := foldl (λ a t, insert_time t a) acc l in
    increasing r
    ∧ length r ≤ length acc + length l
    ∧ (length r = length acc + length l ↔ NoDup l ∧ Forall (λ t, t ∉ acc) l).
Proof.
  induction l as [|t l IH]; intros acc Hacc; cbn [foldl].
  - cbn [length]. split_and!; [done|lia|]. split; [|lia].
    intros _. split; constructor.
  - destruct (IH (insert_time t acc) (insert_time_increasing t acc Hacc))
      as (Hinc & Hle & Heq).
    cbn zeta in *. cbn [length].
    rewrite insert_time_length in Hle, Heq by done.
    split_and!; [done| |].
    + destruct (decide (t ∈ acc)); lia.
    + rewrite NoDup_cons, Forall_cons.
      destruct (decide (t ∈ acc)) as [Hin|Hnin].
      * split; [lia|]. intros (_ & ? & _). done.
      * rewrite Nat.add_succ_r. cbn [Nat.add] in Heq. rewrite Heq.
        rewrite !Forall_forall. setoid_rewrite insert_time_elem.
        split.
        -- intros (Hnd & Hall). split_and!; [|done..| ].
           ++ intros Ht. by apply (Hall t); [|left].
           ++ intros x Hx Hxa. apply (Hall x Hx). by right.
        -- intros ((Htl & Hnd) & _ & Hall). split; [done|].
           intros x Hx [->|Hxa]; [done|]. by apply (Hall x).
Qed.

(** [KeyAdd] keeps the key times of a curve increasing. *)
Lemma insert_key_increasing t v keys :
  increasing (Time <$> keys) → increasing (Time <$> (insert_key t v keys).1).
Proof. rewrite insert_key_times. apply insert_time_increasing. Qed.

(** The key times after the first loop. *)
Lemma first_loop_times recs :
  ∀ keys,
    Forall known_enums recs →
    ∃ keys', for_each recs add_key keys = (keys', Ok tt)
             ∧ Time <$> keys'
               = foldl (λ a t, insert_time t a) (Time <$> keys) (kd_time <$> recs).
Proof.
  induction recs as [|kd recs IH]; intros keys Hen.
  - by exists keys.
  - apply Forall_cons in Hen as [Hkd Hen].
    destruct (add_key_known' kd keys Hkd) as (f & Hf & Hrun).
    destruct (IH (alter f (insert_key (kd_time kd) (kd_value kd) keys).2
                    (insert_key (kd_time kd) (kd_value kd) keys).1) Hen)
      as (keys' & Hrun' & Htimes).
    exists keys'. split.
    + cbn [for_each]. unfold bind at 1. by rewrite Hrun.
    + rewrite Htimes, fmap_cons. cbn [foldl].
      by rewrite alter_times, insert_key_times.
Qed.

Lemma deserialize_curve_unfold recs c :
  deserialize_curve recs c
  = match for_each recs add_key [] with
    | (keys, Ok _) =>
        for_each (seq 0 (length recs)) (set_tangents recs) keys
    | (keys, Raise e) => (keys, Raise e)
    end.
Proof. done. Qed.

(** When [deserialize_curve] raises, and what. *)
Lemma deserialize_curve_outcome recs c :
  (deserialize_curve recs c).2
  = if decide (Forall known_enums recs)
    then if decide (NoDup (kd_time <$> recs)) then Ok tt else Raise IndexError
    else Raise KeyError.
Proof.
  rewrite deserialize_curve_unfold.
  destruct (decide (Forall known_enums recs)) as [Hen|Hen].
  - destruct (first_loop_times recs [] Hen) as (keys & -> & Htimes).
    destruct (insert_times_length (kd_time <$> recs) [] I) as (_ & Hle & Heq).
    cbn zeta in Hle, Heq. rewrite fmap_nil in Htimes.
    rewrite <- Htimes in Hle, Heq. rewrite !length_fmap in Hle, Heq.
    cbn [length Nat.add] in Hle, Heq.
    pose proof (second_loop recs [] [] keys eq_refl) as Hrun.
    cbn [length app] in Hrun. rewrite Hrun.
    destruct (decide (NoDup (kd_time <$> recs))) as [Hnd|Hnd].
    + rewrite decide_True; [done|]. apply Nat.eq_le_incl. symmetry.
      apply Heq. split; [done|]. apply Forall_forall. intros t _.
      apply not_elem_of_nil.
    + rewrite decide_False; [done|]. intros Hlen. apply Hnd.
      apply Heq. lia.
  - pose proof (first_loop_outcome recs []) as Hout.
    rewrite decide_False in Hout by done.
    destruct (for_each recs add_key []) as [keys o]. simpl in Hout. by subst o.
Qed.

(** Time-ordered dictionaries with known enumeration values decode to one
    key each, in the same order, whatever keys the curve held before. *)
Lemma deserialize_curve_increasing recs :
  Forall known_enums recs →
  increasing (kd_time <$> recs) →
  ∃ ks, Forall2 (λ kd k, decoded_key kd = Some k) recs ks
        ∧ ∀ c, deserialize_curve recs c = (ks, Ok tt).
Proof.
  intros Hen Hinc.
  destruct (first_loop_increasing recs [] Hen Hinc) as (fks & Hfks & Hrun);
    [constructor|].
  exists (zip_with second_pass_key recs fks). split.
  - clear Hrun Hen Hinc. induction Hfks as [|kd k recs fks Hk _ IH]; cbn.
    + constructor.
    + constructor; [|done]. unfold decoded_key. by rewrite Hk.
  - intros c. rewrite deserialize_curve_unfold, Hrun. cbn [app].
    pose proof (second_loop recs [] [] fks eq_refl) as Hrun2.
    cbn [length app] in Hrun2. rewrite Hrun2.
    rewrite decide_True by (by rewrite (Forall2_length _ _ _ Hfks)).
    rewrite drop_ge by (by rewrite (Forall2_length _ _ _ Hfks)).
    by rewrite app_nil_r.
Qed.

Lemma increasing_NoDup ts : increasing ts → NoDup ts.
Proof.
  induction ts as [|t ts IH]; [constructor|]. intros [Hlt Hinc].
  constructor; [|by apply IH]. intros Hin.
  eapply Forall_forall in Hlt; [|done]. lia.
Qed.

(** *** The first loop on dictionaries at pairwise distinct times *)

Lemma insert_key_fresh t v keys :
  t ∉ Time <$> keys →
  ∃ l1 l2, keys = l1 ++ l2
           ∧ insert_key t v keys = (l1 ++ new_key t v :: l2, length l1).
Proof.
  induction keys as [|k ks IH]; intros Hfresh.
  - by exists [], [].
  - rewrite fmap_cons, not_elem_of_cons in Hfresh. destruct Hfresh as [Hne Hfresh].
    cbn [insert_key]. destruct (t <? Time k)%Z.
    + by exists [], (k :: ks).
    + destruct (Z.eqb_spec t (Time k)); [done|].
      destruct (IH Hfresh) as (l1 & l2 & -> & ->).
      by exists (k :: l1), l2.
Qed.

Lemma add_key_fresh kd keys k :
  kd_time kd ∉ Time <$> keys →
  first_pass kd = Some k →
  ∃ l1 l2, keys = l1 ++ l2 ∧ add_key kd keys = (l1 ++ k :: l2, Ok tt).
Proof.
  unfold first_pass. intros Hfresh Hk.
  destruct (FBInterpolation_values _) as [i|] eqn:Hi; [|done].
  destruct (FBTangentMode_values _) as [tm|] eqn:Htm; [|done].
  destruct (FBTangentConstantMode_values _) as [cm|] eqn:Hcm; [|done].
  simpl in Hk. injection Hk as <-.
  destruct (insert_key_fresh _ (kd_value kd) _ Hfresh) as (l1 & l2 & -> & Hins).
  exists l1, l2. split; [done|].
  rewrite (add_key_known _ _ _ _ _ Hi Htm Hcm), Hins. cbn [fst snd].
  by rewrite alter_app_r_alt, Nat.sub_diag by lia.
Qed.

Lemma first_loop_distinct recs :
  ∀ keys,
    Forall known_enums recs →
    NoDup (kd_time <$> recs) →
    Forall (λ kd, kd_time kd ∉ Time <$> keys) recs →
    ∃ keys',
      for_each recs add_key keys = (keys', Ok tt)
      ∧ length keys' = length keys + length recs
      ∧ (∀ k, k ∈ keys → k ∈ keys')
      ∧ (∀ kd, kd ∈ recs → ∃ k, k ∈ keys' ∧ first_pass kd = Some k)
      ∧ (∀ k, k ∈ keys' → k ∈ keys ∨ ∃ kd, kd ∈ recs ∧ first_pass kd = Some k).
Proof.
  induction recs as [|kd recs IH]; intros keys Hen Hnd Hfresh.
  - exists keys. split_and!; [done|simpl; lia|done| |by left].
    intros kd Hkd. by apply elem_of_nil in Hkd.
  - apply Forall_cons in Hen as [Hkd Hen].
    rewrite fmap_cons in Hnd. apply NoDup_cons in Hnd as [Hnin Hnd].
    apply Forall_cons in Hfresh as [Hfr Hfresh].
    apply known_enums_first_pass in Hkd as [k Hk].
    destruct (add_key_fresh _ _ _ Hfr Hk) as (l1 & l2 & -> & Hrun).
    destruct (IH (l1 ++ k :: l2) Hen Hnd) as (keys' & Hrun' & Hlen & Hold & Hnew & Hinv).
    { apply Forall_forall. intros kd' Hkd'.
      rewrite fmap_app, fmap_cons, (first_pass_Time _ _ Hk).
      rewrite elem_of_app, elem_of_cons.
      intros [Hin|[Heq|Hin]].
      - eapply Forall_forall in Hfresh; [|done]. apply Hfresh.
        rewrite fmap_app, elem_of_app. by left.
      - apply Hnin. rewrite <- Heq. by apply list_elem_of_fmap_2.
      - eapply Forall_forall in Hfresh; [|done]. apply Hfresh.
        rewrite fmap_app, elem_of_app. by right. }
    exists keys'. split_and!.
    + cbn [for_each]. unfold bind at 1. by rewrite Hrun.
    + rewrite Hlen, !length_app. simpl. lia.
    + intros k' Hk'. apply Hold. rewrite elem_of_app, elem_of_cons.
      apply elem_of_app in Hk' as [?|?]; auto.
    + intros kd' [->|Hkd']%elem_of_cons.
      * exists k. split; [|done]. apply Hold.
        rewrite elem_of_app, elem_of_cons. auto.
      * by apply Hnew.
    + intros k' Hk'. destruct (Hinv k' Hk') as [Hin|(kd' & Hkd' & Hfp)].
      * rewrite elem_of_app, elem_of_cons in Hin.
        destruct Hin as [Hin|[->|Hin]].
        -- left. rewrite elem_of_app. auto.
        -- right. exists kd. split; [by left|done].
        -- left. rewrite elem_of_app. auto.
      * right. exists kd'. split; [by right|done].
Qed.

(** Dictionaries with known enumeration values at pairwise distinct times
    decode without an exception: the first loop leaves one key per
    dictionary, and the second loop updates the key at each dictionary's
    position. *)
Lemma deserialize_curve_distinct recs :
  Forall known_enums recs →
  NoDup (kd_time <$> recs) →
  ∃ fks,
    for_each recs add_key [] = (fks, Ok tt)
    ∧ length fks = length recs
    ∧ (∀ kd, kd ∈ recs → ∃ k, k ∈ fks ∧ first_pass kd = Some k)
    ∧ (∀ k, k ∈ fks → ∃ kd, kd ∈ recs ∧ first_pass kd = Some k)
    ∧ ∀ c, deserialize_curve recs c = (zip_with second_pass_key recs fks, Ok tt).
Proof.
  intros Hen Hnd.
  destruct (first_loop_distinct recs [] Hen Hnd) as (fks & Hrun & Hlen & _ & Hnew & Hinv).
  { apply Forall_forall. intros kd _. apply not_elem_of_nil. }
  exists fks. split_and!; [done|done|done| |].
  - intros k Hk. destruct (Hinv k Hk) as [Hin|?]; [|done].
    by apply elem_of_nil in Hin.
  - intros c. rewrite deserialize_curve_unfold, Hrun.
    pose proof (second_loop recs [] [] fks eq_refl) as Hrun2.
    cbn [length app] in Hrun2. rewrite Hrun2.
    rewrite decide_True by (simpl in Hlen; lia).
    rewrite drop_ge by (simpl in Hlen; lia).
    by rewrite app_nil_r.
Qed.

Lemma second_pass_key_Time kd k : Time (second_pass_key kd k) = Time k.
Proof.
  unfold second_pass_key.
  by destruct (tangent_weight_is_default _), (tangent_weight_is_default _).
Qed.

Lemma second_pass_key_TangentMode kd k :
  TangentMode (second_pass_key kd k) = TangentMode k.
Proof.
  unfold second_pass_key.
  by destruct (tangent_weight_is_default _), (tangent_weight_is_default _).
Qed.

Lemma second_pass_key_LeftTangentWeight kd k :
  LeftTangentWeight (second_pass_key kd k)
  = if tangent_weight_is_default (kd_left_weight kd)
    then LeftTangentWeight k else kd_left_weight kd.
Proof.
  unfold second_pass_key.
  by destruct (tangent_weight_is_default _), (tangent_weight_is_default _).
Qed.

Lemma second_pass_key_RightTangentWeight kd k :
  RightTangentWeight (second_pass_key kd k)
  = if tangent_weight_is_default (kd_right_weight kd)
    then RightTangentWeight k else kd_right_weight kd.
Proof.
  unfold second_pass_key.
  by destruct (tangent_weight_is_default _), (tangent_weight_is_default _).
Qed.

Lemma first_pass_weights kd k :
  first_pass kd = Some k →
  LeftTangentWeight k = default_tangent_weight
  ∧ RightTangentWeight k = default_tangent_weight.
Proof.
  unfold first_pass. intros Hk.
  destruct (FBInterpolation_values _); [|done].
  destruct (FBTangentMode_values _); [|done].
  destruct (FBTangentConstantMode_values _); [|done].
  simpl in Hk. by injection Hk as <-.
Qed.

Lemma first_pass_TangentMode kd k tm :
  first_pass kd = Some k →
  FBTangentMode_values (kd_tangent_mode kd) = Some tm →
  TangentMode k = remap_tangent_mode tm.
Proof.
  unfold first_pass. intros Hk Htm. rewrite Htm in Hk.
  destruct (FBInterpolation_values _); [|done].
  destruct (FBTangentConstantMode_values _); [|done].
  simpl in Hk. by injection Hk as <-.
Qed.

(** A serialized key decodes to itself, unless its tangent mode is TCB or one
    of its weights passes the default test. *)
Lemma decoded_serialize_key k :
  TangentMode k ≠ kFBTangentModeTCB →
  tangent_weight_is_default (LeftTangentWeight k) = false →
  tangent_weight_is_default (RightTangentWeight k) = false →
  decoded_key (serialize_key k) = Some k.
Proof.
  intros Htm Hl Hr. unfold decoded_key, first_pass. cbn [serialize_key kd_interpolation
    kd_tangent_mode kd_constant_mode].
  rewrite values_int_FBInterpolation, values_int_FBTangentMode,
    values_int_FBTangentConstantMode.
  cbn [mbind option_bind fmap option_fmap option_map].
  unfold second_pass_key, first_pass_key, remap_tangent_mode.
  cbn [serialize_key kd_left_weight kd_right_weight]. rewrite Hl, Hr.
  rewrite decide_False by done. by destruct k.
Qed.

Lemma NoDup_fmap_eq {A B} (f : A → B) (l : list A) (x y : A) :
  NoDup (f <$> l) → x ∈ l → y ∈ l → f x = f y → x = y.
Proof.
  induction l as [|a l IH]; [by intros _ ?%elem_of_nil|].
  rewrite fmap_cons, NoDup_cons. intros [Hnin Hnd] Hx Hy Hxy.
  apply elem_of_cons in Hx as [->|Hx]; apply elem_of_cons in Hy as [->|Hy].
  - done.
  - destruct Hnin. rewrite Hxy. by apply list_elem_of_fmap_2.
  - destruct Hnin. rewrite <- Hxy. by apply list_elem_of_fmap_2.
  - by apply IH.
Qed.

End codec_lemmas.

(** *** Key times in every outcome *)

Lemma add_key_times kd keys :
  Time <$> (add_key kd keys).1 = insert_time (kd_time kd) (Time <$> keys).
Proof.
  rewrite <- (insert_key_times _ (kd_value kd)).
  pose proof (insert_key_lookup (kd_time kd) (kd_value kd) keys) as [k0 Hk0].
  unfold add_key, bind, KeyAdd, Keys_getitem, Keys_setattr, getitem, modify,
    ret, raise.
  destruct (insert_key _ _ keys) as [keys' idx]. cbn [fst snd] in *.
  rewrite Hk0.
  destruct (FBInterpolation_values _) as [i|]; [|done].
  destruct (FBTangentMode_values _) as [tm|];
    [|cbn [fst]; by rewrite alter_times].
  rewrite !list_lookup_alter_eq, Hk0. cbn [fmap option_fmap option_map].
  destruct (decide _); destruct (FBTangentConstantMode_values _);
    cbn [fst]; by rewrite !alter_times.
Qed.

Lemma first_loop_times_any recs :
  ∀ keys t,
    t ∈ Time <$> (for_each recs add_key keys).1 →
    t ∈ Time <$> keys ∨ t ∈ kd_time <$> recs.
Proof.
  induction recs as [|kd recs IH]; intros keys t; [by left|].
  cbn [for_each]. unfold bind at 1. pose proof (add_key_times kd keys) as Hk.
  destruct (add_key kd keys) as [keys' [[]|e]]; cbn [fst] in *.
  - intros [Ht|Ht]%IH.
    + rewrite Hk in Ht. apply insert_time_elem in Ht as [->|Ht]; [|by left].
      right. rewrite fmap_cons. by left.
    + right. rewrite fmap_cons. by right.
  - rewrite Hk. intros [->|Ht]%insert_time_elem; [|by left].
    right. rewrite fmap_cons. by left.
Qed.

Lemma set_tangents_times recs i keys :
  Time <$> (set_tangents recs i keys).1 = Time <$> keys.
Proof.
  unfold set_tangents. destruct (recs !! i) as [kd|]; [|done].
  unfold bind, Keys_getitem, Keys_setattr, modify, ret.
  destruct (keys !! i); [|done].
  destruct (tangent_weight_is_default (kd_left_weight kd)),
    (tangent_weight_is_default (kd_right_weight kd));
    cbn [negb fst]; by rewrite !alter_times.
Qed.

Lemma second_loop_times recs (positions : list nat) :
  ∀ keys,
    Time <$> (for_each positions (set_tangents recs) keys).1 = Time <$> keys.
Proof.
  induction positions as [|i positions IH]; intros keys; [done|].
  cbn [for_each]. unfold bind at 1.
  pose proof (set_tangents_times recs i keys) as Hk.
  destruct (set_tangents recs i keys) as [keys' [[]|e]]; cbn [fst] in *.
  - by rewrite IH.
  - done.
Qed.

(** Whatever the outcome, every key that [deserialize_curve] leaves is at the
    time of one of the dictionaries. *)
Lemma deserialize_curve_times recs c k :
  k ∈ (deserialize_curve recs c).1 → Time k ∈ kd_time <$> recs.
Proof.
  rewrite deserialize_curve_unfold. intros Hk.
  assert (Time k ∈ Time <$> (for_each recs add_key []).1) as Ht.
  { destruct (for_each recs add_key []) as [keys [[]|e]]; cbn [fst].
    - rewrite <- (second_loop_times recs (seq 0 (length recs)) keys).
      by apply list_elem_of_fmap_2.
    - by apply list_elem_of_fmap_2. }
  apply first_loop_times_any in Ht as [Ht|Ht]; [|done].
  by apply elem_of_nil in Ht.
Qed.

(** ** The keyframe codec *)

(** C1. Round-trip identity: decoding the encoding of a curve, onto any
    destination curve, completes and leaves exactly the keys of the source, so
    every field of every key, the number of keys and their time order are
    reproduced.  The source is a host curve (its key times increase), no key
    has the TCB tangent mode, and no weight passes the default-weight test. *)
Theorem deserialize_serialize_roundtrip (src dst : list FBFCurveKey) :
  increasing (Time <$> src) →
  Forall (λ k, TangentMode k ≠ kFBTangentModeTCB) src →
  Forall (λ k, tangent_weight_is_default (LeftTangentWeight k) = false
               ∧ tangent_weight_is_default (RightTangentWeight k) = false) src →
  deserialize_curve (serialize_curve src) dst = (src, Ok tt).
Proof.
  intros Hinc Htm Hw. rewrite serialize_curve_map.
  destruct (deserialize_curve_increasing (serialize_key <$> src)) as (ks & Hks & ->).
  - apply Forall_fmap, Forall_forall. intros k _. apply known_enums_serialize_key.
  - by rewrite <- list_fmap_compose.
  - f_equal. apply Forall2_fmap_l in Hks.
    induction Hks as [|k k' src ks Hk _ IH]; [done|].
    apply Forall_cons in Htm as [Hktm Htm]. apply Forall_cons in Hw as [[Hl Hr] Hw].
    rewrite fmap_cons in Hinc. destruct Hinc as [_ Hinc].
    unfold compose in Hk.
    rewrite (decoded_serialize_key k Hktm Hl Hr) in Hk. injection Hk as <-.
    f_equal. by apply IH.
Qed.

Lemma deserialize_serialize_roundtrip_witness :
  deserialize_curve (serialize_curve sample_curve) [sample_key 5 1%float kFBTangentModeAuto 0.5%float]
  = (sample_curve, Ok tt).
Proof.
  apply (deserialize_serialize_roundtrip sample_curve); by_evaluation.
Defined.

Lemma float_ltb_leb_eqb (a w : float) :
  PrimFloat.ltb a w = PrimFloat.leb a w && negb (PrimFloat.eqb a w).
Proof.
  rewrite FloatAxioms.ltb_spec, FloatAxioms.leb_spec, FloatAxioms.eqb_spec.
  unfold SFltb, SFleb, SFeqb.
  by destruct (SFcompare _ _) as [[]|].
Qed.

(** C3, as the code has it.  The default-weight test holds exactly for
    [0.3333 < w < 0.3334]: it is the band [[0.3333, 0.3334)] of the decode
    rule without its left end point.  When the dictionaries decode (known
    enumeration values, pairwise distinct times), the key at each position
    keeps the weight that the first loop's new key had, the host default,
    where the stored weight passes the test, and carries the stored weight
    itself where it does not. *)
Theorem default_weight_suppression (recs : list key_data) :
  Forall known_enums recs →
  NoDup (kd_time <$> recs) →
  (∀ w, tangent_weight_is_default w
        = spec_default_band w && negb (PrimFloat.eqb 0.3333%float w))
  ∧ ∃ fks final,
      for_each recs add_key [] = (fks, Ok tt)
      ∧ (∀ c, deserialize_curve recs c = (final, Ok tt))
      ∧ ∀ j kd k0 k,
          recs !! j = Some kd → fks !! j = Some k0 → final !! j = Some k →
          LeftTangentWeight k0 = default_tangent_weight
          ∧ RightTangentWeight k0 = default_tangent_weight
          ∧ LeftTangentWeight k
            = (if tangent_weight_is_default (kd_left_weight kd)
               then LeftTangentWeight k0 else kd_left_weight kd)
          ∧ RightTangentWeight k
            = (if tangent_weight_is_default (kd_right_weight kd)
               then RightTangentWeight k0 else kd_right_weight kd).
Proof.
  intros Hen Hnd. split.
  - intros w. unfold tangent_weight_is_default, spec_default_band.
    rewrite float_ltb_leb_eqb.
    by destruct (PrimFloat.leb _ w), (PrimFloat.eqb _ w), (PrimFloat.ltb w _).
  - destruct (deserialize_curve_distinct recs Hen Hnd)
      as (fks & Hrun & Hlen & _ & Hfirst & Hdec).
    exists fks, (zip_with second_pass_key recs fks). split_and!; [done..|].
    intros j kd k0 k Hkd Hk0 Hk.
    apply lookup_zip_with_Some in Hk as (kd' & k0' & -> & Hkd' & Hk0').
    rewrite Hkd in Hkd'. rewrite Hk0 in Hk0'.
    injection Hkd' as <-. injection Hk0' as <-.
    destruct (Hfirst k0) as (kd0 & _ & Hfp); [by eapply list_elem_of_lookup_2|].
    destruct (first_pass_weights _ _ Hfp) as [Hl Hr].
    by rewrite second_pass_key_LeftTangentWeight, second_pass_key_RightTangentWeight.
Qed.

Lemma default_weight_suppression_witness :
  ∃ fks final,
    for_each sample_records add_key [] = (fks, Ok tt)
    ∧ (∀ c, deserialize_curve sample_records c = (final, Ok tt))
    ∧ ∀ j kd k0 k,
        sample_records !! j = Some kd → fks !! j = Some k0 → final !! j = Some k →
        LeftTangentWeight k0 = default_tangent_weight
        ∧ RightTangentWeight k0 = default_tangent_weight
        ∧ LeftTangentWeight k
          = (if tangent_weight_is_default (kd_left_weight kd)
             then LeftTangentWeight k0 else kd_left_weight kd)
        ∧ RightTangentWeight k
          = (if tangent_weight_is_default (kd_right_weight kd)
             then RightTangentWeight k0 else kd_right_weight kd).
Proof.
  apply (default_weight_suppression sample_records); by_evaluation.
Defined.

(** C3, as stated, fails at the left end of the band: 0.3333 lies in
    [[0.3333, 0.3334)] but does not pass the default-weight test, and a stored
    left weight of exactly 0.3333 is written to the decoded key, which then
    differs from the host default weight. *)
Lemma default_band_left_endpoint :
  spec_default_band 0.3333%float = true
  ∧ tangent_weight_is_default 0.3333%float = false
  ∧ ∃ k, deserialize_curve endpoint_records [] = ([k], Ok tt)
         ∧ LeftTangentWeight k = 0.3333%float
         ∧ PrimFloat.eqb (LeftTangentWeight k) default_tangent_weight = false.
Proof.
  split_and!; [by vm_compute..|].
  eexists. split_and!; [by vm_compute|by vm_compute..].
Qed.

(** C4. Tangent downgrade: when the dictionaries decode (known enumeration
    values, pairwise distinct times), every dictionary has its key in the
    decoded curve, at its time, and the tangent mode of any key at that time
    is Break where the stored mode is TCB, so never TCB, and the stored mode
    itself in every other case. *)
Theorem tangent_mode_downgrade (recs : list key_data) :
  Forall known_enums recs →
  NoDup (kd_time <$> recs) →
  ∃ final,
    (∀ c, deserialize_curve recs c = (final, Ok tt))
    ∧ ∀ kd tm,
        kd ∈ recs →
        FBTangentMode_values (kd_tangent_mode kd) = Some tm →
        (∃ k, k ∈ final ∧ Time k = kd_time kd)
        ∧ ∀ k, k ∈ final → Time k = kd_time kd →
            TangentMode k ≠ kFBTangentModeTCB
            ∧ (tm = kFBTangentModeTCB → TangentMode k = kFBTangentModeBreak)
            ∧ (tm ≠ kFBTangentModeTCB → TangentMode k = tm).
Proof.
  intros Hen Hnd.
  destruct (deserialize_curve_distinct recs Hen Hnd)
    as (fks & Hrun & Hlen & Hrecs & Hfirst & Hdec).
  exists (zip_with second_pass_key recs fks). split; [done|].
  intros kd tm Hkd Htm. split.
  - destruct (Hrecs kd Hkd) as (k0 & Hk0 & Hfp).
    apply list_elem_of_lookup in Hk0 as [j Hj].
    destruct (lookup_lt_is_Some_2 recs j) as [kd' Hkd'].
    { rewrite <- Hlen. by eapply lookup_lt_Some. }
    exists (second_pass_key kd' k0). split.
    + apply list_elem_of_lookup. exists j.
      apply lookup_zip_with_Some. eauto.
    + rewrite second_pass_key_Time. by eapply first_pass_Time.
  - intros k Hk Htime.
    apply list_elem_of_lookup in Hk as [j Hj].
    apply lookup_zip_with_Some in Hj as (kd' & k0 & -> & Hkd' & Hk0).
    destruct (Hfirst k0) as (kd0 & Hkd0 & Hfp); [by eapply list_elem_of_lookup_2|].
    rewrite second_pass_key_Time, (first_pass_Time _ _ Hfp) in Htime.
    assert (kd0 = kd) as -> by (by eapply (NoDup_fmap_eq kd_time recs)).
    rewrite second_pass_key_TangentMode, (first_pass_TangentMode _ _ _ Hfp Htm).
    unfold remap_tangent_mode. destruct (decide (tm = kFBTangentModeTCB)); done.
Qed.

Lemma tangent_mode_downgrade_witness :
  ∃ final,
    (∀ c, deserialize_curve sample_records c = (final, Ok tt))
    ∧ ∀ kd tm,
        kd ∈ sample_records →
        FBTangentMode_values (kd_tangent_mode kd) = Some tm →
        (∃ k, k ∈ final ∧ Time k = kd_time kd)
        ∧ ∀ k, k ∈ final → Time k = kd_time kd →
            TangentMode k ≠ kFBTangentModeTCB
            ∧ (tm = kFBTangentModeTCB → TangentMode k = kFBTangentModeBreak)
            ∧ (tm ≠ kFBTangentModeTCB → TangentMode k = tm).
Proof.
  apply (tangent_mode_downgrade sample_records); by_evaluation.
Defined.

(** C5, as the code has it.  Decoding raises [KeyError], the lookup error of
    the enumeration's [values], whenever some stored interpolation, tangent
    mode or constant mode is outside its enumeration.  The order of the times
    is not checked: dictionaries with known enumeration values at pairwise
    distinct times decode without an exception, in whatever order they
    come. *)
Theorem deserialize_curve_failure (recs : list key_data) (c : list FBFCurveKey) :
  (¬ Forall known_enums recs → (deserialize_curve recs c).2 = Raise KeyError)
  ∧ (Forall known_enums recs → NoDup (kd_time <$> recs) →
     (deserialize_curve recs c).2 = Ok tt).
Proof.
  rewrite deserialize_curve_outcome. split.
  - intros Hun. by rewrite decide_False.
  - intros Hen Hnd. by rewrite !decide_True.
Qed.

Lemma deserialize_curve_failure_witness :
  (deserialize_curve bad_enum_records sample_curve).2 = Raise KeyError
  ∧ (deserialize_curve unordered_records sample_curve).2 = Ok tt.
Proof.
  split.
  - apply (deserialize_curve_failure bad_enum_records sample_curve).
    by_evaluation.
  - apply (deserialize_curve_failure unordered_records sample_curve);
      by_evaluation.
Defined.

(** C5, as stated, fails on input that is not time-ordered: two dictionaries
    with the later time first are decoded without any exception.  The second
    loop then assigns by position, so the key at time 0 receives the
    derivatives and weights stored for time 24. *)
Lemma unordered_records_accepted :
  ¬ increasing (kd_time <$> unordered_records)
  ∧ Forall known_enums unordered_records
  ∧ ∃ k0 k1,
      deserialize_curve unordered_records [] = ([k0; k1], Ok tt)
      ∧ Time k0 = 0%Z ∧ Time k1 = 24%Z
      ∧ LeftTangentWeight k0 = 0.5%float.
Proof.
  split_and!.
  - intros [Hlt _]. apply Forall_cons in Hlt as [Hlt _]. vm_compute in Hlt. done.
  - by_evaluation.
  - do 2 eexists. split_and!; by vm_compute.
Qed.

(** C9. Decode replaces the destination: the curve left by
    [deserialize_curve], and its outcome, are the same from any two prior
    states of the curve, they are those obtained from the empty curve, every
    key left is at the time of one of the dictionaries, and an empty list of
    dictionaries leaves the curve without keys. *)
Theorem deserialize_curve_replaces (recs : list key_data) (c1 c2 : list FBFCurveKey) :
  deserialize_curve recs c1 = deserialize_curve recs c2
  ∧ deserialize_curve recs c1 = deserialize_curve recs []
  ∧ (∀ k, k ∈ (deserialize_curve recs c1).1 → Time k ∈ kd_time <$> recs)
  ∧ deserialize_curve [] c1 = ([], Ok tt).
Proof.
  split_and!.
  - by rewrite !deserialize_curve_unfold.
  - by rewrite !deserialize_curve_unfold.
  - intros k. apply deserialize_curve_times.
  - done.
Qed.

(** ** Animation node hierarchies *)

Lemma FBAnimationNode_nested_ind (P : FBAnimationNode → Prop) :
  (∀ id c fc nodes, Forall P nodes → P (AnimNode id c fc nodes)) →
  ∀ n, P n.
Proof.
  intros Hnode. fix IH 1. intros [id c fc nodes]. apply Hnode.
  induction nodes as [|n nodes IHnodes]; constructor; [apply IH|exact IHnodes].
Qed.

Lemma subnodes_unfold id c fc nodes :
  subnodes (AnimNode id c fc nodes)
  = AnimNode id c fc nodes :: (nodes ≫= subnodes).
Proof.
  cbn [subnodes]. by f_equal.
Qed.

Lemma subnodes_self n : n ∈ subnodes n.
Proof. destruct n. rewrite subnodes_unfold. by left. Qed.

Lemma any_keys_unfold id c fc nodes :
  any_keys (AnimNode id c fc nodes) ↔ c ≠ 0%Z ∨ Exists any_keys nodes.
Proof.
  unfold any_keys. rewrite subnodes_unfold, Exists_cons. cbn [KeyCount].
  apply or_iff_compat_l.
  rewrite !Exists_exists. setoid_rewrite list_elem_of_bind.
  setoid_rewrite Exists_exists. naive_solver.
Qed.

(** [has_keys] finds a key exactly when some node below has a non-zero
    [KeyCount], or when it was called with [res] already true. *)
Lemma has_keys_spec n :
  ∀ res, has_keys n res = true ↔ any_keys n ∨ res = true.
Proof.
  induction n as [id c fc nodes IH] using FBAnimationNode_nested_ind.
  intros res. rewrite any_keys_unfold. cbn [has_keys].
  destruct (Z.eqb_spec c 0) as [->|Hc]; cbn [negb]; [|by intuition].
  transitivity (Exists any_keys nodes ∨ res = true); [|intuition].
  revert res. induction IH as [|n nodes Hn _ IHnodes]; intros res.
  - rewrite Exists_nil. intuition.
  - rewrite Exists_cons. cbn zeta.
    destruct res; cbn [orb]; [intuition|].
    destruct (has_keys n false) eqn:Hk.
    + apply Hn in Hk as [Hk|?]; [|done]. intuition.
    + rewrite IHnodes. split; [intuition|].
      intros [[Hany|?]|?]; [|by auto..].
      assert (has_keys n false = true) as Hk' by (apply Hn; by left).
      congruence.
Qed.

Lemma try_has_keys_animated comp :
  try_has_keys comp
  = match AnimationNode comp with
    | Some _ => Ok (bool_decide (animated comp))
    | None => Raise AttributeError
    end.
Proof.
  unfold try_has_keys.
  destruct (AnimationNode comp) as [root|] eqn:Hroot; [|done].
  assert (animated comp ↔ any_keys root) as Han.
  { unfold animated. by rewrite Hroot. }
  f_equal. destruct (has_keys root false) eqn:Hk.
  - symmetry. apply bool_decide_eq_true. apply Han.
    apply has_keys_spec in Hk as [?|?]; done.
  - symmetry. apply bool_decide_eq_false. intros Hany%Han.
    assert (has_keys root false = true) by (apply has_keys_spec; by left).
    congruence.
Qed.

Lemma get_animated_components_loop_filter components :
  ∀ acc, get_animated_components_loop components acc
         = Ok (acc ++ filter animated components).
Proof.
  induction components as [|comp rest IH]; intros acc; cbn [get_animated_components_loop].
  - by rewrite filter_nil, app_nil_r.
  - rewrite try_has_keys_animated, filter_cons.
    destruct (AnimationNode comp) as [root|] eqn:Hroot.
    + destruct (decide (animated comp)) as [Han|Han].
      * rewrite bool_decide_eq_true_2 by done. rewrite IH.
        by rewrite <- app_assoc.
      * rewrite bool_decide_eq_false_2 by done. by rewrite IH.
    + rewrite IH. rewrite decide_False; [done|].
      unfold animated. rewrite Hroot. tauto.
Qed.

(** C8. The scan never raises: it returns, in scene order, exactly the
    components whose animation node has a non-zero [KeyCount] somewhere in
    its hierarchy, which is when [has_keys] holds on the root; a component
    without an animation node is skipped. *)
Theorem get_animated_components_filter (components : list FBComponent) :
  get_animated_components components = Ok (filter animated components)
  ∧ (∀ comp, animated comp ↔
       ∃ root, AnimationNode comp = Some root ∧ has_keys root false = true)
  ∧ (∀ comp, AnimationNode comp = None →
       comp ∉ filter animated components).
Proof.
  split_and!.
  - apply (get_animated_components_loop_filter components []).
  - intros comp. unfold animated. destruct (AnimationNode comp) as [root|].
    + split.
      * intros Hany. exists root. split; [done|].
        apply has_keys_spec. by left.
      * intros (root' & [= <-] & Hk).
        apply has_keys_spec in Hk as [?|?]; done.
    + split; [done|]. by intros (? & ? & _).
  - intros comp Hnone [Han _]%list_elem_of_filter.
    unfold animated in Han. by rewrite Hnone in Han.
Qed.

Lemma fill_props_recursively_unfold id c fc nodes props :
  fill_props_recursively (AnimNode id c fc nodes) props
  = match fc with
    | Some [] => props
    | Some (k :: ks) => <[id := serialize_curve (k :: ks)]> props
    | None => fill_nodes nodes props
    end.
Proof.
  cbn [fill_props_recursively]. destruct fc as [[|k ks]|]; [done..|].
  unfold fill_nodes. revert props.
  induction nodes as [|n nodes IH]; intros props; [done|]. cbn [foldl]. apply IH.
Qed.

(** Whatever [fill_props_recursively] adds is the serialized non-empty curve
    of a node of the hierarchy. *)
Lemma fill_props_sound n :
  ∀ props i recs,
    fill_props_recursively n props !! i = Some recs →
    props !! i = Some recs
    ∨ ∃ m, m ∈ subnodes n ∧ node_id m = i ∧ keyed_curve m recs.
Proof.
  induction n as [id c fc nodes IH] using FBAnimationNode_nested_ind.
  intros props i recs. rewrite fill_props_recursively_unfold, subnodes_unfold.
  destruct fc as [[|k ks]|].
  - by left.
  - destruct (decide (id = i)) as [->|Hne].
    + rewrite lookup_insert_eq. intros [= <-]. right.
      exists (AnimNode i c (Some (k :: ks)) nodes). split_and!; [by left|done|].
      by exists (k :: ks).
    + rewrite lookup_insert_ne by done. by left.
  - intros Hi.
    assert (props !! i = Some recs
            ∨ ∃ m, m ∈ nodes ≫= subnodes ∧ node_id m = i ∧ keyed_curve m recs)
      as [?|(m & Hm & Hid & Hkc)]; [|by left|].
    { unfold fill_nodes in Hi. revert props Hi.
      induction IH as [|n nodes Hn _ IHnodes]; intros props; cbn [foldl]; [by left|].
      intros Hi. destruct (IHnodes _ Hi) as [Hi'|(m & Hm & Hid & Hkc)].
      + destruct (Hn _ _ _ Hi') as [?|(m & Hm & Hid & Hkc)]; [by left|].
        right. exists m. split_and!; [|done..].
        rewrite bind_cons, elem_of_app. by left.
      + right. exists m. split_and!; [|done..].
        rewrite bind_cons, elem_of_app. by right. }
    right. exists m. split_and!; [|done..]. by right.
Qed.

(** Entries of nodes outside the hierarchy are left alone. *)
Lemma fill_props_other n :
  ∀ props i,
    i ∉ node_id <$> subnodes n →
    fill_props_recursively n props !! i = props !! i.
Proof.
  induction n as [id c fc nodes IH] using FBAnimationNode_nested_ind.
  intros props i. rewrite fill_props_recursively_unfold, subnodes_unfold.
  rewrite fmap_cons, not_elem_of_cons. cbn [node_id]. intros [Hne Hnin].
  destruct fc as [[|k ks]|]; [done|by rewrite lookup_insert_ne|].
  unfold fill_nodes. revert props.
  induction IH as [|n nodes Hn _ IHnodes]; intros props; cbn [foldl]; [done|].
  rewrite bind_cons, fmap_app, not_elem_of_app in Hnin. destruct Hnin as [Hn1 Hn2].
  rewrite IHnodes by done. by apply Hn.
Qed.

Lemma fill_nodes_other nodes :
  ∀ props i,
    i ∉ node_id <$> (nodes ≫= subnodes) →
    fill_nodes nodes props !! i = props !! i.
Proof.
  unfold fill_nodes.
  induction nodes as [|n nodes IH]; intros props i Hnin; cbn [foldl]; [done|].
  rewrite bind_cons, fmap_app, not_elem_of_app in Hnin. destruct Hnin as [Hn1 Hn2].
  rewrite IH by done. by apply fill_props_other.
Qed.

Lemma fill_props_complete n :
  ∀ props m,
    curves_on_leaves n →
    NoDup (node_id <$> subnodes n) →
    m ∈ subnodes n →
    fill_props_recursively n props !! node_id m
    = entry_of m (props !! node_id m).
Proof.
  induction n as [id c fc nodes IH] using FBAnimationNode_nested_ind.
  intros props m Hleaf Hnd Hm.
  rewrite fill_props_recursively_unfold.
  unfold curves_on_leaves in Hleaf.
  rewrite subnodes_unfold in Hleaf, Hnd, Hm.
  apply Forall_cons in Hleaf as [Hroot Hleaf].
  rewrite fmap_cons in Hnd. apply NoDup_cons in Hnd as [Hid Hnd].
  cbn [FCurve Nodes node_id] in Hroot, Hid.
  apply elem_of_cons in Hm as [->|Hm].
  - unfold entry_of. cbn [FCurve node_id].
    destruct fc as [[|k ks]|]; [done|by rewrite lookup_insert_eq|].
    by apply fill_nodes_other.
  - destruct fc as [keys|].
    { rewrite (nil_length_inv nodes) in Hm by eauto. by apply elem_of_nil in Hm. }
    assert (node_id m ≠ id) as Hne.
    { intros <-. apply Hid. by apply list_elem_of_fmap_2. }
    clear Hroot Hid Hne. unfold fill_nodes. revert props.
    induction IH as [|n nodes Hn _ IHnodes]; intros props; cbn [foldl].
    { by apply elem_of_nil in Hm. }
    rewrite bind_cons in Hleaf, Hnd, Hm.
    apply Forall_app in Hleaf as [Hleaf1 Hleaf2].
    rewrite fmap_app in Hnd. apply NoDup_app in Hnd as (Hnd1 & Hdisj & Hnd2).
    apply elem_of_app in Hm as [Hm|Hm].
    + transitivity (fill_props_recursively n props !! node_id m).
      * apply (fill_nodes_other nodes). apply Hdisj.
        by apply list_elem_of_fmap_2.
      * by apply Hn.
    + rewrite (IHnodes Hleaf2 Hnd2 Hm). f_equal.
      apply fill_props_other. intros Hin. apply (Hdisj _ Hin).
      by apply list_elem_of_fmap_2.
Qed.

(** C7. Empty-curve omission.  In a hierarchy whose curves sit on leaves and
    whose nodes are distinct objects, a node is a key of the collected
    dictionary exactly when it owns a curve with at least one key, and its
    entry is that curve serialized; a node whose curve has no keys, or that
    owns no curve, is not a key, and every key is such a node. *)
Theorem get_serialized_fcurves_nonempty (component : FBComponent)
    (root : FBAnimationNode) :
  AnimationNode component = Some root →
  curves_on_leaves root →
  NoDup (node_id <$> subnodes root) →
  ∃ props,
    get_serialized_fcurves component = Ok props
    ∧ (∀ n recs, n ∈ subnodes root →
         props !! node_id n = Some recs ↔ keyed_curve n recs)
    ∧ (∀ n, n ∈ subnodes root →
         (FCurve n = None ∨ FCurve n = Some []) → props !! node_id n = None)
    ∧ (∀ i, i ∈ dom props →
         ∃ n recs, n ∈ subnodes root ∧ node_id n = i ∧ keyed_curve n recs).
Proof.
  intros Hroot Hleaf Hnd. exists (fill_props_recursively root ∅).
  unfold get_serialized_fcurves. rewrite Hroot. split_and!; [done| | |].
  - intros n recs Hn. rewrite (fill_props_complete root ∅ n Hleaf Hnd Hn).
    unfold entry_of, keyed_curve. rewrite lookup_empty.
    destruct (FCurve n) as [[|k ks]|]; split; try done.
    + by intros (keys & [= <-] & ? & _).
    + intros [= <-]. by exists (k :: ks).
    + by intros (keys & [= <-] & _ & ->).
    + by intros (keys & ? & _).
  - intros n Hn Hfc. rewrite (fill_props_complete root ∅ n Hleaf Hnd Hn).
    unfold entry_of. rewrite lookup_empty. by destruct Hfc as [-> | ->].
  - intros i [recs Hi]%elem_of_dom.
    apply fill_props_sound in Hi as [Hi|(m & Hm & Hid & Hkc)].
    + by rewrite lookup_empty in Hi.
    + by exists m, recs.
Qed.

Lemma get_serialized_fcurves_nonempty_witness :
  ∃ props,
    get_serialized_fcurves sample_component = Ok props
    ∧ (∀ n recs, n ∈ subnodes sample_root →
         props !! node_id n = Some recs ↔ keyed_curve n recs)
    ∧ (∀ n, n ∈ subnodes sample_root →
         (FCurve n = None ∨ FCurve n = Some []) → props !! node_id n = None)
    ∧ (∀ i, i ∈ dom props →
         ∃ n recs, n ∈ subnodes sample_root ∧ node_id n = i ∧ keyed_curve n recs).
Proof.
  apply (get_serialized_fcurves_nonempty sample_component sample_root);
    [reflexivity|by_evaluation..].
Defined.

(** ** Host calls on the scene *)

Section host_lemmas.

Implicit Types (st : host) (d : nat) (t : FBTake) (l : FBAnimationLayer).

Lemma put_lookup st d t :
  d < length (Takes st) → Takes (put d t st) !! d = Some t.
Proof. intros Hd. by apply list_lookup_insert_eq. Qed.

Lemma put_lookup_ne st d t i : d ≠ i → Takes (put d t st) !! i = Takes st !! i.
Proof. intros Hd. by apply list_lookup_insert_ne. Qed.

Lemma put_put st d t t' : put d t' (put d t st) = put d t' st.
Proof. unfold put, set_Takes. cbn. by rewrite list_insert_insert_eq. Qed.

Lemma put_length st d t : length (Takes (put d t st)) = length (Takes st).
Proof. apply length_insert. Qed.

Lemma put_id st d t : Takes st !! d = Some t → put d t st = st.
Proof.
  intros Ht. unfold put, set_Takes. rewrite list_insert_id by done. by destruct st.
Qed.

Lemma take_set_run st d t f :
  Takes st !! d = Some t → take_set d f st = (put d (f t) st, Ok tt).
Proof.
  intros Ht. unfold take_set, take_get, bind, modify, put. rewrite Ht.
  do 2 f_equal. apply list_eq. intros i.
  destruct (decide (i = d)) as [->|Hne].
  - rewrite list_lookup_alter_eq, Ht.
    by rewrite list_lookup_insert_eq by (by eapply lookup_lt_Some).
  - by rewrite list_lookup_alter_ne, list_lookup_insert_ne by done.
Qed.

Lemma take_set_put st d t t' f :
  d < length (Takes st) →
  take_set d f (put d t st) = (put d (f t) st, Ok tt).
Proof.
  intros Hd. rewrite (take_set_run _ _ t) by by apply put_lookup.
  by rewrite put_put.
Qed.

Lemma layer_get_run st ref l :
  get_layer st ref = Some l → layer_get ref st = (st, Ok l).
Proof. intros Hl. unfold layer_get. by rewrite Hl. Qed.

Lemma get_layer_put_same st d t i :
  d < length (Takes st) → get_layer (put d t st) (d, i) = Layers t !! i.
Proof. intros Hd. unfold get_layer. cbn [fst snd]. by rewrite put_lookup. Qed.

(** A layer that exists is still there, unchanged, after layers were put on
    top of the stack of take [d]. *)
Lemma get_layer_put_grow st d t t' ext ref l :
  Takes st !! d = Some t →
  Layers t' = Layers t ++ ext →
  get_layer st ref = Some l →
  get_layer (put d t' st) ref = Some l.
Proof.
  intros Ht Hext Hl. destruct ref as [ti li]. unfold get_layer in *.
  cbn [fst snd] in *. destruct (decide (d = ti)) as [->|Hne].
  - rewrite put_lookup by (by eapply lookup_lt_Some).
    rewrite Ht in Hl. cbn in Hl |- *. rewrite Hext.
    by apply lookup_app_l_Some.
  - by rewrite put_lookup_ne.
Qed.

Lemma layer_set_put st d t i l f :
  d < length (Takes st) →
  Layers t !! i = Some l →
  layer_set (d, i) f (put d t st)
  = (put d (set_Layers (<[i := f l]> (Layers t)) t) st, Ok tt).
Proof.
  intros Hd Hl. unfold layer_set. unfold bind at 1.
  rewrite (layer_get_run _ _ l) by (by rewrite get_layer_put_same).
  cbn [fst snd]. rewrite take_set_put by done. do 3 f_equal.
  apply list_eq. intros j. destruct (decide (j = i)) as [->|Hne].
  - rewrite list_lookup_alter_eq, Hl.
    by rewrite list_lookup_insert_eq by (by eapply lookup_lt_Some).
  - by rewrite list_lookup_alter_ne, list_lookup_insert_ne by done.
Qed.

Lemma delete_snoc {A} (l : list A) (x : A) : delete (length l) (l ++ [x]) = l.
Proof.
  induction l as [|y l IH]; [done|].
  change (y :: delete (length l) (l ++ [x]) = y :: l). by rewrite IH.
Qed.

Lemma layer_set_Name_put st d t i l wanted :
  d < length (Takes st) →
  Layers t !! i = Some l →
  layer_set_Name (d, i) wanted (put d t st)
  = (put d (set_Layers
              (<[i := set_Name (assigned_name (unique_name st)
                                  (Name <$> delete i (Layers t)) wanted) l]>
                 (Layers t)) t) st, Ok tt).
Proof.
  intros Hd Hl. unfold layer_set_Name. unfold bind at 1. unfold get at 1.
  rewrite (layer_set_put _ _ _ _ l) by done. do 6 f_equal.
  unfold host_name. cbn [fst snd]. by rewrite put_lookup.
Qed.

Lemma SelectLayer_put st d t i l :
  d < length (Takes st) →
  Layers t !! i = Some l →
  SelectLayer (d, i) (put d t st) = (put d (set_selected_layer i t) st, Ok tt).
Proof.
  intros Hd Hl. unfold SelectLayer. unfold bind at 1.
  rewrite (layer_get_run _ _ l) by (by rewrite get_layer_put_same).
  cbn [fst snd]. by rewrite take_set_put.
Qed.

Lemma set_layer_curves_id l : set_layer_curves (layer_curves l) l = l.
Proof. by destruct l. Qed.

(** Decoding into a channel, while the new layer on top of the current take
    is selected, changes the curves of that layer only. *)
Lemma deserialize_into_top st d t new id recs :
  CurrentTake st = d →
  d < length (Takes st) →
  deserialize_into id recs (with_top_layer d t new st)
  = if decide (id ∈ scene_curve_channels st) then
      (with_top_layer d t
         (set_layer_curves
            (<[id := (deserialize_curve recs []).1]> (layer_curves new)) new) st,
       (deserialize_curve recs []).2)
    else (with_top_layer d t new st, Raise AttributeError).
Proof.
  intros Hcur Hd. unfold deserialize_into.
  change (scene_curve_channels (with_top_layer d t new st))
    with (scene_curve_channels st).
  destruct (decide (id ∈ scene_curve_channels st)); [|done].
  rewrite (deserialize_curve_unfold recs (default [] _)).
  rewrite <- (deserialize_curve_unfold recs []).
  destruct (deserialize_curve recs []) as [keys o]. cbn [fst snd]. f_equal.
  unfold set_current_curve, with_top_layer.
  change (CurrentTake (put d _ st)) with (CurrentTake st). rewrite Hcur.
  unfold put at 1 3. unfold set_Takes. cbn [Takes CurrentTake Components].
  f_equal.
  apply list_eq. intros j. destruct (decide (j = d)) as [->|Hne].
  - rewrite list_lookup_alter_eq, !list_lookup_insert_eq by done.
    cbn. unfold set_Layers. cbn. by rewrite alter_snoc.
  - rewrite list_lookup_alter_ne, !list_lookup_insert_ne by done. done.
Qed.

(** The channel loop of the replay: it rewrites curves of the new layer and
    nothing else.  It completes when every channel resolves and decodes, and
    then each channel holds its decoded curve; a channel without curve in the
    scene raises [AttributeError] and ends the loop. *)
Lemma replay_channels st d t chs items :
  CurrentTake st = d →
  d < length (Takes st) →
  chs = scene_curve_channels st →
  ∀ new, ∃ m o,
    for_each items (λ item, deserialize_into item.1 item.2)
             (with_top_layer d t new st)
    = (with_top_layer d t (set_layer_curves m new) st, o)
    ∧ (Forall (λ item, item.1 ∈ chs ∧ decodable item.2) items → o = Ok tt)
    ∧ (Forall (λ item, decodable item.2) items →
       Exists (λ item, item.1 ∉ chs) items → o = Raise AttributeError)
    ∧ (∀ i, i ∉ items.*1 → m !! i = layer_curves new !! i)
    ∧ (o = Ok tt → NoDup items.*1 →
       ∀ id recs, (id, recs) ∈ items →
         m !! id = Some (deserialize_curve recs []).1).
Proof.
  intros Hcur Hd ->. induction items as [|[id recs] items IH]; intros new.
  - exists (layer_curves new), (Ok tt). rewrite set_layer_curves_id.
    split_and!; [done|done| |done|].
    + by intros _ ?%Exists_nil.
    + by intros _ _ id recs ?%elem_of_nil.
  - cbn [for_each fst snd]. unfold bind at 1.
    rewrite deserialize_into_top by done.
    destruct (decide (id ∈ scene_curve_channels st)) as [Hin|Hnin].
    + destruct (deserialize_curve recs []) as [keys o] eqn:Hrun. cbn [fst snd].
      destruct o as [[]|e].
      * destruct (IH (set_layer_curves (<[id:=keys]> (layer_curves new)) new))
          as (m & o & -> & Hok & Hraise & Hframe & Hwritten).
        exists m, o. split_and!; [done| | | |].
        -- intros [_ Hall]%Forall_cons. by apply Hok.
        -- intros [_ Hall]%Forall_cons [?|Hex]%Exists_cons; [done|].
           by apply Hraise.
        -- rewrite fmap_cons. intros i [Hne Hi]%not_elem_of_cons.
           rewrite Hframe by done. cbn [layer_curves set_layer_curves].
           by rewrite lookup_insert_ne.
        -- rewrite fmap_cons.
           intros Ho [Hnin Hnd]%NoDup_cons id' recs' [Heq|Hel]%elem_of_cons.
           ++ injection Heq as -> ->. rewrite Hframe by done.
              cbn [layer_curves set_layer_curves].
              by rewrite lookup_insert_eq, Hrun.
           ++ by apply Hwritten.
      * exists (<[id:=keys]> (layer_curves new)), (Raise e).
        split_and!; [done| | | |done].
        -- intros [[_ [Hen Hinc]] _]%Forall_cons. cbn [fst snd] in *.
           destruct (deserialize_curve_increasing recs Hen Hinc) as (ks & _ & Hks).
           rewrite Hks in Hrun. congruence.
        -- intros [[Hen Hinc] _]%Forall_cons. cbn [fst snd] in *.
           destruct (deserialize_curve_increasing recs Hen Hinc) as (ks & _ & Hks).
           rewrite Hks in Hrun. congruence.
        -- rewrite fmap_cons. intros i [Hne Hi]%not_elem_of_cons.
           by rewrite lookup_insert_ne.
    + exists (layer_curves new), (Raise AttributeError).
      rewrite set_layer_curves_id. split_and!; [done| |done|done|done].
      intros [[Hin _] _]%Forall_cons. done.
Qed.

(** One replayed layer.  A new layer is put on top of the destination stack
    and selected; it carries the source layer's mode, rotation mode and
    weight, the name that the host stores when the source's name is assigned
    to it, every other attribute as the host created it, and the curves
    decoded into it.  The takes and layers that existed are as they were.
    This holds whether or not a channel raises.  When every channel of the
    payload resolves and decodes, the replay completes and each channel holds
    its decoded curve; when the dictionaries decode but some channel has no
    curve in the scene, the replay raises [AttributeError]. *)
Lemma replay_layer_run st d t lm src :
  CurrentTake st = d →
  Takes st !! d = Some t →
  get_layer st (lm_layer lm) = Some src →
  ∃ m o,
    replay_layer d lm st
    = (with_top_layer d t
         (set_layer_curves m (copy_attributes (replay_name st t src) src host_new_layer)) st, o)
    ∧ (resolvable (scene_curve_channels st) (lm_curves lm) →
       o = Ok tt
       ∧ ∀ id recs, lm_curves lm !! id = Some recs →
           m !! id = Some (deserialize_curve recs []).1)
    ∧ (map_Forall (λ _ recs, decodable recs) (lm_curves lm) →
       (∃ id, id ∈ dom (lm_curves lm) ∧ id ∉ scene_curve_channels st) →
       o = Raise AttributeError).
Proof.
  intros Hcur Ht Hsrc.
  assert (d < length (Takes st)) as Hd by (by eapply lookup_lt_Some).
  pose (L := Layers t).
  assert (∀ t', Layers t' = L ++ [host_new_layer] ∨
                (∃ x, Layers t' = L ++ [x]) →
                get_layer (put d t' st) (lm_layer lm) = Some src) as Hget.
  { intros t' [Hl|[x Hl]]; by eapply get_layer_put_grow. }
  unfold replay_layer. unfold bind at 1. unfold CreateNewLayer.
  rewrite (take_set_run _ _ t) by done.
  unfold bind at 1. unfold GetLayerCount. unfold bind at 1. unfold take_get.
  rewrite put_lookup by done. cbn [set_Layers Layers ret].
  rewrite length_app. cbn [length].
  replace (length (Layers t) + 1 - 1) with (length L) by (unfold L; lia).
  fold L.
  unfold bind at 1. rewrite (layer_get_run _ _ src) by (apply Hget; by left).
  unfold bind at 1. rewrite (layer_set_Name_put _ _ _ _ host_new_layer)
    by (done || apply lookup_snoc).
  cbn [set_Layers Layers selected_layer take_Name].
  rewrite delete_snoc, list_insert_alter, alter_snoc.
  change (assigned_name (unique_name st) (Name <$> L) (Name src))
    with (replay_name st t src).
  unfold bind at 1. rewrite (layer_get_run _ _ src) by (apply Hget; right; eauto).
  unfold bind at 1. rewrite (layer_set_put _ _ _ _ (set_Name (replay_name st t src) host_new_layer))
    by (done || apply lookup_snoc).
  cbn [set_Layers Layers selected_layer take_Name].
  rewrite list_insert_alter, alter_snoc.
  unfold bind at 1. rewrite (layer_get_run _ _ src) by (apply Hget; right; eauto).
  unfold bind at 1.
  rewrite (layer_set_put _ _ _ _
             (set_LayerMode (LayerMode src) (set_Name (replay_name st t src) host_new_layer)))
    by (done || apply lookup_snoc).
  cbn [set_Layers Layers selected_layer take_Name].
  rewrite list_insert_alter, alter_snoc.
  unfold bind at 1. rewrite (layer_get_run _ _ src) by (apply Hget; right; eauto).
  unfold bind at 1.
  rewrite (layer_set_put _ _ _ _
             (set_LayerRotationMode (LayerRotationMode src)
                (set_LayerMode (LayerMode src) (set_Name (replay_name st t src) host_new_layer))))
    by (done || apply lookup_snoc).
  cbn [set_Layers Layers selected_layer take_Name].
  rewrite list_insert_alter, alter_snoc.
  fold (copy_attributes (replay_name st t src) src host_new_layer).
  unfold bind at 1.
  rewrite (SelectLayer_put _ _ _ _ (copy_attributes (replay_name st t src) src host_new_layer))
    by (done || apply lookup_snoc).
  cbn [set_selected_layer Layers take_Name].
  destruct (replay_channels st d t (scene_curve_channels st)
              (map_to_list (lm_curves lm)) Hcur Hd eq_refl
              (copy_attributes (replay_name st t src) src host_new_layer))
    as (m & o & Hrun & Hok & Hraise & _ & Hwritten).
  exists m, o. split_and!; [exact Hrun| |].
  - intros Hres.
    assert (o = Ok tt) as Ho.
    { apply Hok. apply map_Forall_to_list in Hres.
      eapply Forall_impl; [exact Hres|]. by intros [id recs]. }
    split; [done|]. intros id recs Hlook.
    apply Hwritten; [done|apply NoDup_fst_map_to_list|].
    by apply elem_of_map_to_list.
  - intros Hdec (id & [recs Hid]%elem_of_dom & Hnin). apply Hraise.
    + apply map_Forall_to_list in Hdec.
      eapply Forall_impl; [exact Hdec|]. by intros [id' recs'].
    + apply Exists_exists. exists (id, recs). split; [|done].
      by apply elem_of_map_to_list.
Qed.

(** *** Collecting from the scene *)

Lemma channel_nested_ind (P : channel → Prop) :
  (∀ id owns subs, Forall P subs → P (Channel id owns subs)) →
  ∀ ch, P ch.
Proof.
  intros Hch. fix IH 1. intros [id owns subs]. apply Hch.
  induction subs as [|c subs IHsubs]; constructor; [apply IH|exact IHsubs].
Qed.

(** A node of the scene that has a curve is a channel that owns one, and the
    curve is the one the layer holds for it. *)
Lemma animation_node_curve curves ch :
  ∀ m keys,
    m ∈ subnodes (animation_node curves ch) →
    FCurve m = Some keys →
    node_id m ∈ curve_channels ch ∧ keys = default [] (curves !! node_id m).
Proof.
  induction ch as [id owns subs IH] using channel_nested_ind.
  intros m keys. cbn [animation_node curve_channels].
  rewrite subnodes_unfold, elem_of_cons, elem_of_app.
  intros [->|Hm] Hfc.
  - cbn [FCurve node_id] in *. destruct owns; [|done].
    injection Hfc as <-. split; [|done]. left. by left.
  - apply list_elem_of_bind in Hm as (n & Hm & Hn).
    apply list_elem_of_fmap in Hn as (c & -> & Hc).
    eapply Forall_forall in IH; [|exact Hc].
    destruct (IH m keys Hm Hfc) as [Hin Hkeys]. split; [|done].
    right. apply list_elem_of_bind. eauto.
Qed.

Lemma serialize_curve_decodable keys :
  increasing (Time <$> keys) → decodable (serialize_curve keys).
Proof.
  intros Hinc. rewrite serialize_curve_map. split.
  - apply Forall_fmap, Forall_forall. intros k _. apply known_enums_serialize_key.
  - by rewrite <- list_fmap_compose.
Qed.

Lemma get_serialized_fcurves_resolvable curves root props :
  map_Forall (λ _ keys, increasing (Time <$> keys)) curves →
  get_serialized_fcurves (mkComponent (animation_node curves <$> root)) = Ok props →
  resolvable (from_option curve_channels [] root) props.
Proof.
  intros Hwf. unfold get_serialized_fcurves. cbn [AnimationNode].
  destruct root as [ch|]; [|done]. cbn. intros [= <-] i recs Hi.
  apply fill_props_sound in Hi as [Hi|(m & Hm & <- & keys & Hfc & Hne & ->)].
  { by rewrite lookup_empty in Hi. }
  destruct (animation_node_curve _ _ _ _ Hm Hfc) as [Hin Hkeys].
  split; [done|]. apply serialize_curve_decodable.
  destruct (curves !! node_id m) as [keys'|] eqn:Hlook; cbn in Hkeys; subst keys.
  - by apply (Hwf _ _ Hlook).
  - done.
Qed.

Lemma update_curves_resolvable st components :
  map_Forall (λ _ keys, increasing (Time <$> keys)) (current_curves st) →
  Forall (λ comp, comp ∈ Scene_Components st ∧ animated comp) components →
  ∀ acc, resolvable (scene_curve_channels st) acc →
    ∃ m, update_curves components acc = Ok m
         ∧ resolvable (scene_curve_channels st) m.
Proof.
  intros Hwf. induction 1 as [|comp comps [Hin Han] _ IH]; intros acc Hacc.
  - by exists acc.
  - cbn [update_curves].
    apply list_elem_of_fmap in Hin as (root & -> & Hroot).
    destruct (get_serialized_fcurves _) as [props|e] eqn:Hget.
    + apply IH. intros i recs [Hi|[_ Hi]]%lookup_union_Some_raw; [|by apply Hacc].
      destruct (get_serialized_fcurves_resolvable _ _ _ Hwf Hget _ _ Hi) as [Hch Hdec].
      split; [|done]. unfold scene_curve_channels.
      apply list_elem_of_bind. eauto.
    + unfold animated, get_serialized_fcurves in *. cbn [AnimationNode] in *.
      by destruct root.
Qed.

Lemma collected_resolvable st :
  map_Forall (λ _ keys, increasing (Time <$> keys)) (current_curves st) →
  ∃ m, collected st = Ok m ∧ resolvable (scene_curve_channels st) m.
Proof.
  intros Hwf. unfold collected.
  unfold get_animated_components.
  rewrite get_animated_components_loop_filter. cbn [app].
  apply update_curves_resolvable; [done| |apply map_Forall_empty].
  apply Forall_forall. intros comp [Han Hin]%list_elem_of_filter. done.
Qed.

Lemma collect_layers_checked ref rest acc st st' m :
  SelectLayer ref st = (st', Ok tt) →
  collected st' = Ok m →
  collect_layers (mkLayerNode true ref :: rest) acc st
  = collect_layers rest (acc ++ [mkLayerMap ref m]) st'.
Proof.
  intros Hsel Hcol. cbn [collect_layers layer_Checked layer_data].
  unfold bind at 1. rewrite Hsel. unfold bind at 1. unfold get at 1.
  unfold collected in Hcol. unfold bind at 1, lift at 1.
  destruct (get_animated_components _) as [components|]; [|done].
  unfold bind at 1, lift at 1. by rewrite Hcol.
Qed.

Lemma collect_layers_unchecked ref rest acc st :
  collect_layers (mkLayerNode false ref :: rest) acc st
  = collect_layers rest acc st.
Proof. done. Qed.

End host_lemmas.

(** ** The transfer *)



(** The loop [for layer_map in layers_data] on a destination take: each
    entry puts one layer on top of the stack, a replay of its source layer;
    the loop stops after the layer whose channels raise. *)
Lemma replay_layers_run d lms :
  ∀ st t srcs,
    CurrentTake st = d →
    Takes st !! d = Some t →
    Forall2 (λ lm src, get_layer st (lm_layer lm) = Some src) lms srcs →
    ∃ created sel o,
      for_each lms (replay_layer d) st
      = (put d (mkTake (take_Name t) (Layers t ++ created) sel) st, o)
      ∧ Forall2 replayed (take (length created) srcs) created
      ∧ host_named (unique_name st) (Name <$> Layers t)
                   (take (length created) srcs) created
      ∧ (o = Ok tt → length created = length lms).
Proof.
  induction lms as [|lm lms IH]; intros st t srcs Hcur Ht Hsrcs.
  - exists [], (selected_layer t), (Ok tt).
    split_and!; [|constructor|by rewrite take_0|done].
    rewrite app_nil_r, put_id; [done|]. by destruct t.
  - apply Forall2_cons_inv_l in Hsrcs as (src & srcs' & Hsrc & Hsrcs & ->).
    destruct (replay_layer_run st d t lm src Hcur Ht Hsrc) as (m & o1 & Hrun & _).
    set (new := set_layer_curves m (copy_attributes (replay_name st t src) src host_new_layer)) in *.
    assert (replayed src new) as Hnew by done.
    cbn [for_each]. unfold bind at 1. rewrite Hrun.
    destruct o1 as [[]|e].
    + pose (t1 := mkTake (take_Name t) (Layers t ++ [new]) (length (Layers t))).
      destruct (IH (with_top_layer d t new st) t1 srcs')
        as (created & sel & o & Hrun' & Hall & Hnames & Hlen).
      * done.
      * apply put_lookup. by eapply lookup_lt_Some.
      * eapply Forall2_impl; [exact Hsrcs|]. intros lm' src' Hget.
        by eapply (get_layer_put_grow _ _ t t1 [new]).
      * exists (new :: created), sel, o. split_and!.
        -- rewrite Hrun'. unfold with_top_layer. rewrite put_put.
           cbn [take_Name Layers t1]. by rewrite <- app_assoc.
        -- cbn [length take]. by constructor.
        -- cbn [length take host_named]. split; [done|].
           cbn [Layers t1] in Hnames. by rewrite fmap_app in Hnames.
        -- intros Ho. cbn [length]. by rewrite Hlen.
    + exists [new], (length (Layers t)), (Raise e). split_and!; [done| | |done].
      * cbn [length take]. rewrite take_0. by repeat constructor.
      * cbn [length take]. rewrite take_0. by cbn.
Qed.

(** C10. Mute state is not transferred.  Whatever the payload and the scene,
    the layers that the replay loop adds to the destination take go on top of
    the layers that were there; each has the layer mode, rotation mode and
    weight of its source layer and the mute flag that the host gives a new
    layer, whatever the mute flag of the source layer is.  The name of the
    source layer is assigned to it: the host stores that name, unless a
    layer below it on the stack has it already; then it stores the name that
    its uniqueness policy gives. *)
Theorem replay_keeps_host_mute (d : nat) (lms : list layer_map) (st : host)
    (t : FBTake) (srcs : list FBAnimationLayer) :
  CurrentTake st = d →
  Takes st !! d = Some t →
  Forall2 (λ lm src, get_layer st (lm_layer lm) = Some src) lms srcs →
  ∃ created sel o,
    for_each lms (replay_layer d) st
    = (put d (mkTake (take_Name t) (Layers t ++ created) sel) st, o)
    ∧ Forall2 replayed (take (length created) srcs) created
    ∧ host_named (unique_name st) (Name <$> Layers t)
                 (take (length created) srcs) created
    ∧ Forall (λ new, Mute new = false) created
    ∧ (o = Ok tt → length created = length lms).
Proof.
  intros Hcur Ht Hsrcs.
  destruct (replay_layers_run d lms st t srcs Hcur Ht Hsrcs)
    as (created & sel & o & Hrun & Hall & Hnames & Hlen).
  exists created, sel, o. split_and!; [done..| |done].
  clear Hrun Hnames Hlen.
  induction Hall as [|src new ? ? Hnew _ IH]; constructor; [|done].
  by destruct Hnew as (_ & _ & _ & ->).
Qed.

Lemma replay_keeps_host_mute_witness :
  Mute sample_walk = true
  ∧ ∃ created sel o,
      for_each sample_payload (replay_layer 1) sample_host_dst
      = (put 1 (mkTake "T2" ([sample_base2] ++ created) sel) sample_host_dst, o)
      ∧ Forall2 replayed (take (length created) [sample_walk; sample_wave]) created
      ∧ host_named sample_unique_name [Name sample_base2]
                   (take (length created) [sample_walk; sample_wave]) created
      ∧ Forall (λ new, Mute new = false) created
      ∧ (o = Ok tt → length created = length sample_payload).
Proof.
  split; [done|].
  apply (replay_keeps_host_mute 1 sample_payload sample_host_dst
           (mkTake "T2" [sample_base2] 0) [sample_walk; sample_wave]).
  - reflexivity.
  - reflexivity.
  - by repeat constructor.
Defined.

(** * Further properties *)

(** ** The codec beyond supported curves *)

Lemma decoded_serialize_key_normalized k :
  decoded_key (serialize_key k) = Some (normalized_key k).
Proof.
  unfold decoded_key, first_pass. cbn [serialize_key kd_interpolation
    kd_tangent_mode kd_constant_mode].
  rewrite values_int_FBInterpolation, values_int_FBTangentMode,
    values_int_FBTangentConstantMode.
  cbn [mbind option_bind fmap option_fmap option_map].
  unfold second_pass_key, first_pass_key, normalized_key.
  cbn [serialize_key kd_left_weight kd_right_weight].
  by destruct (tangent_weight_is_default (LeftTangentWeight k)),
    (tangent_weight_is_default (RightTangentWeight k)).
Qed.

Lemma deserialize_serialize_normalized src dst :
  increasing (Time <$> src) →
  deserialize_curve (serialize_curve src) dst = (normalized_key <$> src, Ok tt).
Proof.
  intros Hinc. rewrite serialize_curve_map.
  destruct (deserialize_curve_increasing (serialize_key <$> src)) as (ks & Hks & ->).
  - apply Forall_fmap, Forall_forall. intros k _. apply known_enums_serialize_key.
  - by rewrite <- list_fmap_compose.
  - f_equal. apply Forall2_fmap_l in Hks. clear Hinc.
    induction Hks as [|k k' src ks Hk _ IH]; [done|].
    unfold compose in Hk. rewrite decoded_serialize_key_normalized in Hk.
    injection Hk as <-. rewrite fmap_cons. by f_equal.
Qed.

Lemma normalized_key_idemp k : normalized_key (normalized_key k) = normalized_key k.
Proof.
  unfold normalized_key. cbn [Time Value Interpolation TangentMode
    TangentConstantMode LeftDerivative RightDerivative LeftTangentWeight
    RightTangentWeight].
  f_equal.
  - unfold remap_tangent_mode. by repeat case_decide.
  - destruct (tangent_weight_is_default (LeftTangentWeight k)) eqn:Hl.
    + by destruct (tangent_weight_is_default default_tangent_weight).
    + by rewrite Hl.
  - destruct (tangent_weight_is_default (RightTangentWeight k)) eqn:Hr.
    + by destruct (tangent_weight_is_default default_tangent_weight).
    + by rewrite Hr.
Qed.

Lemma normalized_key_Time k : Time (normalized_key k) = Time k.
Proof. done. Qed.

(** X1. Round trip of any host curve: decoding the encoding of a curve with
    increasing key times never raises and leaves one key per source key, in
    order, equal to the source key except that a TCB tangent mode is Break
    and a weight passing the default test is the weight a new key has. *)
Theorem roundtrip_normalizes (src dst : list FBFCurveKey) :
  increasing (Time <$> src) →
  deserialize_curve (serialize_curve src) dst = (normalized_key <$> src, Ok tt)
  ∧ length (normalized_key <$> src) = length src
  ∧ Forall2 (λ k k',
       Time k' = Time k ∧ Value k' = Value k
       ∧ Interpolation k' = Interpolation k
       ∧ TangentConstantMode k' = TangentConstantMode k
       ∧ LeftDerivative k' = LeftDerivative k
       ∧ RightDerivative k' = RightDerivative k
       ∧ TangentMode k' ≠ kFBTangentModeTCB)
      src (normalized_key <$> src).
Proof.
  intros Hinc. split_and!.
  - by apply deserialize_serialize_normalized.
  - apply length_fmap.
  - apply Forall2_fmap_r, Forall_Forall2_diag, Forall_forall.
    intros k _. split_and!; try done.
    cbn. unfold remap_tangent_mode. by case_decide.
Qed.

Lemma roundtrip_normalizes_witness :
  deserialize_curve (serialize_curve tcb_curve) sample_curve
  = (normalized_key <$> tcb_curve, Ok tt)
  ∧ length (normalized_key <$> tcb_curve) = length tcb_curve
  ∧ Forall2 (λ k k',
       Time k' = Time k ∧ Value k' = Value k
       ∧ Interpolation k' = Interpolation k
       ∧ TangentConstantMode k' = TangentConstantMode k
       ∧ LeftDerivative k' = LeftDerivative k
       ∧ RightDerivative k' = RightDerivative k
       ∧ TangentMode k' ≠ kFBTangentModeTCB)
      tcb_curve (normalized_key <$> tcb_curve).
Proof. apply (roundtrip_normalizes tcb_curve sample_curve). by_evaluation. Defined.

(** X2. The round trip loses information once only: a curve that a decode
    of encoded keys has produced is reproduced exactly by every further
    encode and decode, also where the first round trip changed tangent modes
    or weights. *)
Theorem second_roundtrip_exact (src dst dst' : list FBFCurveKey) :
  increasing (Time <$> src) →
  ∃ c, deserialize_curve (serialize_curve src) dst = (c, Ok tt)
       ∧ deserialize_curve (serialize_curve c) dst' = (c, Ok tt).
Proof.
  intros Hinc. exists (normalized_key <$> src). split.
  - by apply deserialize_serialize_normalized.
  - rewrite deserialize_serialize_normalized.
    + f_equal. rewrite <- list_fmap_compose. apply list_fmap_ext.
      intros i k _. apply normalized_key_idemp.
    + by rewrite <- list_fmap_compose.
Qed.

Lemma second_roundtrip_exact_witness :
  ∃ c, deserialize_curve (serialize_curve tcb_curve) [] = (c, Ok tt)
       ∧ deserialize_curve (serialize_curve c) sample_curve = (c, Ok tt).
Proof. apply (second_roundtrip_exact tcb_curve [] sample_curve). by_evaluation. Defined.

Lemma int_values_FBInterpolation n e :
  FBInterpolation_values n = Some e → int_FBInterpolation e = n.
Proof.
  destruct n as [|p|p]; [| |done].
  - by intros [= <-].
  - do 3 (try destruct p as [p|p|]; try done); by intros [= <-].
Qed.

Lemma int_values_FBTangentMode n e :
  FBTangentMode_values n = Some e → int_FBTangentMode e = n.
Proof.
  destruct n as [|p|p]; [| |done].
  - by intros [= <-].
  - do 4 (try destruct p as [p|p|]; try done); by intros [= <-].
Qed.

Lemma int_values_FBTangentConstantMode n e :
  FBTangentConstantMode_values n = Some e → int_FBTangentConstantMode e = n.
Proof.
  destruct n as [|p|p]; [| |done].
  - by intros [= <-].
  - do 2 (try destruct p as [p|p|]; try done); by intros [= <-].
Qed.

Lemma serialize_decoded_key kd k :
  kept_verbatim kd → decoded_key kd = Some k → serialize_key k = kd.
Proof.
  intros (Htm & Hl & Hr). unfold decoded_key, first_pass.
  destruct (FBInterpolation_values _) as [i|] eqn:Hi; [|done].
  destruct (FBTangentMode_values _) as [tm|] eqn:Htmv; [|done].
  destruct (FBTangentConstantMode_values _) as [cm|] eqn:Hcm; [|done].
  cbn [mbind option_bind fmap option_fmap option_map]. intros [= <-].
  unfold second_pass_key, first_pass_key, remap_tangent_mode.
  rewrite Hl, Hr. rewrite decide_False by congruence.
  unfold serialize_key. cbn.
  rewrite (int_values_FBInterpolation _ _ Hi), (int_values_FBTangentMode _ _ Htmv),
    (int_values_FBTangentConstantMode _ _ Hcm).
  by destruct kd.
Qed.

(** X3. Encode after decode: dictionaries in time order with known
    enumeration values, no TCB tangent mode and no weight passing the default
    test are decoded without an exception, and encoding the decoded curve
    gives the same dictionaries back. *)
Theorem serialize_deserialize_roundtrip (recs : list key_data)
    (c : list FBFCurveKey) :
  Forall known_enums recs →
  increasing (kd_time <$> recs) →
  Forall kept_verbatim recs →
  ∃ keys, deserialize_curve recs c = (keys, Ok tt)
          ∧ serialize_curve keys = recs.
Proof.
  intros Hen Hinc Hkept.
  destruct (deserialize_curve_increasing recs Hen Hinc) as (ks & Hks & Hrun).
  exists ks. split; [done|]. rewrite serialize_curve_map. clear Hrun Hen Hinc.
  induction Hks as [|kd k recs ks Hk _ IH]; [done|].
  apply Forall_cons in Hkept as [Hkd Hkept].
  rewrite fmap_cons, (serialize_decoded_key kd k Hkd Hk). f_equal. by apply IH.
Qed.

Lemma serialize_deserialize_roundtrip_witness :
  ∃ keys, deserialize_curve (serialize_curve sample_curve) tcb_curve = (keys, Ok tt)
          ∧ serialize_curve keys = serialize_curve sample_curve.
Proof.
  apply (serialize_deserialize_roundtrip (serialize_curve sample_curve) tcb_curve);
    by_evaluation.
Defined.

Lemma zip_with_second_pass_times recs :
  ∀ fks, length fks = length recs →
    Time <$> zip_with second_pass_key recs fks = Time <$> fks.
Proof.
  induction recs as [|kd recs IH]; intros [|k fks] Hlen; try done.
  cbn [zip_with]. rewrite !fmap_cons, second_pass_key_Time. f_equal.
  apply IH. by injection Hlen.
Qed.

Lemma second_pass_key_derivatives kd k :
  LeftDerivative (second_pass_key kd k) = kd_left_derivative kd
  ∧ RightDerivative (second_pass_key kd k) = kd_right_derivative kd.
Proof.
  unfold second_pass_key.
  by destruct (tangent_weight_is_default _), (tangent_weight_is_default _).
Qed.

(** X4. Input that is not in time order.  Dictionaries with known
    enumeration values at pairwise distinct times, in any order, are decoded
    without an exception into as many keys, which are in time order; but the
    second loop goes by position: the key at position [j] of the curve gets
    the derivatives stored in the dictionary at position [j] of the input,
    whatever the time of that dictionary. *)
Theorem unordered_input_by_position (recs : list key_data) :
  Forall known_enums recs →
  NoDup (kd_time <$> recs) →
  ∃ final,
    (∀ c, deserialize_curve recs c = (final, Ok tt))
    ∧ length final = length recs
    ∧ increasing (Time <$> final)
    ∧ Time <$> final ≡ₚ kd_time <$> recs
    ∧ ∀ j kd k, recs !! j = Some kd → final !! j = Some k →
        LeftDerivative k = kd_left_derivative kd
        ∧ RightDerivative k = kd_right_derivative kd.
Proof.
  intros Hen Hnd.
  destruct (deserialize_curve_distinct recs Hen Hnd)
    as (fks & Hrun & Hlen & Hrecs & Hfirst & Hdec).
  destruct (first_loop_times recs [] Hen) as (fks' & Hrun' & Htimes).
  rewrite Hrun in Hrun'. injection Hrun' as <-.
  destruct (insert_times_length (kd_time <$> recs) [] I) as (Hinc & _ & _).
  cbn zeta in Hinc. rewrite fmap_nil in Htimes. rewrite <- Htimes in Hinc.
  exists (zip_with second_pass_key recs fks).
  rewrite zip_with_second_pass_times by done.
  split_and!; [done| |done| |].
  - rewrite length_zip_with. lia.
  - apply NoDup_Permutation; [by apply increasing_NoDup|done|].
    intros t. rewrite !list_elem_of_fmap. split.
    + intros (k & -> & Hk). destruct (Hfirst k Hk) as (kd & Hkd & Hfp).
      exists kd. split; [|done]. by apply first_pass_Time.
    + intros (kd & -> & Hkd). destruct (Hrecs kd Hkd) as (k & Hk & Hfp).
      exists k. split; [|done]. symmetry. by apply first_pass_Time.
  - intros j kd k Hkd Hk.
    apply lookup_zip_with_Some in Hk as (kd' & k0 & -> & Hkd' & Hk0).
    rewrite Hkd in Hkd'. injection Hkd' as <-.
    apply second_pass_key_derivatives.
Qed.

Lemma unordered_input_by_position_witness :
  ∃ final,
    (∀ c, deserialize_curve unordered_records c = (final, Ok tt))
    ∧ length final = length unordered_records
    ∧ increasing (Time <$> final)
    ∧ Time <$> final ≡ₚ kd_time <$> unordered_records
    ∧ ∀ j kd k, unordered_records !! j = Some kd → final !! j = Some k →
        LeftDerivative k = kd_left_derivative kd
        ∧ RightDerivative k = kd_right_derivative kd.
Proof. apply (unordered_input_by_position unordered_records); by_evaluation. Defined.

Lemma for_each_app {S A} (l1 l2 : list A) (body : A → M S unit) (s : S) :
  for_each (l1 ++ l2) body s
  = match for_each l1 body s with
    | (s', Ok _) => for_each l2 body s'
    | (s', Raise e) => (s', Raise e)
    end.
Proof.
  revert s. induction l1 as [|x l1 IH]; intros s; [done|].
  cbn [app for_each]. unfold bind.
  destruct (body x s) as [s' [[]|e]]; [apply IH|done].
Qed.

(** [add_key] after the last key, with an enumeration value outside its
    [values]: the key is already on the curve when [KeyError] is raised. *)
Lemma add_key_unknown_after kd keys :
  Forall (λ k, (Time k < kd_time kd)%Z) keys →
  ¬ known_enums kd →
  ∃ k, add_key kd keys = (keys ++ [k], Raise KeyError)
       ∧ Time k = kd_time kd ∧ Value k = kd_value kd.
Proof.
  intros Hlt Hun.
  unfold add_key, bind, KeyAdd, Keys_getitem, Keys_setattr, getitem, modify,
    ret, raise.
  rewrite (insert_key_after _ _ _ Hlt), lookup_snoc.
  destruct (FBInterpolation_values _) as [i|] eqn:Hi; [|by eexists].
  rewrite alter_snoc.
  destruct (FBTangentMode_values _) as [tm|] eqn:Htm; [|by eexists].
  rewrite alter_snoc, lookup_snoc.
  destruct (FBTangentConstantMode_values _) as [cm|] eqn:Hcm.
  { destruct Hun. unfold known_enums. rewrite Hi, Htm, Hcm. eauto. }
  destruct (decide _); rewrite ?alter_snoc; by eexists.
Qed.

(** X5. No rollback.  When the dictionaries are in time order and the first
    one with an enumeration value outside its range comes after [good], the
    decode raises [KeyError] and leaves a partial curve: the prior keys are
    gone, the keys of [good] are there as the first loop makes them, and so
    is a key at the time and value of the failing dictionary; the second
    loop has not run, so no derivative or weight is set, and the
    dictionaries after the failing one add nothing. *)
Theorem decode_failure_leaves_partial_curve (good rest : list key_data)
    (bad : key_data) (c : list FBFCurveKey) :
  Forall known_enums good →
  increasing (kd_time <$> good ++ [bad]) →
  ¬ known_enums bad →
  ∃ fks k,
    deserialize_curve (good ++ bad :: rest) c = (fks ++ [k], Raise KeyError)
    ∧ Forall2 (λ kd k, first_pass kd = Some k) good fks
    ∧ Time k = kd_time bad ∧ Value k = kd_value bad.
Proof.
  intros Hen Hinc Hbad.
  assert (increasing (kd_time <$> good)
          ∧ Forall (λ kd, (kd_time kd < kd_time bad)%Z) good) as [Hgood Hlt].
  { clear Hen. induction good as [|kd good IH]; [by split; [|constructor]|].
    cbn [app] in Hinc. rewrite !fmap_cons in Hinc. destruct Hinc as [Hhd Hinc].
    destruct (IH Hinc) as [IH1 IH2]. rewrite fmap_cons. split.
    - split; [|done]. rewrite fmap_app in Hhd. by apply Forall_app in Hhd as [? _].
    - constructor; [|done]. rewrite fmap_app in Hhd.
      apply Forall_app in Hhd as [_ Hb]. by inversion Hb. }
  destruct (first_loop_increasing good [] Hen Hgood) as (fks & Hfks & Hrun);
    [constructor|].
  destruct (add_key_unknown_after bad fks) as (k & Hk & Htime & Hval); [|done|].
  { clear Hrun Hen Hgood Hinc.
    induction Hfks as [|kd k' good fks Hfp _ IH]; [constructor|].
    apply Forall_cons in Hlt as [Hkd Hlt]. constructor; [|by apply IH].
    by rewrite (first_pass_Time _ _ Hfp). }
  exists fks, k. split_and!; [|done..].
  rewrite deserialize_curve_unfold, for_each_app, Hrun. cbn [app for_each].
  unfold bind at 1. by rewrite Hk.
Qed.

Lemma decode_failure_leaves_partial_curve_witness :
  ∃ fks k,
    deserialize_curve partly_bad_records sample_curve
    = (fks ++ [k], Raise KeyError)
    ∧ Forall2 (λ kd k, first_pass kd = Some k) sample_records fks
    ∧ Time k = 48%Z ∧ Value k = 3%float.
Proof.
  apply (decode_failure_leaves_partial_curve sample_records
           [serialize_key (sample_key 72 10%float kFBTangentModeBreak 0.5%float)]
           (mkKeyData 48 3%float 7 3 0 0%float 0%float 0.5%float 0.5%float)
           sample_curve); by_evaluation.
Defined.

(** ** The scan and the collector together *)

(** X6. The [res] argument of [has_keys] only matters when no key is found:
    the result is the result of the plain call, or [res]; in particular a
    call with [res] true is true on every node, and the recursion, which
    passes no [res], is not affected by it. *)
Theorem has_keys_res (anim_node : FBAnimationNode) (res : bool) :
  has_keys anim_node res = has_keys anim_node false || res.
Proof.
  apply eq_true_iff_eq. rewrite orb_true_iff, !has_keys_spec.
  intuition congruence.
Qed.

(** X7. The scan loses nothing that the collector would find: for a
    component that the scan does not return, whose [KeyCount]s agree with
    its curves, the collector returns the empty dictionary. *)
Theorem unanimated_component_collects_nothing (component : FBComponent)
    (root : FBAnimationNode) :
  AnimationNode component = Some root →
  key_counts_agree root →
  ¬ animated component →
  get_animated_components [component] = Ok []
  ∧ get_serialized_fcurves component = Ok ∅.
Proof.
  intros Hroot Hagree Hnot. split.
  - unfold get_animated_components.
    rewrite get_animated_components_loop_filter, filter_cons, filter_nil.
    by rewrite decide_False.
  - unfold get_serialized_fcurves. rewrite Hroot. f_equal.
    apply map_empty. intros i.
    destruct (fill_props_recursively root ∅ !! i) as [recs|] eqn:Hi; [|done].
    apply fill_props_sound in Hi as [Hi|(m & Hm & _ & keys & Hfc & Hne & _)].
    { by rewrite lookup_empty in Hi. }
    destruct Hnot. unfold animated. rewrite Hroot.
    apply Exists_exists. exists m. split; [done|].
    eapply Forall_forall in Hagree; [|exact Hm]. by eapply Hagree.
Qed.

Lemma unanimated_component_collects_nothing_witness :
  get_animated_components [still_component] = Ok []
  ∧ get_serialized_fcurves still_component = Ok ∅.
Proof.
  apply (unanimated_component_collects_nothing still_component
           (AnimNode 1 0 None [AnimNode 2 0 (Some []) []])).
  - reflexivity.
  - repeat constructor; by intros keys [= <-].
  - by_evaluation.
Defined.

(** ** The transfer on any selection *)

Section payload_lemmas.

Implicit Types (curves : gmap positive (list FBFCurveKey))
  (comps : list (option channel)) (ch c : channel).

Lemma collected_payload st :
  collected st = payload (Components st) (current_curves st).
Proof. done. Qed.

Lemma node_id_animation_node curves c :
  node_id (animation_node curves c) = channel_id c.
Proof. by destruct c. Qed.

Lemma FCurve_animation_node curves c :
  FCurve (animation_node curves c)
  = if owns_curve c then Some (default [] (curves !! channel_id c)) else None.
Proof. by destruct c. Qed.

Lemma Nodes_animation_node curves c :
  Nodes (animation_node curves c) = animation_node curves <$> sub_channels c.
Proof. by destruct c. Qed.

Lemma KeyCount_animation_node curves c :
  KeyCount (animation_node curves c)
  = Z.of_nat (length (default [] (FCurve (animation_node curves c)))).
Proof. by destruct c. Qed.

Lemma subnodes_animation_node curves ch :
  subnodes (animation_node curves ch) = animation_node curves <$> channel_nodes ch.
Proof.
  induction ch as [id owns subs IH] using channel_nested_ind.
  cbn [channel_nodes]. rewrite fmap_cons. cbn [animation_node].
  rewrite subnodes_unfold. f_equal.
  induction IH as [|c subs Hc _ IHsubs]; [done|].
  rewrite fmap_cons, !bind_cons, fmap_app, Hc. by f_equal.
Qed.

Lemma curve_channels_nodes ch id :
  id ∈ curve_channels ch
  ↔ ∃ c, c ∈ channel_nodes ch ∧ owns_curve c = true ∧ channel_id c = id.
Proof.
  revert id. induction ch as [i owns subs IH] using channel_nested_ind.
  intros id. cbn [curve_channels channel_nodes]. rewrite elem_of_app. split.
  - intros [Hid|Hid].
    + destruct owns; [|by apply elem_of_nil in Hid].
      apply list_elem_of_singleton in Hid as ->.
      exists (Channel i true subs). split_and!; [left|done|done].
    + apply list_elem_of_bind in Hid as (s & Hid & Hs).
      eapply Forall_forall in IH; [|exact Hs].
      apply IH in Hid as (c & Hc & Ho & Hi). exists c. split_and!; [|done..].
      right. apply list_elem_of_bind. eauto.
  - intros (c & Hc & Ho & Hi). apply elem_of_cons in Hc as [->|Hc].
    + left. cbn in Ho, Hi. subst. left.
    + right. apply list_elem_of_bind in Hc as (s & Hc & Hs).
      apply list_elem_of_bind. exists s. split; [|done].
      eapply Forall_forall in IH; [|exact Hs]. apply IH. eauto.
Qed.

(** Every entry that the collector gives for a component is the encoding of
    the keys that the layer holds for a curve channel of the component. *)
Lemma fcurves_sound curves root props id recs :
  get_serialized_fcurves (mkComponent (animation_node curves <$> root)) = Ok props →
  props !! id = Some recs →
  id ∈ from_option curve_channels [] root
  ∧ ∃ keys, curves !! id = Some keys ∧ keys ≠ [] ∧ recs = serialize_curve keys.
Proof.
  unfold get_serialized_fcurves. cbn [AnimationNode].
  destruct root as [ch|]; [|done]. cbn. intros [= <-] Hi.
  apply fill_props_sound in Hi as [Hi|(m & Hm & <- & keys & Hfc & Hne & ->)].
  { by rewrite lookup_empty in Hi. }
  destruct (animation_node_curve _ _ _ _ Hm Hfc) as [Hin Hkeys].
  split; [done|]. exists keys. split_and!; [|done..].
  destruct (curves !! node_id m) as [keys'|]; cbn in Hkeys; by subst keys.
Qed.

Lemma update_curves_sound comps curves components :
  Forall (λ comp, comp ∈ components_under comps curves) components →
  ∀ acc m id recs,
    update_curves components acc = Ok m →
    m !! id = Some recs →
    acc !! id = Some recs
    ∨ (id ∈ comps ≫= (λ root, from_option curve_channels [] root)
       ∧ ∃ keys, curves !! id = Some keys ∧ keys ≠ []
                 ∧ recs = serialize_curve keys).
Proof.
  induction 1 as [|comp components Hin _ IH]; intros acc m id recs Hrun Hm.
  - cbn in Hrun. injection Hrun as <-. by left.
  - cbn [update_curves] in Hrun.
    apply list_elem_of_fmap in Hin as (root & -> & Hroot).
    destruct (get_serialized_fcurves _) as [props|e] eqn:Hget; [|done].
    destruct (IH _ _ _ _ Hrun Hm) as [Hacc|Hnew]; [|by right].
    apply lookup_union_Some_raw in Hacc as [Hp|[_ Hacc]]; [|by left].
    right. destruct (fcurves_sound _ _ _ _ _ Hget Hp) as [Hch Hkeys].
    split; [|done]. apply list_elem_of_bind. eauto.
Qed.

Lemma update_curves_keeps components :
  ∀ acc m id,
    update_curves components acc = Ok m → is_Some (acc !! id) → is_Some (m !! id).
Proof.
  induction components as [|comp components IH]; intros acc m id Hrun Hacc.
  - cbn in Hrun. by injection Hrun as <-.
  - cbn [update_curves] in Hrun.
    destruct (get_serialized_fcurves comp) as [props|e]; [|done].
    apply (IH _ _ _ Hrun). destruct Hacc as [x Hx].
    destruct (props !! id) as [y|] eqn:Hy.
    + exists y. by apply lookup_union_Some_l.
    + exists x. by rewrite lookup_union_r.
Qed.

Lemma update_curves_adds components :
  ∀ acc m comp props id,
    update_curves components acc = Ok m →
    comp ∈ components →
    get_serialized_fcurves comp = Ok props →
    is_Some (props !! id) →
    is_Some (m !! id).
Proof.
  induction components as [|c components IH]; intros acc m comp props id Hrun Hin Hget Hp.
  - by apply elem_of_nil in Hin.
  - cbn [update_curves] in Hrun. apply elem_of_cons in Hin as [<-|Hin].
    + rewrite Hget in Hrun. apply (update_curves_keeps _ _ _ _ Hrun).
      destruct Hp as [y Hy]. exists y. by apply lookup_union_Some_l.
    + destruct (get_serialized_fcurves c) as [props'|e]; [|done].
      by eapply IH.
Qed.

Lemma update_curves_animated components :
  Forall animated components →
  ∀ acc, ∃ m, update_curves components acc = Ok m.
Proof.
  induction 1 as [|comp components Han _ IH]; intros acc; [by exists acc|].
  cbn [update_curves]. unfold animated in Han. unfold get_serialized_fcurves.
  destruct (AnimationNode comp); [apply IH|done].
Qed.

(** The scan and the collector never raise on the scene's components. *)
Lemma payload_ok comps curves : ∃ m, payload comps curves = Ok m.
Proof.
  unfold payload, get_animated_components.
  rewrite get_animated_components_loop_filter. cbn [app].
  apply update_curves_animated, Forall_forall.
  by intros comp [Han _]%list_elem_of_filter.
Qed.

Lemma payload_sound comps curves m id recs :
  payload comps curves = Ok m →
  m !! id = Some recs →
  id ∈ comps ≫= (λ root, from_option curve_channels [] root)
  ∧ ∃ keys, curves !! id = Some keys ∧ keys ≠ [] ∧ recs = serialize_curve keys.
Proof.
  unfold payload, get_animated_components.
  rewrite get_animated_components_loop_filter. cbn [app]. intros Hrun Hm.
  destruct (update_curves_sound comps curves _
              ltac:(apply Forall_forall; by intros ? [_ ?]%list_elem_of_filter)
              _ _ _ _ Hrun Hm) as [Hempty|Hnew]; [|done].
  by rewrite lookup_empty in Hempty.
Qed.

(** In a well-formed hierarchy the collector finds the keys of every curve
    channel, and the scan finds the component. *)
Lemma fcurves_complete curves ch c keys :
  channel_wf ch →
  c ∈ channel_nodes ch →
  owns_curve c = true →
  curves !! channel_id c = Some keys →
  keys ≠ [] →
  animated (mkComponent (Some (animation_node curves ch)))
  ∧ fill_props_recursively (animation_node curves ch) ∅ !! channel_id c
    = Some (serialize_curve keys).
Proof.
  intros [Hnd Hleaves] Hc Hown Hkeys Hne.
  assert (animation_node curves c ∈ subnodes (animation_node curves ch)) as Hm.
  { rewrite subnodes_animation_node. by apply list_elem_of_fmap_2. }
  assert (FCurve (animation_node curves c) = Some keys) as Hfc.
  { by rewrite FCurve_animation_node, Hown, Hkeys. }
  split.
  - unfold animated, any_keys. cbn [AnimationNode]. apply Exists_exists.
    exists (animation_node curves c). split; [done|].
    rewrite KeyCount_animation_node, Hfc. cbn. destruct keys; [done|]. cbn. lia.
  - rewrite <- (node_id_animation_node curves c).
    rewrite fill_props_complete; [| | |done].
    + unfold entry_of. rewrite Hfc. by destruct keys.
    + unfold curves_on_leaves. rewrite subnodes_animation_node.
      apply Forall_fmap, Forall_forall. intros c' Hc'. cbn.
      rewrite FCurve_animation_node, Nodes_animation_node, length_fmap.
      eapply Forall_forall in Hleaves; [|exact Hc'].
      destruct (owns_curve c'); [auto|]. by intros [? ?].
    + rewrite subnodes_animation_node, <- list_fmap_compose.
      erewrite list_fmap_ext; [exact Hnd|]. intros ? c' _. cbn.
      apply node_id_animation_node.
Qed.

Lemma payload_complete comps curves m id keys :
  channels_wf comps →
  payload comps curves = Ok m →
  id ∈ comps ≫= (λ root, from_option curve_channels [] root) →
  curves !! id = Some keys →
  keys ≠ [] →
  is_Some (m !! id).
Proof.
  intros Hwf Hrun Hid Hkeys Hne.
  apply list_elem_of_bind in Hid as (root & Hid & Hroot).
  destruct root as [ch|]; [|by apply elem_of_nil in Hid]. cbn in Hid.
  apply curve_channels_nodes in Hid as (c & Hc & Hown & <-).
  eapply Forall_forall in Hwf; [|exact Hroot]. cbn in Hwf.
  destruct (fcurves_complete curves ch c keys Hwf Hc Hown Hkeys Hne)
    as [Han Hfill].
  unfold payload, get_animated_components in Hrun.
  rewrite get_animated_components_loop_filter in Hrun. cbn [app] in Hrun.
  eapply (update_curves_adds _ _ _ (mkComponent (Some (animation_node curves ch))));
    [exact Hrun| |done|by rewrite Hfill].
  apply list_elem_of_filter. split; [done|].
  unfold components_under.
  change (mkComponent (Some (animation_node curves ch)))
    with ((λ root, mkComponent (animation_node curves <$> root)) (Some ch)).
  by apply list_elem_of_fmap_2.
Qed.

(** What the decode of a layer's payload gives: the layer's keyed curves on
    the scene's curve channels, each key normalized. *)
Lemma decoded_payload comps curves m :
  channels_wf comps →
  map_Forall (λ _ keys, increasing (Time <$> keys)) curves →
  payload comps curves = Ok m →
  decoded_curves m
  = copied_curves (comps ≫= (λ root, from_option curve_channels [] root)) curves.
Proof.
  intros Hwf Hinc Hrun. apply map_eq. intros id.
  unfold decoded_curves, copied_curves. rewrite !lookup_fmap.
  destruct (m !! id) as [recs|] eqn:Hm.
  - destruct (payload_sound _ _ _ _ _ Hrun Hm) as (Hid & keys & Hkeys & Hne & ->).
    rewrite (map_lookup_filter_Some_2 _ _ id keys) by done.
    cbn [fmap option_fmap option_map].
    by rewrite deserialize_serialize_normalized by (by apply (Hinc _ _ Hkeys)).
  - cbn. destruct (filter _ curves !! id) as [keys|] eqn:Hf; [|done].
    apply map_lookup_filter_Some in Hf as [Hkeys [Hid Hne]]. cbn in Hid, Hne.
    destruct (payload_complete _ _ _ _ _ Hwf Hrun Hid Hkeys Hne) as [? ?].
    congruence.
Qed.

End payload_lemmas.

Section transfer_lemmas.

Implicit Types (st s : host) (f g : nat → list FBAnimationLayer).

Lemma grown_refl st : grown st st (λ _, []).
Proof.
  split_and!; [done..|]. intros i t Ht. exists t. by rewrite app_nil_r.
Qed.

Lemma grown_trans st1 st2 st3 f g :
  grown st1 st2 f → grown st2 st3 g → grown st1 st3 (λ i, f i ++ g i).
Proof.
  intros (Hc1 & Hu1 & Hl1 & H1) (Hc2 & Hu2 & Hl2 & H2).
  split_and!; [congruence..|].
  intros i t Ht. destruct (H1 i t Ht) as (t2 & Ht2 & Hn2 & HL2).
  destruct (H2 i t2 Ht2) as (t3 & Ht3 & Hn3 & HL3).
  exists t3. split_and!; [done|congruence|]. by rewrite HL3, HL2, app_assoc.
Qed.

Lemma grown_ext st st' f g : (∀ i, f i = g i) → grown st st' f → grown st st' g.
Proof.
  intros Hfg (Hc & Hu & Hl & H). split_and!; [done..|]. intros i t Ht.
  destruct (H i t Ht) as (t' & ? & ? & ?). exists t'. by rewrite <- Hfg.
Qed.

Lemma grown_get_layer st st' f ref l :
  grown st st' f → get_layer st ref = Some l → get_layer st' ref = Some l.
Proof.
  intros (_ & _ & _ & H) Hl. unfold get_layer in *.
  destruct (Takes st !! ref.1) as [t|] eqn:Ht; [|done]. cbn in Hl.
  destruct (H _ _ Ht) as (t' & -> & _ & HL). cbn. rewrite HL.
  by apply lookup_app_l_Some.
Qed.

Lemma grown_channels st st' f :
  grown st st' f → scene_curve_channels st' = scene_curve_channels st.
Proof. intros (Hc & _). unfold scene_curve_channels. by rewrite Hc. Qed.

Lemma grown_put st d t t' ext :
  Takes st !! d = Some t →
  take_Name t' = take_Name t →
  Layers t' = Layers t ++ ext →
  grown st (put d t' st) (λ i, if decide (i = d) then ext else []).
Proof.
  intros Ht Hn HL. split_and!; [done|done|apply put_length|].
  intros i ti Hti. destruct (decide (i = d)) as [->|Hne].
  - exists t'. rewrite put_lookup by (by eapply lookup_lt_Some).
    rewrite Ht in Hti. by injection Hti as <-.
  - exists ti. rewrite put_lookup_ne by done. by rewrite app_nil_r.
Qed.

(** The replay of one entry up to its decode loop: a new layer on top of the
    destination's stack with the source's attributes, selected. *)
Lemma replay_layer_prefix st d t lm src :
  CurrentTake st = d →
  Takes st !! d = Some t →
  get_layer st (lm_layer lm) = Some src →
  replay_layer d lm st
  = for_each (map_to_list (lm_curves lm)) (λ item, deserialize_into item.1 item.2)
      (with_top_layer d t (copy_attributes (replay_name st t src) src host_new_layer) st).
Proof.
  intros Hcur Ht Hsrc.
  assert (d < length (Takes st)) as Hd by (by eapply lookup_lt_Some).
  pose (L := Layers t).
  assert (∀ t', Layers t' = L ++ [host_new_layer] ∨
                (∃ x, Layers t' = L ++ [x]) →
                get_layer (put d t' st) (lm_layer lm) = Some src) as Hget.
  { intros t' [Hl|[x Hl]]; by eapply get_layer_put_grow. }
  unfold replay_layer. unfold bind at 1. unfold CreateNewLayer.
  rewrite (take_set_run _ _ t) by done.
  unfold bind at 1. unfold GetLayerCount. unfold bind at 1. unfold take_get.
  rewrite put_lookup by done. cbn [set_Layers Layers ret].
  rewrite length_app. cbn [length].
  replace (length (Layers t) + 1 - 1) with (length L) by (unfold L; lia).
  fold L.
  unfold bind at 1. rewrite (layer_get_run _ _ src) by (apply Hget; by left).
  unfold bind at 1. rewrite (layer_set_Name_put _ _ _ _ host_new_layer)
    by (done || apply lookup_snoc).
  cbn [set_Layers Layers selected_layer take_Name].
  rewrite delete_snoc, list_insert_alter, alter_snoc.
  change (assigned_name (unique_name st) (Name <$> L) (Name src))
    with (replay_name st t src).
  unfold bind at 1. rewrite (layer_get_run _ _ src) by (apply Hget; right; eauto).
  unfold bind at 1. rewrite (layer_set_put _ _ _ _ (set_Name (replay_name st t src) host_new_layer))
    by (done || apply lookup_snoc).
  cbn [set_Layers Layers selected_layer take_Name].
  rewrite list_insert_alter, alter_snoc.
  unfold bind at 1. rewrite (layer_get_run _ _ src) by (apply Hget; right; eauto).
  unfold bind at 1.
  rewrite (layer_set_put _ _ _ _
             (set_LayerMode (LayerMode src) (set_Name (replay_name st t src) host_new_layer)))
    by (done || apply lookup_snoc).
  cbn [set_Layers Layers selected_layer take_Name].
  rewrite list_insert_alter, alter_snoc.
  unfold bind at 1. rewrite (layer_get_run _ _ src) by (apply Hget; right; eauto).
  unfold bind at 1.
  rewrite (layer_set_put _ _ _ _
             (set_LayerRotationMode (LayerRotationMode src)
                (set_LayerMode (LayerMode src) (set_Name (replay_name st t src) host_new_layer))))
    by (done || apply lookup_snoc).
  cbn [set_Layers Layers selected_layer take_Name].
  rewrite list_insert_alter, alter_snoc.
  fold (copy_attributes (replay_name st t src) src host_new_layer).
  unfold bind at 1.
  rewrite (SelectLayer_put _ _ _ _ (copy_attributes (replay_name st t src) src host_new_layer))
    by (done || apply lookup_snoc).
  cbn [set_selected_layer Layers take_Name].
  done.
Qed.

(** The replay of an entry that the scene can take: the new layer holds the
    decode of each of the entry's curves, and no other curve. *)
Lemma replay_layer_exact st d t lm src :
  CurrentTake st = d →
  Takes st !! d = Some t →
  get_layer st (lm_layer lm) = Some src →
  resolvable (scene_curve_channels st) (lm_curves lm) →
  replay_layer d lm st
  = (with_top_layer d t
       (set_layer_curves (decoded_curves (lm_curves lm))
          (copy_attributes (replay_name st t src) src host_new_layer)) st, Ok tt).
Proof.
  intros Hcur Ht Hsrc Hres.
  assert (d < length (Takes st)) as Hd by (by eapply lookup_lt_Some).
  rewrite (replay_layer_prefix st d t lm src Hcur Ht Hsrc).
  destruct (replay_channels st d t (scene_curve_channels st)
              (map_to_list (lm_curves lm)) Hcur Hd eq_refl
              (copy_attributes (replay_name st t src) src host_new_layer))
    as (m & o & Hrun & Hok & _ & Hother & Hwritten).
  assert (o = Ok tt) as ->.
  { apply Hok. apply map_Forall_to_list in Hres.
    eapply Forall_impl; [exact Hres|]. by intros [id recs]. }
  rewrite Hrun. do 3 f_equal. apply map_eq. intros id.
  unfold decoded_curves. rewrite lookup_fmap.
  destruct (lm_curves lm !! id) as [recs|] eqn:Hid.
  - apply Hwritten; [done|apply NoDup_fst_map_to_list|].
    by apply elem_of_map_to_list.
  - rewrite Hother; [done|]. intros Hin.
    apply list_elem_of_fmap in Hin as ([id' recs] & -> & Hin).
    apply elem_of_map_to_list in Hin. cbn in Hid. congruence.
Qed.

Lemma host_named_app unique (srcs1 : list FBAnimationLayer) :
  ∀ taken news1 srcs2 news2,
    host_named unique taken srcs1 news1 →
    host_named unique (taken ++ (Name <$> news1)) srcs2 news2 →
    host_named unique taken (srcs1 ++ srcs2) (news1 ++ news2).
Proof.
  induction srcs1 as [|src srcs1 IH]; intros taken [|new news1] srcs2 news2 H1 H2;
    try done.
  - by rewrite app_nil_r in H2.
  - destruct H1 as [Hnew H1]. cbn [app host_named]. split; [done|].
    apply IH; [done|]. by rewrite <- app_assoc.
Qed.

Lemma host_named_grown s s1 f1 f2 (A B : nat → list FBAnimationLayer) :
  grown s s1 f1 →
  (∀ i t, Takes s !! i = Some t →
     host_named (unique_name s) (Name <$> Layers t) (A i) (f1 i)) →
  (∀ i t1, Takes s1 !! i = Some t1 →
     host_named (unique_name s1) (Name <$> Layers t1) (B i) (f2 i)) →
  ∀ i t, Takes s !! i = Some t →
    host_named (unique_name s) (Name <$> Layers t) (A i ++ B i) (f1 i ++ f2 i).
Proof.
  intros (_ & Hu & _ & Hg) H1 H2 i t Ht.
  destruct (Hg i t Ht) as (t1 & Ht1 & _ & HL).
  apply host_named_app; [by apply H1|].
  specialize (H2 i t1 Ht1). by rewrite Hu, HL, fmap_app in H2.
Qed.

(** The replay loop when every entry resolves and decodes: it completes and
    puts one replayed layer per entry on top of the stack, in order. *)
Lemma replay_layers_ok d lms :
  ∀ st t srcs,
    CurrentTake st = d →
    Takes st !! d = Some t →
    Forall2 (λ lm src, get_layer st (lm_layer lm) = Some src) lms srcs →
    Forall (λ lm, resolvable (scene_curve_channels st) (lm_curves lm)) lms →
    ∃ created sel,
      for_each lms (replay_layer d) st
      = (put d (mkTake (take_Name t) (Layers t ++ created) sel) st, Ok tt)
      ∧ Forall2 replayed srcs created
      ∧ Forall2 (λ lm new, layer_curves new = decoded_curves (lm_curves lm))
                lms created
      ∧ host_named (unique_name st) (Name <$> Layers t) srcs created.
Proof.
  induction lms as [|lm lms IH]; intros st t srcs Hcur Ht Hsrcs Hres.
  - apply Forall2_nil_inv_l in Hsrcs as ->.
    exists [], (selected_layer t). split_and!; [|constructor..|done].
    rewrite app_nil_r, put_id; [done|]. by destruct t.
  - apply Forall2_cons_inv_l in Hsrcs as (src & srcs' & Hsrc & Hsrcs & ->).
    apply Forall_cons in Hres as [Hres1 Hres].
    pose proof (replay_layer_exact st d t lm src Hcur Ht Hsrc Hres1) as Hrun.
    set (new := set_layer_curves (decoded_curves (lm_curves lm))
                  (copy_attributes (replay_name st t src) src host_new_layer)) in *.
    assert (replayed src new) as Hnew by done.
    pose (t1 := mkTake (take_Name t) (Layers t ++ [new]) (length (Layers t))).
    destruct (IH (with_top_layer d t new st) t1 srcs')
      as (created & sel & Hrun' & Hall & Hcurves & Hnames).
    + done.
    + apply put_lookup. by eapply lookup_lt_Some.
    + eapply Forall2_impl; [exact Hsrcs|]. intros lm' src' Hget.
      by eapply (get_layer_put_grow _ _ t t1 [new]).
    + done.
    + exists (new :: created), sel.
      split_and!; [|by constructor|by constructor|].
      2:{ cbn [host_named]. split; [done|].
          cbn [Layers t1] in Hnames. by rewrite fmap_app in Hnames. }
      cbn [for_each]. unfold bind at 1. rewrite Hrun, Hrun'.
      unfold with_top_layer. rewrite put_put.
      cbn [take_Name Layers t1]. by rewrite <- app_assoc.
Qed.

(** The loop over the destination nodes, for one payload. *)
Lemma replay_on_destinations lms srcs nodes_dst :
  ∀ s,
    Forall (dst_node_ok s) nodes_dst →
    Forall2 (λ lm src, get_layer s (lm_layer lm) = Some src) lms srcs →
    Forall (λ lm, resolvable (scene_curve_channels s) (lm_curves lm)) lms →
    ∃ s' f,
      for_each nodes_dst (λ dst_node,
        if dst_Checked dst_node then
          let take := dst_data dst_node in
          set_CurrentTake take >> for_each lms (replay_layer take)
        else ret tt) s = (s', Ok tt)
      ∧ grown s s' f
      ∧ (∀ i, Forall2 replayed (destinations nodes_dst i ≫= (λ _, srcs)) (f i)
              ∧ Forall2 (λ lm new, layer_curves new = decoded_curves (lm_curves lm))
                        (destinations nodes_dst i ≫= (λ _, lms)) (f i))
      ∧ ∀ i t, Takes s !! i = Some t →
          host_named (unique_name s) (Name <$> Layers t)
                     (destinations nodes_dst i ≫= (λ _, srcs)) (f i).
Proof.
  induction nodes_dst as [|n nodes_dst IH]; intros s Hdst Hsrcs Hres.
  - exists s, (λ _, []). split_and!; [done|apply grown_refl| |done].
    intros i. split; constructor.
  - apply Forall_cons in Hdst as [Hn Hdst]. cbn [for_each]. unfold bind at 1.
    destruct (dst_Checked n) eqn:Hchk.
    + destruct (lookup_lt_is_Some_2 (Takes s) (dst_data n) (Hn Hchk)) as [t Ht].
      pose (s_d := mkHost (Takes s) (dst_data n) (Components s) (unique_name s)).
      destruct (replay_layers_ok (dst_data n) lms s_d t srcs eq_refl Ht Hsrcs Hres)
        as (created & sel & Hrun & Hall & Hcurves & Hnames).
      cbn zeta. unfold bind at 1.
      change (set_CurrentTake (dst_data n) s) with (s_d, Ok tt).
      cbv beta iota. rewrite Hrun.
      set (s1 := put (dst_data n) _ s_d) in *.
      assert (grown s s1 (λ i, if decide (i = dst_data n) then created else []))
        as Hg1.
      { by apply (grown_put s_d (dst_data n) t). }
      destruct (IH s1) as (s' & f & Hrun' & Hg & Hf & Hnamed).
      * eapply Forall_impl; [exact Hdst|]. intros n' Hn' Hc.
        destruct Hg1 as (_ & _ & -> & _). by apply Hn'.
      * eapply Forall2_impl; [exact Hsrcs|]. intros lm src.
        by apply (grown_get_layer _ _ _ _ _ Hg1).
      * by rewrite (grown_channels _ _ _ Hg1).
      * exists s', (λ i, (if decide (i = dst_data n) then created else []) ++ f i).
        split_and!; [done|by eapply grown_trans| |].
        -- intros i. unfold destinations. rewrite filter_cons.
           destruct (decide (i = dst_data n)) as [->|Hne].
           ++ rewrite decide_True by done. rewrite !bind_cons.
              split; (apply Forall2_app; [done|apply Hf]).
           ++ rewrite decide_False by (intros [_ ?]; congruence). apply Hf.
        -- intros i ti Hti.
           assert (destinations (n :: nodes_dst) i ≫= (λ _, srcs)
                   = (if decide (i = dst_data n) then srcs else [])
                     ++ (destinations nodes_dst i ≫= (λ _, srcs))) as ->.
           { unfold destinations.
             destruct (decide (i = dst_data n)) as [Heq|Hne].
             - by rewrite filter_cons_True, bind_cons by done.
             - by rewrite filter_cons_False by (intros [_ ?]; congruence). }
           pose (A := λ j : nat, if decide (j = dst_data n) then srcs else []).
           pose (B := λ j : nat, destinations nodes_dst j ≫= (λ _ : dst_node, srcs)).
           apply (host_named_grown s s1 _ f A B Hg1); [|exact Hnamed|exact Hti].
           intros j tj Htj. unfold A.
           destruct (decide (j = dst_data n)) as [Heq|Hne]; [|done].
           rewrite Heq, Ht in Htj. by injection Htj as <-.
    + destruct (IH s Hdst Hsrcs Hres) as (s' & f & Hrun' & Hg & Hf & Hnamed).
      exists s', f. split_and!; [done..| |].
      * intros i. unfold destinations. rewrite filter_cons.
        rewrite decide_False by (intros [? _]; congruence). apply Hf.
      * intros i ti Hti. unfold destinations. rewrite filter_cons.
        rewrite decide_False by (intros [? _]; congruence).
        by apply Hnamed.
Qed.

End transfer_lemmas.

Section transfer_run.

Implicit Types (st s : host) (f g : nat → list FBAnimationLayer).

Lemma elem_of_rev {A} (l : list A) x : x ∈ rev l → x ∈ l.
Proof. rewrite !list_elem_of_In. apply in_rev. Qed.

Lemma fmap_rev {A B} (h : A → B) (l : list A) : h <$> rev l = rev (h <$> l).
Proof.
  induction l as [|x l IH]; [done|]. cbn [rev].
  by rewrite fmap_app, IH.
Qed.

Lemma omap_get_layer_valid s (refs : list (nat * nat)) :
  Forall (λ r, is_Some (get_layer s r)) refs →
  Forall2 (λ r src, get_layer s r = Some src) refs (omap (get_layer s) refs).
Proof.
  induction 1 as [|r refs [l Hl] _ IH]; [constructor|].
  cbn [omap list_omap]. rewrite Hl. by constructor.
Qed.

Lemma omap_get_layer_grown s s' f (refs : list (nat * nat)) :
  grown s s' f →
  Forall (λ r, is_Some (get_layer s r)) refs →
  omap (get_layer s') refs = omap (get_layer s) refs.
Proof.
  intros Hg. induction 1 as [|r refs [l Hl] _ IH]; [done|].
  cbn [omap list_omap]. rewrite Hl, (grown_get_layer _ _ _ _ _ Hg Hl).
  by f_equal.
Qed.

Lemma omap_bind_const {A B C} (h : B → option C) (l : list A) (k : list B) :
  omap h (l ≫= (λ _, k)) = l ≫= (λ _, omap h k).
Proof.
  induction l as [|x l IH]; [done|]. by rewrite !bind_cons, omap_app, IH.
Qed.

Lemma set_selected_layer_id (t : FBTake) : set_selected_layer (selected_layer t) t = t.
Proof. by destruct t. Qed.

(** The loop over the children of a checked take node: it only moves the
    layer selection of the take, and collects one entry per checked child, in
    child order, each of which the scene can take back. *)
Lemma collect_layers_run i children :
  ∀ acc s t,
    CurrentTake s = i →
    Takes s !! i = Some t →
    Forall (λ c, layer_Checked c = true →
                 (layer_data c).1 = i
                 ∧ ∃ l, get_layer s (layer_data c) = Some l ∧ layer_wf l)
           children →
    ∃ lms sel,
      collect_layers children acc s
      = (put i (set_selected_layer sel t) s, Ok (acc ++ lms))
      ∧ lm_layer <$> lms
        = layer_data <$> filter (λ c, layer_Checked c = true) children
      ∧ Forall (λ lm, resolvable (scene_curve_channels s) (lm_curves lm)) lms
      ∧ Forall (λ lm, ∃ l, get_layer s (lm_layer lm) = Some l
                           ∧ payload (Components s) (layer_curves l)
                             = Ok (lm_curves lm)) lms.
Proof.
  induction children as [|c children IH]; intros acc s t Hcur Ht Hok.
  - exists [], (selected_layer t). split_and!; [|done|constructor..].
    cbn [collect_layers]. unfold ret.
    by rewrite set_selected_layer_id, put_id, app_nil_r.
  - apply Forall_cons in Hok as [Hc Hok].
    destruct c as [[] [ti j]].
    + destruct (Hc eq_refl) as (Hti & l & Hl & Hwf).
      cbn [layer_data fst] in Hti, Hl. subst ti.
      assert (i < length (Takes s)) as Hi by (by eapply lookup_lt_Some).
      assert (Layers t !! j = Some l) as Hj.
      { unfold get_layer in Hl. cbn [fst snd] in Hl. by rewrite Ht in Hl. }
      pose (t1 := set_selected_layer j t).
      assert (SelectLayer (i, j) s = (put i t1 s, Ok tt)) as Hsel.
      { unfold SelectLayer. unfold bind at 1.
        rewrite (layer_get_run _ _ l Hl). cbn [fst snd].
        by rewrite (take_set_run _ _ t). }
      assert (current_curves (put i t1 s) = layer_curves l) as Hcurves.
      { unfold current_curves, current_layer.
        change (CurrentTake (put i t1 s)) with (CurrentTake s).
        rewrite Hcur, put_lookup by done. cbn. by rewrite Hj. }
      destruct (collected_resolvable (put i t1 s)) as (m & Hm & Hres).
      { by rewrite Hcurves. }
      rewrite (collect_layers_checked (i, j) children acc s (put i t1 s) m Hsel Hm).
      assert (payload (Components s) (layer_curves l) = Ok m) as Hpay.
      { by rewrite <- Hcurves, <- Hm, collected_payload. }
      destruct (IH (acc ++ [mkLayerMap (i, j) m]) (put i t1 s) t1)
        as (lms & sel & Hrun & Hrefs & Hall & Hpays).
      * done.
      * by apply put_lookup.
      * eapply Forall_impl; [exact Hok|]. intros c' Hc' Hchk.
        destruct (Hc' Hchk) as (? & l' & Hl' & ?). split; [done|].
        exists l'. split; [|done].
        eapply (get_layer_put_grow _ _ t t1 []); [done| |done].
        by rewrite app_nil_r.
      * exists (mkLayerMap (i, j) m :: lms), sel. split_and!.
        -- rewrite Hrun, put_put, <- app_assoc. done.
        -- rewrite filter_cons, decide_True by done.
           rewrite !fmap_cons. by rewrite Hrefs.
        -- constructor; done.
        -- constructor; [by exists l|].
           eapply Forall_impl; [exact Hpays|]. intros lm (l' & Hl' & Hp').
           exists l'. split; [|done]. unfold get_layer in *.
           destruct (decide ((lm_layer lm).1 = i)) as [Heq|Hne].
           ++ rewrite Heq in *. rewrite put_lookup in Hl' by done.
              by rewrite Ht.
           ++ by rewrite put_lookup_ne in Hl' by done.
    + rewrite collect_layers_unchecked.
      destruct (IH acc s t Hcur Ht Hok)
        as (lms & sel & Hrun & Hrefs & Hall & Hpays).
      exists lms, sel. split_and!; [done| |done..].
      by rewrite filter_cons, decide_False by done.
Qed.

Lemma src_node_ok_grown s s' f node :
  grown s s' f → src_node_ok s node → src_node_ok s' node.
Proof.
  intros Hg Hok Hchk. destruct (Hok Hchk) as ([t Ht] & Hall). split.
  - destruct Hg as (_ & _ & _ & Hg). destruct (Hg _ _ Ht) as (t' & -> & _). eauto.
  - eapply Forall_impl; [exact Hall|]. intros c Hc Hcc.
    destruct (Hc Hcc) as (? & l & Hl & ?). split; [done|].
    exists l. split; [|done]. by eapply grown_get_layer.
Qed.

Lemma checked_layers_valid s node :
  take_Checked node = true →
  src_node_ok s node →
  Forall (λ r, is_Some (get_layer s r)) (checked_layers node).
Proof.
  intros Hchk Hok. destruct (Hok Hchk) as (_ & Hall).
  unfold checked_layers. apply Forall_fmap, Forall_forall.
  intros c [Hc Hin]%list_elem_of_filter.
  eapply Forall_forall in Hall; [|exact Hin].
  destruct (Hall Hc) as (_ & l & Hl & _). by exists l.
Qed.

Lemma transferred_valid s nodes_src nodes_dst i :
  Forall (src_node_ok s) nodes_src →
  Forall (λ r, is_Some (get_layer s r)) (transferred nodes_src nodes_dst i).
Proof.
  intros Hok. unfold transferred. apply Forall_forall. intros r.
  rewrite list_elem_of_bind. intros (node & Hr & Hnode).
  eapply Forall_forall in Hok; [|exact Hnode].
  destruct (take_Checked node) eqn:Hchk; [|by apply elem_of_nil in Hr].
  apply list_elem_of_bind in Hr as (_ & Hr & _). apply elem_of_rev in Hr.
  pose proof (checked_layers_valid s node Hchk Hok) as Hall.
  by eapply Forall_forall in Hall.
Qed.

Lemma for_each_cons_ok {S A} (x : A) (l : list A) (body : A → M S unit)
    (s s1 : S) r :
  body x s = (s1, Ok tt) → for_each l body s1 = r → for_each (x :: l) body s = r.
Proof. intros Hx Hl. cbn [for_each]. unfold bind. by rewrite Hx. Qed.

Lemma Forall2_Forall_impl {A B} (P : A → Prop) (R Q : A → B → Prop) l k :
  Forall P l → Forall2 R l k → (∀ x y, P x → R x y → Q x y) → Forall2 Q l k.
Proof.
  intros HP HR HQ. induction HR as [|x y l k Hxy _ IH]; [constructor|].
  apply Forall_cons in HP as [Hx HP]. constructor; auto.
Qed.

Lemma bind_const_fmap {A B C} (h : B → C) (l : list A) (k : list B) :
  l ≫= (λ _, h <$> k) = h <$> (l ≫= (λ _, k)).
Proof.
  induction l as [|x l IH]; [done|]. by rewrite !bind_cons, fmap_app, IH.
Qed.

Lemma decoded_from_grown s s' f r new :
  grown s s' f →
  is_Some (get_layer s r) →
  decoded_from s' r new →
  decoded_from s r new.
Proof.
  intros Hg [l0 Hl0] (l & m & Hl & Hm & Hnew).
  rewrite (grown_get_layer _ _ _ _ _ Hg Hl0) in Hl. injection Hl as <-.
  destruct Hg as (Hc & _). rewrite Hc in Hm. by exists l0, m.
Qed.

(** The transfer on any trees that fit the scene. *)
Lemma transfer_run nodes_dst nodes_src :
  ∀ s,
    Forall (src_node_ok s) nodes_src →
    Forall (dst_node_ok s) nodes_dst →
    ∃ s' f,
      transfer_anim_layers nodes_src nodes_dst s = (s', Ok tt)
      ∧ grown s s' f
      ∧ (∀ i, Forall2 replayed
                (omap (get_layer s) (transferred nodes_src nodes_dst i)) (f i)
              ∧ Forall2 (decoded_from s) (transferred nodes_src nodes_dst i) (f i))
      ∧ ∀ i t, Takes s !! i = Some t →
          host_named (unique_name s) (Name <$> Layers t)
            (omap (get_layer s) (transferred nodes_src nodes_dst i)) (f i).
Proof.
  induction nodes_src as [|node nodes_src IH]; intros s Hsrc Hdst.
  - exists s, (λ _, []). split_and!; [done|apply grown_refl| |done].
    intros i. split; constructor.
  - apply Forall_cons in Hsrc as [Hnode Hsrc].
    pose (part := λ i : nat,
            if take_Checked node
            then destinations nodes_dst i ≫= (λ _ : dst_node, rev (checked_layers node))
            else []).
    assert (∃ s1 f1,
      (if take_Checked node then
         set_CurrentTake (take_data node) >>
         do layers_data <- collect_layers (children node) [];
         let layers_data := rev layers_data in
         for_each nodes_dst (λ dst_node,
           if dst_Checked dst_node then
             let take := dst_data dst_node in
             set_CurrentTake take >> for_each layers_data (replay_layer take)
           else ret tt)
       else ret tt) s = (s1, Ok tt)
      ∧ grown s s1 f1
      ∧ (∀ i, Forall2 replayed (omap (get_layer s) (part i)) (f1 i)
              ∧ Forall2 (decoded_from s) (part i) (f1 i))
      ∧ ∀ i t, Takes s !! i = Some t →
          host_named (unique_name s) (Name <$> Layers t)
                     (omap (get_layer s) (part i)) (f1 i))
      as (s1 & f1 & Hrun1 & Hg1 & Hf1 & Hn1).
    { unfold part. destruct (take_Checked node) eqn:Hchk.
      - destruct (Hnode Hchk) as ([t Ht] & Hchildren).
        pose (s_a := mkHost (Takes s) (take_data node) (Components s)
                            (unique_name s)).
        destruct (collect_layers_run (take_data node) (children node) [] s_a t
                    eq_refl Ht Hchildren)
          as (lms & sel & Hcol & Hrefs & Hres & Hpays).
        set (s_b := put (take_data node) (set_selected_layer sel t) s_a) in *.
        assert (grown s s_b (λ _, [])) as Hgb.
        { eapply grown_ext;
            [|apply (grown_put s_a (take_data node) t (set_selected_layer sel t) []);
              [done|done|by rewrite app_nil_r]].
          intros i. cbv beta. by destruct (decide _). }
        pose proof (checked_layers_valid s node Hchk Hnode) as Hvalid.
        destruct (replay_on_destinations (rev lms)
                    (omap (get_layer s) (rev (checked_layers node))) nodes_dst s_b)
          as (s1 & f1 & Hrun1 & Hg1 & Hf1 & Hn1).
        + eapply Forall_impl; [exact Hdst|]. intros n Hn Hc.
          destruct Hgb as (_ & _ & -> & _). by apply Hn.
        + rewrite <- (omap_get_layer_grown s s_b _ _ Hgb)
            by (apply Forall_forall; intros r Hr%elem_of_rev;
                by eapply Forall_forall in Hvalid).
          assert (Forall2 (λ r src, get_layer s_b r = Some src)
                    (lm_layer <$> rev lms)
                    (omap (get_layer s_b) (rev (checked_layers node)))) as Hall.
          { rewrite fmap_rev. unfold checked_layers. rewrite <- Hrefs.
            apply omap_get_layer_valid. apply Forall_forall.
            intros r Hr%elem_of_rev. rewrite Hrefs in Hr.
            eapply Forall_forall in Hvalid; [|exact Hr].
            destruct Hvalid as [l Hl]. exists l. by eapply grown_get_layer. }
          by apply Forall2_fmap_l in Hall.
        + apply Forall_forall. intros lm Hlm%elem_of_rev.
          eapply Forall_forall in Hres; [|exact Hlm]. exact Hres.
        + exists s1, f1. split_and!.
          * unfold bind at 1.
            change (set_CurrentTake (take_data node) s) with (s_a, Ok tt).
            cbv beta iota. unfold bind at 1. rewrite Hcol. cbn [app].
            exact Hrun1.
          * eapply grown_ext; [|exact (grown_trans _ _ _ _ _ Hgb Hg1)]. done.
          * intros i. split; [rewrite omap_bind_const; apply Hf1|].
            destruct (Hf1 i) as [_ Hcurves].
            unfold checked_layers. rewrite <- Hrefs, <- fmap_rev, bind_const_fmap.
            apply Forall2_fmap_l.
            eapply (Forall2_Forall_impl
                      (λ lm, ∃ l, get_layer s (lm_layer lm) = Some l
                                  ∧ payload (Components s) (layer_curves l)
                                    = Ok (lm_curves lm)));
              [|exact Hcurves|].
            -- apply Forall_forall. intros lm Hlm.
               apply list_elem_of_bind in Hlm as (_ & Hlm%elem_of_rev & _).
               eapply Forall_forall in Hpays; [|exact Hlm]. exact Hpays.
            -- intros lm new (l & Hl & Hp) Hnew. by exists l, (lm_curves lm).
          * intros i ti Hti. rewrite omap_bind_const.
            destruct Hgb as (_ & Hub & _ & Hgb).
            destruct (Hgb i ti Hti) as (tb & Htb & _ & HLb).
            specialize (Hn1 i tb Htb).
            by rewrite Hub, HLb, app_nil_r in Hn1.
      - exists s, (λ _, []). split_and!; [done|apply grown_refl| |done].
        intros i. split; constructor. }
    destruct (IH s1) as (s' & f2 & Hrun2 & Hg2 & Hf2 & Hn2).
    + eapply Forall_impl; [exact Hsrc|]. intros n.
      by apply (src_node_ok_grown s s1 f1).
    + eapply Forall_impl; [exact Hdst|]. intros n Hn Hc.
      destruct Hg1 as (_ & _ & -> & _). by apply Hn.
    + assert (∀ i, transferred (node :: nodes_src) nodes_dst i
                   = part i ++ transferred nodes_src nodes_dst i) as Hunfold.
      { intros i. unfold transferred, part. by rewrite bind_cons. }
      exists s', (λ i, f1 i ++ f2 i). split_and!.
      * unfold transfer_anim_layers.
        apply (for_each_cons_ok _ _ _ _ s1); [exact Hrun1|exact Hrun2].
      * by eapply grown_trans.
      * intros i. rewrite Hunfold. split.
        -- rewrite omap_app. apply Forall2_app; [apply Hf1|].
           rewrite <- (omap_get_layer_grown s s1 f1 _ Hg1)
             by (by apply transferred_valid).
           apply Hf2.
        -- apply Forall2_app; [apply Hf1|].
           eapply (Forall2_Forall_impl (λ r, is_Some (get_layer s r)));
             [by apply transferred_valid|apply Hf2|].
           intros r new Hr. by apply (decoded_from_grown s s1 f1).
      * intros i ti Hti. rewrite Hunfold, omap_app.
        pose (A := λ j : nat, omap (get_layer s) (part j)).
        pose (B := λ j : nat,
                omap (get_layer s) (transferred nodes_src nodes_dst j)).
        apply (host_named_grown s s1 f1 f2 A B Hg1); [exact Hn1| |exact Hti].
        intros j tj Htj. unfold B.
        rewrite <- (omap_get_layer_grown s s1 f1 _ Hg1)
          by (by apply transferred_valid).
        by apply Hn2.
Qed.

End transfer_run.

Section loaded_trees.

Implicit Types (st : host).

Lemma loaded_src_node st nodes_src node :
  loaded_src st nodes_src →
  node ∈ nodes_src →
  ∃ t, Takes st !! take_data node = Some t
       ∧ layer_data <$> children node
         = (λ j, (take_data node, j)) <$> rev (seq 0 (length (Layers t))).
Proof.
  intros Hloaded Hnode.
  assert ((take_data node, layer_data <$> children node)
          ∈ (λ n, (take_data n, layer_data <$> children n)) <$> nodes_src) as Hin.
  { by apply (list_elem_of_fmap_2
                (λ n, (take_data n, layer_data <$> children n))). }
  rewrite Hloaded in Hin. apply list_elem_of_fmap in Hin as (n & Heq & Hn).
  unfold reload_src_tree in Hn.
  apply elem_of_lookup_imap_1 in Hn as (ti & t & -> & Ht).
  cbn [take_data children] in Heq. injection Heq as -> ->.
  exists t. split; [done|]. by rewrite <- list_fmap_compose.
Qed.

Lemma loaded_src_ok st nodes_src :
  host_wf st → loaded_src st nodes_src → Forall (src_node_ok st) nodes_src.
Proof.
  intros Hwf Hloaded. apply Forall_forall. intros node Hnode _.
  destruct (loaded_src_node st nodes_src node Hloaded Hnode) as (t & Ht & Hrefs).
  split; [eauto|]. apply Forall_forall. intros c Hc _.
  assert (layer_data c ∈ layer_data <$> children node) as Hin
    by (by apply list_elem_of_fmap_2).
  rewrite Hrefs in Hin. apply list_elem_of_fmap in Hin as (j & -> & Hj).
  apply elem_of_rev, elem_of_seq in Hj. split; [done|].
  destruct (lookup_lt_is_Some_2 (Layers t) j) as [l Hl]; [lia|].
  exists l. split.
  - unfold get_layer. cbn [fst snd]. by rewrite Ht.
  - unfold host_wf in Hwf.
    eapply Forall_forall in Hwf; [|by eapply list_elem_of_lookup_2].
    eapply Forall_forall in Hwf; [exact Hwf|by eapply list_elem_of_lookup_2].
Qed.

Lemma loaded_dst_ok st nodes_dst :
  loaded_dst st nodes_dst → Forall (dst_node_ok st) nodes_dst.
Proof.
  intros Hloaded. apply Forall_forall. intros n Hn _.
  assert (dst_data n ∈ dst_data <$> nodes_dst) as Hin
    by (by apply list_elem_of_fmap_2).
  rewrite Hloaded in Hin. apply list_elem_of_fmap in Hin as (n' & -> & Hn').
  unfold reload_dst_tree in Hn'.
  apply elem_of_lookup_imap_1 in Hn' as (ti & t & -> & Ht).
  by eapply lookup_lt_Some.
Qed.



Lemma omap_lookup_seq {A} (front l : list A) :
  omap (λ j, (front ++ l) !! j) (seq (length front) (length l)) = l.
Proof.
  revert front. induction l as [|x l IH]; intros front; [done|].
  cbn [length seq omap list_omap]. rewrite list_lookup_middle by done.
  f_equal. specialize (IH (front ++ [x])).
  rewrite length_app, <- app_assoc in IH. cbn [length] in IH.
  by rewrite Nat.add_1_r in IH.
Qed.

Lemma omap_get_layer_stack st ti t (js : list nat) :
  Takes st !! ti = Some t →
  omap (get_layer st) ((λ j, (ti, j)) <$> js) = omap (λ j, Layers t !! j) js.
Proof.
  intros Ht. induction js as [|j js IH]; [done|].
  rewrite fmap_cons. cbn [omap list_omap]. rewrite IH.
  unfold get_layer at 1. cbn [fst snd]. by rewrite Ht.
Qed.

Lemma rev_rev {A} (l : list A) : rev (rev l) = l.
Proof. apply rev_involutive. Qed.

End loaded_trees.

(** X8. The transfer for any selection.  On a scene whose curves are host
    curves, with the trees as loaded from the scene and any boxes ticked, the
    transfer never raises.  It leaves the components, the takes and every
    layer that existed as they were, and puts on top of each take [i] one
    replay for each entry of [transferred nodes_src nodes_dst i], in that
    order: the checked source takes in tree order, for each the checked
    destination nodes of take [i], for each the checked layers of the source
    take from the last child to the first.  Each replay has the mode,
    rotation mode and weight of its source layer and is not muted.  Its name
    is the name of its source layer, unless a layer below it on the stack,
    old or replayed, has that name; then it is the name that the host's
    uniqueness policy gives. *)
Theorem transfer_of_any_selection (st : host) (nodes_src : list take_node)
    (nodes_dst : list dst_node) :
  host_wf st →
  loaded_src st nodes_src →
  loaded_dst st nodes_dst →
  ∃ st' f,
    transfer_anim_layers nodes_src nodes_dst st = (st', Ok tt)
    ∧ grown st st' f
    ∧ ∀ i, Forall2 replayed
             (omap (get_layer st) (transferred nodes_src nodes_dst i)) (f i)
           ∧ length (f i) = length (transferred nodes_src nodes_dst i)
           ∧ ∀ t, Takes st !! i = Some t →
               host_named (unique_name st) (Name <$> Layers t)
                 (omap (get_layer st) (transferred nodes_src nodes_dst i)) (f i).
Proof.
  intros Hwf Hsrc Hdst.
  pose proof (loaded_src_ok st nodes_src Hwf Hsrc) as Hsrc_ok.
  destruct (transfer_run nodes_dst nodes_src st Hsrc_ok
              (loaded_dst_ok st nodes_dst Hdst))
    as (st' & f & Hrun & Hg & Hf & Hnamed).
  exists st', f. split_and!; [done..|]. intros i.
  split_and!; [apply Hf| |apply Hnamed].
  rewrite <- (Forall2_length _ _ _ (proj1 (Hf i))).
  pose proof (omap_get_layer_valid st _
                (transferred_valid st nodes_src nodes_dst i Hsrc_ok)) as Hall.
  by rewrite (Forall2_length _ _ _ Hall).
Qed.

Lemma transfer_of_any_selection_witness :
  ∃ st' f,
    transfer_anim_layers
      (check_layer_node (0, 2) (check_layer_node (0, 0) (reload_src_tree sample_host)))
      (check_dst_node 0 (check_dst_node 1 (reload_dst_tree sample_host)))
      sample_host = (st', Ok tt)
    ∧ grown sample_host st' f
    ∧ ∀ i, Forall2 replayed
             (omap (get_layer sample_host)
                (transferred
                   (check_layer_node (0, 2)
                      (check_layer_node (0, 0) (reload_src_tree sample_host)))
                   (check_dst_node 0 (check_dst_node 1 (reload_dst_tree sample_host)))
                   i)) (f i)
           ∧ length (f i)
             = length (transferred
                   (check_layer_node (0, 2)
                      (check_layer_node (0, 0) (reload_src_tree sample_host)))
                   (check_dst_node 0 (check_dst_node 1 (reload_dst_tree sample_host)))
                   i)
           ∧ ∀ t, Takes sample_host !! i = Some t →
               host_named sample_unique_name (Name <$> Layers t)
                 (omap (get_layer sample_host)
                    (transferred
                       (check_layer_node (0, 2)
                          (check_layer_node (0, 0) (reload_src_tree sample_host)))
                       (check_dst_node 0
                          (check_dst_node 1 (reload_dst_tree sample_host)))
                       i)) (f i).
Proof.
  apply (transfer_of_any_selection sample_host); [by_evaluation|done|done].
Defined.

Section copies.

Implicit Types (st : host).

Lemma get_layer_wf st r l : host_wf st → get_layer st r = Some l → layer_wf l.
Proof.
  intros Hwf Hl. unfold get_layer in Hl.
  destruct (Takes st !! r.1) as [t|] eqn:Ht; [|done]. cbn in Hl.
  unfold host_wf in Hwf.
  eapply Forall_forall in Hwf; [|by eapply list_elem_of_lookup_2].
  eapply Forall_forall in Hwf; [exact Hwf|by eapply list_elem_of_lookup_2].
Qed.

Lemma copies_of st refs news :
  host_wf st →
  channels_wf (Components st) →
  Forall2 replayed (omap (get_layer st) refs) news →
  Forall2 (decoded_from st) refs news →
  Forall2 (copy_of (scene_curve_channels st)) (omap (get_layer st) refs) news.
Proof.
  intros Hwf Hch Hrep Hdec. induction Hdec as [|r new refs news Hr _ IH].
  - constructor.
  - destruct Hr as (l & m & Hl & Hm & Hnew). cbn [omap list_omap] in *.
    rewrite Hl in *. apply Forall2_cons in Hrep as [Hrep1 Hrep].
    constructor; [|by apply IH]. split; [done|]. rewrite Hnew.
    apply decoded_payload; [done| |done].
    by apply (get_layer_wf st r).
Qed.

Lemma transferred_no_destination nodes_src nodes_dst i :
  Forall (λ n, dst_Checked n = false) nodes_dst →
  transferred nodes_src nodes_dst i = [].
Proof.
  intros Hdst. unfold transferred.
  assert (destinations nodes_dst i = []) as ->.
  { unfold destinations. induction Hdst as [|n nodes_dst Hn _ IH]; [done|].
    rewrite filter_cons, decide_False by (intros [? _]; congruence). done. }
  induction nodes_src as [|node nodes_src IH]; [done|].
  rewrite bind_cons, IH. by destruct (take_Checked node).
Qed.

Lemma grown_nothing st st' f :
  grown st st' f →
  (∀ i, f i = []) →
  (λ t, (take_Name t, Layers t)) <$> Takes st'
  = (λ t, (take_Name t, Layers t)) <$> Takes st.
Proof.
  intros (_ & _ & Hlen & Hg) Hf. apply list_eq. intros i.
  rewrite !list_lookup_fmap.
  destruct (Takes st !! i) as [t|] eqn:Ht.
  - destruct (Hg i t Ht) as (t' & -> & Hn & HL). cbn.
    by rewrite Hn, HL, Hf, app_nil_r.
  - apply lookup_ge_None in Ht. rewrite <- Hlen in Ht.
    apply lookup_ge_None in Ht. by rewrite Ht.
Qed.

Lemma reload_src_tree_loaded st : loaded_src st (reload_src_tree st).
Proof. done. Qed.

Lemma reload_src_tree_unchecked st :
  Forall (λ n, take_Checked n = false) (reload_src_tree st).
Proof.
  apply Forall_forall. intros n Hn. unfold reload_src_tree in Hn.
  by apply elem_of_lookup_imap_1 in Hn as (ti & t & -> & _).
Qed.

Lemma transfer_unchecked nodes_src nodes_dst st :
  Forall (λ n, take_Checked n = false) nodes_src →
  transfer_anim_layers nodes_src nodes_dst st = (st, Ok tt).
Proof.
  unfold transfer_anim_layers.
  induction 1 as [|node nodes_src Hnode _ IH]; [done|].
  cbn [for_each]. rewrite Hnode. unfold bind at 1. cbn [ret]. exact IH.
Qed.

End copies.

(** X9. What the transfer copies.  When, in addition, the channel
    hierarchies of the scene have distinct nodes and keep curves on leaves,
    every layer that the transfer creates is a copy of its source layer: it
    has the source's mode, rotation mode and weight, is not muted, and holds
    exactly the source's curves that have keys, on the channels of the scene
    that own a curve, every key normalized as one decode leaves it (TCB
    tangents downgraded, default weights reset).  Curves without keys are
    not copied.  This holds for every naming policy of the host; the names
    are not part of it. *)
Theorem transfer_copies_layers (st : host) (nodes_src : list take_node)
    (nodes_dst : list dst_node) :
  host_wf st →
  channels_wf (Components st) →
  loaded_src st nodes_src →
  loaded_dst st nodes_dst →
  ∃ st' f,
    transfer_anim_layers nodes_src nodes_dst st = (st', Ok tt)
    ∧ grown st st' f
    ∧ ∀ i, Forall2 (copy_of (scene_curve_channels st))
             (omap (get_layer st) (transferred nodes_src nodes_dst i)) (f i).
Proof.
  intros Hwf Hch Hsrc Hdst.
  destruct (transfer_run nodes_dst nodes_src st
              (loaded_src_ok st nodes_src Hwf Hsrc)
              (loaded_dst_ok st nodes_dst Hdst)) as (st' & f & Hrun & Hg & Hf & _).
  exists st', f. split_and!; [done..|]. intros i.
  destruct (Hf i) as [Hrep Hdec]. by apply copies_of.
Qed.

Lemma transfer_copies_layers_witness :
  ∃ st' f,
    transfer_anim_layers
      (check_layer_node (0, 2) (check_layer_node (0, 1) (reload_src_tree sample_host)))
      (check_dst_node 1 (reload_dst_tree sample_host))
      sample_host = (st', Ok tt)
    ∧ grown sample_host st' f
    ∧ ∀ i, Forall2 (copy_of (scene_curve_channels sample_host))
             (omap (get_layer sample_host)
                (transferred
                   (check_layer_node (0, 2)
                      (check_layer_node (0, 1) (reload_src_tree sample_host)))
                   (check_dst_node 1 (reload_dst_tree sample_host)) i)) (f i).
Proof.
  apply (transfer_copies_layers sample_host);
    [by_evaluation|by_evaluation|done|done].
Defined.

(** X10. Without a checked take in the source tree the transfer does
    nothing: the scene, with its current take and layer selections, is left
    exactly as it was, whatever is checked in the destination tree. *)
Theorem transfer_without_source (st : host) (nodes_src : list take_node)
    (nodes_dst : list dst_node) :
  Forall (λ n, take_Checked n = false) nodes_src →
  transfer_anim_layers nodes_src nodes_dst st = (st, Ok tt).
Proof.
  unfold transfer_anim_layers.
  induction 1 as [|node nodes_src Hnode _ IH]; [done|].
  cbn [for_each]. rewrite Hnode. unfold bind at 1. cbn [ret]. exact IH.
Qed.

Lemma transfer_without_source_witness :
  transfer_anim_layers (reload_src_tree sample_host)
    (check_dst_node 1 (reload_dst_tree sample_host)) sample_host
  = (sample_host, Ok tt).
Proof.
  apply (transfer_without_source sample_host). by_evaluation.
Defined.

(** X11. Without a checked destination the transfer creates no layer: it
    completes, and every take keeps its name and its layer stack as it was.
    (The current take and the layer selection of the checked source takes
    still move, as the layers are collected before the destinations are
    looked at.) *)
Theorem transfer_without_destination (st : host) (nodes_src : list take_node)
    (nodes_dst : list dst_node) :
  host_wf st →
  loaded_src st nodes_src →
  Forall (λ n, dst_Checked n = false) nodes_dst →
  ∃ st',
    transfer_anim_layers nodes_src nodes_dst st = (st', Ok tt)
    ∧ Components st' = Components st
    ∧ (λ t, (take_Name t, Layers t)) <$> Takes st'
      = (λ t, (take_Name t, Layers t)) <$> Takes st.
Proof.
  intros Hwf Hsrc Hdst.
  destruct (transfer_run nodes_dst nodes_src st
              (loaded_src_ok st nodes_src Hwf Hsrc))
    as (st' & f & Hrun & Hg & Hf & _).
  { eapply Forall_impl; [exact Hdst|]. intros n Hn Hc. congruence. }
  exists st'. split_and!; [done|apply Hg|].
  apply (grown_nothing st st' f Hg). intros i.
  destruct (Hf i) as [_ Hdec].
  rewrite transferred_no_destination in Hdec by done.
  by apply Forall2_nil_inv_l in Hdec.
Qed.

Lemma transfer_without_destination_witness :
  ∃ st',
    transfer_anim_layers
      (check_layer_node (0, 1) (reload_src_tree sample_host))
      (reload_dst_tree sample_host) sample_host = (st', Ok tt)
    ∧ Components st' = Components sample_host
    ∧ (λ t, (take_Name t, Layers t)) <$> Takes st'
      = (λ t, (take_Name t, Layers t)) <$> Takes sample_host.
Proof.
  apply (transfer_without_destination sample_host);
    [by_evaluation|done|by_evaluation].
Defined.

(** X12. The transfer button.  It runs the transfer and rebuilds the source
    tree, so the new tree lists every take with its layers as they are after
    the transfer, with no box ticked; pressing the button again right away
    therefore changes nothing in the scene. *)
Theorem transfer_btn_twice (st : host) (nodes_src : list take_node)
    (nodes_dst : list dst_node) :
  host_wf st →
  loaded_src st nodes_src →
  loaded_dst st nodes_dst →
  ∃ st' nodes_src',
    transfer_btn_callback nodes_src nodes_dst st = (st', Ok nodes_src')
    ∧ nodes_src' = reload_src_tree st'
    ∧ transfer_btn_callback nodes_src' nodes_dst st' = (st', Ok nodes_src').
Proof.
  intros Hwf Hsrc Hdst.
  destruct (transfer_run nodes_dst nodes_src st
              (loaded_src_ok st nodes_src Hwf Hsrc)
              (loaded_dst_ok st nodes_dst Hdst)) as (st' & f & Hrun & _).
  exists st', (reload_src_tree st'). unfold transfer_btn_callback.
  split_and!; [|done|].
  - unfold bind at 1. by rewrite Hrun.
  - unfold bind at 1.
    by rewrite (transfer_unchecked _ nodes_dst st' (reload_src_tree_unchecked st')).
Qed.

Lemma transfer_btn_twice_witness :
  ∃ st' nodes_src',
    transfer_btn_callback
      (check_layer_node (0, 1) (reload_src_tree sample_host))
      (check_dst_node 1 (reload_dst_tree sample_host)) sample_host
    = (st', Ok nodes_src')
    ∧ nodes_src' = reload_src_tree st'
    ∧ transfer_btn_callback nodes_src'
        (check_dst_node 1 (reload_dst_tree sample_host)) st'
      = (st', Ok nodes_src').
Proof.
  apply (transfer_btn_twice sample_host); [by_evaluation|done|done].
Defined.



Section check_boxes.

Implicit Types (st : host) (node : take_node) (nodes_src : list take_node).

Lemma some_active_existsb (cs : list layer_node) : some_active cs = existsb layer_Checked cs.
Proof.
  unfold some_active.
  assert (∀ b, foldl (λ a c, a || layer_Checked c) b cs
               = b || existsb layer_Checked cs) as H.
  { induction cs as [|c cs IH]; intros b; cbn [foldl existsb].
    - by rewrite orb_false_r.
    - by rewrite IH, orb_assoc. }
  apply H.
Qed.

Lemma some_active_Exists (cs : list layer_node) :
  some_active cs = true ↔ Exists (λ c, layer_Checked c = true) cs.
Proof.
  rewrite some_active_existsb, Exists_exists, existsb_exists.
  split; intros (c & Hc & ?); exists c; by rewrite ?list_elem_of_In in *.
Qed.

Lemma loaded_src_fmap st nodes_src (h : take_node → take_node) :
  (∀ node, src_refs (h node) = src_refs node) →
  loaded_src st nodes_src → loaded_src st (h <$> nodes_src).
Proof.
  intros Hh Hl. unfold loaded_src in *. rewrite <- Hl, <- list_fmap_compose.
  apply list_fmap_ext. intros _ node _. apply (Hh node).
Qed.

Lemma loaded_src_alter st nodes_src (h : take_node → take_node) i :
  (∀ node, src_refs (h node) = src_refs node) →
  loaded_src st nodes_src → loaded_src st (alter h i nodes_src).
Proof.
  intros Hh Hl. unfold loaded_src in *. rewrite <- Hl.
  apply list_eq. intros k. rewrite !list_lookup_fmap.
  destruct (decide (k = i)) as [->|Hne].
  - rewrite list_lookup_alter_eq.
    destruct (nodes_src !! i) as [node|]; [|done]. cbn. f_equal. apply (Hh node).
  - by rewrite list_lookup_alter_ne.
Qed.

Lemma fmap_set_layer_Checked (g : layer_node → bool) (cs : list layer_node) :
  layer_data <$> ((λ c, set_layer_Checked (g c) c) <$> cs) = layer_data <$> cs.
Proof. rewrite <- list_fmap_compose. by apply list_fmap_ext. Qed.

Lemma alter_set_layer_Checked (g : layer_node → bool) j (cs : list layer_node) :
  layer_data <$> alter (λ c, set_layer_Checked (g c) c) j cs = layer_data <$> cs.
Proof.
  apply list_eq. intros k. rewrite !list_lookup_fmap.
  destruct (decide (k = j)) as [->|Hne].
  - rewrite list_lookup_alter_eq. by destruct (cs !! j).
  - by rewrite list_lookup_alter_ne.
Qed.

(** Each action leaves the trees connected to the same takes and layers. *)
Lemma check_step_loaded st trees a :
  loaded_src st trees.1 → loaded_dst st trees.2 →
  loaded_src st (check_step trees a).1 ∧ loaded_dst st (check_step trees a).2.
Proof.
  intros Hs Hd.
  assert (∀ g, loaded_dst st ((λ n, set_dst_Checked (g n) n) <$> trees.2))
    as Hdst.
  { intros g. unfold loaded_dst in *. rewrite <- Hd, <- list_fmap_compose.
    by apply list_fmap_ext. }
  destruct a as [| | |[i|i j]| | | |i]; cbn [check_step fst snd];
    (split; [|try done]); try done.
  - apply loaded_src_fmap; [|done]. intros node. unfold src_refs. cbn.
    f_equal. apply (fmap_set_layer_Checked (λ _, true)).
  - apply loaded_src_fmap; [|done]. intros node. unfold src_refs. cbn.
    f_equal. apply (fmap_set_layer_Checked (λ _, false)).
  - unfold src_invert_btn_callback, src_set_take_state.
    apply loaded_src_fmap; [done|]. apply loaded_src_fmap; [|done].
    intros node. unfold src_refs. cbn. f_equal.
    apply (fmap_set_layer_Checked (λ c, negb (layer_Checked c))).
  - unfold src_click_check, tree_src_check_callback.
    apply loaded_src_alter.
    { intros node. unfold src_refs. cbn. f_equal.
      apply (fmap_set_layer_Checked (λ _, take_Checked node)). }
    by apply loaded_src_alter.
  - unfold src_click_check, tree_src_check_callback.
    apply loaded_src_alter; [done|]. apply loaded_src_alter; [|done].
    intros node. unfold src_refs. cbn. f_equal.
    apply (alter_set_layer_Checked (λ c, negb (layer_Checked c))).
  - apply (Hdst (λ _, true)).
  - apply (Hdst (λ _, false)).
  - apply (Hdst (λ n, negb (dst_Checked n))).
  - unfold dst_click_check, loaded_dst in *. rewrite <- Hd.
    apply list_eq. intros k. rewrite !list_lookup_fmap.
    destruct (decide (k = i)) as [->|Hne].
    + rewrite list_lookup_alter_eq. by destruct (trees.2 !! i).
    + by rewrite list_lookup_alter_ne.
Qed.

Lemma check_run_loaded st actions :
  ∀ trees,
    loaded_src st trees.1 → loaded_dst st trees.2 →
    loaded_src st (check_run actions trees).1
    ∧ loaded_dst st (check_run actions trees).2.
Proof.
  induction actions as [|a actions IH]; intros trees Hs Hd; [done|].
  cbn [check_run foldl]. destruct (check_step_loaded st trees a Hs Hd).
  by apply IH.
Qed.

Lemma Forall_alter_strong {A} (P : A → Prop) (h : A → A) (l : list A) i :
  Forall P l → (∀ x, l !! i = Some x → P x → P (h x)) → Forall P (alter h i l).
Proof.
  intros Hl Hh. apply Forall_lookup. intros k x.
  destruct (decide (k = i)) as [->|Hne].
  - rewrite list_lookup_alter_eq. intros Hx.
    destruct (l !! i) as [y|] eqn:Hy; [|done]. injection Hx as <-.
    apply (Hh y eq_refl). by eapply (Forall_lookup_1 _ _ _ _ Hl).
  - rewrite list_lookup_alter_ne by done. by apply Forall_lookup_1.
Qed.

Lemma alter_alter {A} (h2 h1 : A → A) i (l : list A) :
  alter h2 i (alter h1 i l) = alter (h2 ∘ h1) i l.
Proof.
  apply list_eq. intros k. destruct (decide (k = i)) as [->|Hne].
  - rewrite !list_lookup_alter_eq. by destruct (l !! i).
  - by rewrite !list_lookup_alter_ne.
Qed.

Lemma Exists_set_layer_Checked b (cs : list layer_node) :
  cs ≠ [] →
  Exists (λ c, layer_Checked c = true) (set_layer_Checked b <$> cs) ↔ b = true.
Proof.
  intros Hne. rewrite Exists_fmap. destruct cs as [|c cs]; [done|]. split.
  - intros H. apply Exists_exists in H as (c' & _ & H). exact H.
  - intros ->. by left.
Qed.

(** Each action keeps every take node in step with its children, when no
    take node is without children. *)
Lemma check_step_follows trees a :
  Forall (λ node, children node ≠ []) trees.1 →
  Forall take_follows_children trees.1 →
  Forall (λ node, children node ≠ []) (check_step trees a).1
  ∧ Forall take_follows_children (check_step trees a).1.
Proof.
  intros Hne Hf.
  assert (∀ cs (h : layer_node → layer_node), cs ≠ [] → h <$> cs ≠ []) as Hmap.
  { intros [|c cs] h; [done|]. by rewrite fmap_cons. }
  destruct a as [| | |[i|i j]| | | |i]; cbn [check_step fst snd]; try done.
  - split; apply Forall_fmap, Forall_forall; intros node Hnode;
      eapply Forall_forall in Hne; try exact Hnode; cbn.
    + by apply Hmap.
    + unfold take_follows_children. cbn.
      by rewrite Exists_set_layer_Checked.
  - split; apply Forall_fmap, Forall_forall; intros node Hnode;
      eapply Forall_forall in Hne; try exact Hnode; cbn.
    + by apply Hmap.
    + unfold take_follows_children. cbn.
      by rewrite Exists_set_layer_Checked.
  - unfold src_invert_btn_callback, src_set_take_state.
    rewrite <- list_fmap_compose.
    split; apply Forall_fmap, Forall_forall; intros node Hnode;
      eapply Forall_forall in Hne; try exact Hnode; cbn.
    + by apply Hmap.
    + unfold take_follows_children. cbn. apply some_active_Exists.
  - unfold src_click_check, tree_src_check_callback.
    rewrite alter_alter.
    split; (apply Forall_alter_strong; [done|]); intros node Hnode H; cbn.
    + eapply Forall_lookup_1 in Hne; [|exact Hnode]. by apply Hmap.
    + eapply Forall_lookup_1 in Hne; [|exact Hnode].
      unfold take_follows_children. cbn.
      by rewrite Exists_set_layer_Checked.
  - unfold src_click_check, tree_src_check_callback.
    rewrite alter_alter.
    split; (apply Forall_alter_strong; [done|]); intros node Hnode H; cbn.
    + eapply Forall_lookup_1 in Hne; [|exact Hnode].
      destruct (children node) as [|c cs]; [done|]. by destruct j.
    + unfold take_follows_children. cbn. apply some_active_Exists.
Qed.

Lemma check_run_follows actions :
  ∀ trees,
    Forall (λ node, children node ≠ []) trees.1 →
    Forall take_follows_children trees.1 →
    Forall take_follows_children (check_run actions trees).1.
Proof.
  induction actions as [|a actions IH]; intros trees Hne Hf; [done|].
  cbn [check_run foldl]. destruct (check_step_follows trees a Hne Hf).
  by apply IH.
Qed.

End check_boxes.

(** X14. The check boxes.  Whatever sequence of button presses and clicks on
    check boxes follows a reload of the trees, the trees stay connected to
    the takes and layers they were loaded from, and, when every take has a
    layer, a take node of the source tree is checked exactly when one of its
    children is: the state that the transfer counts on for a checked take. *)
Theorem check_boxes_stay_in_step (st : host) (actions : list check_action) :
  Forall (λ t, Layers t ≠ []) (Takes st) →
  loaded_src st (check_run actions (reload_src_tree st, reload_dst_tree st)).1
  ∧ loaded_dst st (check_run actions (reload_src_tree st, reload_dst_tree st)).2
  ∧ Forall take_follows_children
      (check_run actions (reload_src_tree st, reload_dst_tree st)).1.
Proof.
  intros Hlayers.
  destruct (check_run_loaded st actions (reload_src_tree st, reload_dst_tree st))
    as [Hs Hd]; [done..|].
  split_and!; [done..|].
  apply (check_run_follows actions (reload_src_tree st, reload_dst_tree st)).
  - apply Forall_forall. intros node Hn. unfold reload_src_tree in Hn.
    apply elem_of_lookup_imap_1 in Hn as (ti & t & -> & Ht). cbn.
    eapply Forall_lookup_1 in Hlayers; [|exact Ht].
    destruct (Layers t) as [|l ls] eqn:HL; [done|].
    cbn [length]. rewrite seq_S, rev_app_distr. done.
  - apply Forall_forall. intros node Hn. unfold reload_src_tree in Hn.
    apply elem_of_lookup_imap_1 in Hn as (ti & t & -> & Ht).
    unfold take_follows_children. cbn. split; [done|].
    rewrite Exists_fmap. intros H. apply Exists_exists in H as (? & _ & ?). done.
Qed.

Lemma check_boxes_stay_in_step_witness :
  loaded_src sample_host
    (check_run [SrcClick (LayerNode 0 1); SrcInvert; DstAll; SrcClick (TakeNode 1)]
       (reload_src_tree sample_host, reload_dst_tree sample_host)).1
  ∧ loaded_dst sample_host
      (check_run [SrcClick (LayerNode 0 1); SrcInvert; DstAll; SrcClick (TakeNode 1)]
         (reload_src_tree sample_host, reload_dst_tree sample_host)).2
  ∧ Forall take_follows_children
      (check_run [SrcClick (LayerNode 0 1); SrcInvert; DstAll; SrcClick (TakeNode 1)]
         (reload_src_tree sample_host, reload_dst_tree sample_host)).1.
Proof.
  apply (check_boxes_stay_in_step sample_host). repeat constructor; done.
Defined.

(** X15. Inverting twice.  Two presses of the invert button give every layer
    node its check state back, and leave each take node following its
    children; a tree in which the take nodes followed their children
    before is back as it was. *)
Theorem src_invert_twice (nodes_src : list take_node) :
  src_invert_btn_callback (src_invert_btn_callback nodes_src)
  = src_set_take_state nodes_src
  ∧ (Forall take_follows_children nodes_src →
     src_invert_btn_callback (src_invert_btn_callback nodes_src) = nodes_src).
Proof.
  assert (src_invert_btn_callback (src_invert_btn_callback nodes_src)
          = src_set_take_state nodes_src) as Heq.
  { unfold src_invert_btn_callback, src_set_take_state.
    rewrite <- !list_fmap_compose. apply list_fmap_ext.
    intros _ [b d cs] _. cbn. unfold set_take_Checked, set_children. cbn.
    assert ((λ c, set_layer_Checked (negb (layer_Checked c)) c)
              <$> ((λ c, set_layer_Checked (negb (layer_Checked c)) c) <$> cs)
            = cs) as ->; [|done].
    rewrite <- list_fmap_compose. rewrite <- (list_fmap_id cs) at 2.
    apply list_fmap_ext. intros _ [bc dc] _. cbn. unfold set_layer_Checked. cbn.
    by rewrite negb_involutive. }
  split; [done|]. intros Hf. rewrite Heq. unfold src_set_take_state.
  rewrite <- (list_fmap_id nodes_src) at 2. apply list_fmap_ext.
  intros i [b d cs] Hi. eapply Forall_lookup_1 in Hf; [|exact Hi].
  unfold take_follows_children in Hf. cbn in *. unfold set_take_Checked. cbn.
  f_equal. rewrite <- some_active_Exists in Hf.
  change (some_active cs = b).
  destruct b, (some_active cs); try done; intuition congruence.
Qed.

Section attribute_buttons.

Implicit Types (st : host) (f : FBAnimationLayer → FBAnimationLayer)
  (g : nat * nat → FBAnimationLayer → FBAnimationLayer).

Lemma imap_ext_lookup {A B} (h1 h2 : nat → A → B) (l : list A) :
  (∀ i x, l !! i = Some x → h1 i x = h2 i x) → imap h1 l = imap h2 l.
Proof.
  intros H. apply list_eq. intros i. rewrite !list_lookup_imap.
  destruct (l !! i) as [x|] eqn:Hx; [|done]. cbn. f_equal. by apply H.
Qed.

Lemma imap_id_lookup {A} (h : nat → A → A) (l : list A) :
  (∀ i x, l !! i = Some x → h i x = x) → imap h l = l.
Proof.
  intros H. apply list_eq. intros i. rewrite list_lookup_imap.
  destruct (l !! i) as [x|] eqn:Hx; [|done]. cbn. f_equal. by apply H.
Qed.

Lemma get_layer_map_layers g st r :
  get_layer (map_layers g st) r = g r <$> get_layer st r.
Proof.
  unfold get_layer, map_layers. cbn [Takes set_Takes].
  rewrite list_lookup_imap. destruct (Takes st !! r.1) as [t|]; [|done].
  cbn. rewrite list_lookup_imap. destruct r as [i j]. cbn.
  by destruct (Layers t !! j).
Qed.

Lemma map_layers_ext g1 g2 st :
  (∀ r l, get_layer st r = Some l → g1 r l = g2 r l) →
  map_layers g1 st = map_layers g2 st.
Proof.
  intros H. unfold map_layers. f_equal. apply imap_ext_lookup.
  intros i t Ht. f_equal. apply imap_ext_lookup. intros j l Hl.
  apply H. unfold get_layer. cbn. by rewrite Ht.
Qed.

Lemma map_layers_id g st :
  (∀ r l, get_layer st r = Some l → g r l = l) → map_layers g st = st.
Proof.
  intros H. unfold map_layers, set_Takes. destruct st as [takes cur comps].
  cbn in *. f_equal. apply imap_id_lookup. intros i [n ls sel] Ht.
  unfold set_Layers. cbn. f_equal. apply imap_id_lookup. intros j l Hl.
  apply (H (i, j)). unfold get_layer. cbn. by rewrite Ht.
Qed.

Lemma map_layers_compose g1 g2 st :
  map_layers g2 (map_layers g1 st) = map_layers (λ r l, g2 r (g1 r l)) st.
Proof.
  unfold map_layers, set_Takes. cbn. f_equal.
  apply list_eq. intros i. rewrite !list_lookup_imap.
  destruct (Takes st !! i) as [t|]; [|done]. cbn. f_equal.
  unfold set_Layers. cbn. f_equal.
  apply list_eq. intros j. rewrite !list_lookup_imap.
  by destruct (Layers t !! j).
Qed.

Lemma layer_set_map_layers st r l f :
  get_layer st r = Some l →
  layer_set r f st
  = (map_layers (λ r' l', if bool_decide (r' = r) then f l' else l') st, Ok tt).
Proof.
  intros Hl. unfold layer_set. unfold bind at 1.
  rewrite (layer_get_run _ _ l Hl). unfold get_layer in Hl.
  destruct (Takes st !! r.1) as [t|] eqn:Ht; [|done]. cbn in Hl.
  rewrite (take_set_run _ _ t) by done. f_equal.
  unfold put, map_layers. f_equal. apply list_eq. intros i.
  rewrite list_lookup_imap. destruct (decide (i = r.1)) as [->|Hne].
  - rewrite list_lookup_insert_eq by (by eapply lookup_lt_Some).
    rewrite Ht. cbn. f_equal. unfold set_Layers. f_equal.
    apply list_eq. intros j. rewrite list_lookup_imap.
    destruct (decide (j = r.2)) as [->|Hnej].
    + rewrite list_lookup_alter_eq, Hl. cbn.
      rewrite bool_decide_eq_true_2; [done|by destruct r].
    + rewrite list_lookup_alter_ne by done.
      destruct (Layers t !! j) as [l'|]; [|done]. cbn.
      rewrite bool_decide_eq_false_2; [done|]. intros Heq. apply Hnej.
      by rewrite <- Heq.
  - rewrite list_lookup_insert_ne by done.
    destruct (Takes st !! i) as [t'|] eqn:Ht'; [|done]. cbn. f_equal.
    destruct t' as [n ls sel]. unfold set_Layers. cbn. f_equal.
    symmetry. apply imap_id_lookup. intros j l' _.
    rewrite bool_decide_eq_false_2; [done|]. intros Heq. apply Hne.
    by rewrite <- Heq.
Qed.

Lemma is_BaseAnimation_layer_run st c l :
  get_layer st (layer_data c) = Some l →
  is_BaseAnimation_layer c st = (st, Ok (bool_decide (Name l = "BaseAnimation"))).
Proof.
  intros Hl. unfold is_BaseAnimation_layer, bind.
  by rewrite (layer_get_run _ _ l Hl).
Qed.

(** The loop over the layer nodes of one take node, or of all of them. *)
Lemma checked_loop f (cs : list layer_node) :
  (∀ l, Name (f l) = Name l) →
  (∀ l, f (f l) = f l) →
  ∀ st,
    Forall (λ c, layer_Checked c = true → is_Some (get_layer st (layer_data c))) cs →
    for_each cs (λ child,
      if layer_Checked child then
        do base <- is_BaseAnimation_layer child;
        if base then ret tt else layer_set (layer_data child) f
      else ret tt) st
    = (map_layers
         (λ r l, if bool_decide
                      (r ∈ layer_data <$> filter (λ c, layer_Checked c = true) cs)
                    && negb (bool_decide (Name l = "BaseAnimation"))
                 then f l else l) st, Ok tt).
Proof.
  intros Hname Hidem. induction cs as [|c cs IH]; intros st Hok.
  - cbn [for_each]. unfold ret. f_equal. symmetry. apply map_layers_id.
    intros r l _. rewrite bool_decide_eq_false_2; [done|apply not_elem_of_nil].
  - apply Forall_cons in Hok as [Hc Hok]. cbn [for_each]. unfold bind at 1.
    destruct (layer_Checked c) eqn:Hchk.
    + destruct (Hc eq_refl) as [l0 Hl0]. unfold bind at 1.
      rewrite (is_BaseAnimation_layer_run st c l0 Hl0).
      destruct (bool_decide (Name l0 = "BaseAnimation")) eqn:Hbase.
      * unfold ret at 1. rewrite (IH st Hok). f_equal. apply map_layers_ext.
        intros r l Hl. rewrite filter_cons, decide_True, fmap_cons by done.
        destruct (decide (r = layer_data c)) as [->|Hne].
        -- rewrite Hl0 in Hl. injection Hl as <-. rewrite Hbase. cbn.
           by rewrite !andb_false_r.
        -- assert (∀ X : list (nat * nat),
                     bool_decide (r ∈ layer_data c :: X) = bool_decide (r ∈ X))
             as Hmem.
           { intros X. apply bool_decide_ext. rewrite elem_of_cons. intuition. }
           by rewrite Hmem.
      * rewrite (layer_set_map_layers st _ l0 f Hl0). rewrite IH.
        2:{ eapply Forall_impl; [exact Hok|]. intros c' Hc' Hchk'.
            rewrite get_layer_map_layers. destruct (Hc' Hchk') as [l' ->].
            by eexists. }
        rewrite map_layers_compose. f_equal. apply map_layers_ext.
        intros r l Hl. rewrite filter_cons, decide_True, fmap_cons by done.
        destruct (decide (r = layer_data c)) as [->|Hne].
        -- rewrite Hl0 in Hl. injection Hl as <-.
           rewrite (bool_decide_eq_true_2 (layer_data c = layer_data c)) by done.
           rewrite (bool_decide_eq_true_2 (layer_data c ∈ layer_data c :: _))
             by left.
           rewrite Hname, Hbase, Hidem. by destruct (bool_decide (_ ∈ _)).
        -- rewrite (bool_decide_eq_false_2 (r = layer_data c)) by done.
           assert (∀ X : list (nat * nat),
                     bool_decide (r ∈ layer_data c :: X) = bool_decide (r ∈ X))
             as Hmem.
           { intros X. apply bool_decide_ext. rewrite elem_of_cons. intuition. }
           by rewrite Hmem.
    + unfold ret at 1. rewrite (IH st Hok). f_equal.
      by rewrite filter_cons, decide_False by congruence.
Qed.

Lemma for_each_bind {S A B} (l : list A) (h : A → list B) (body : B → M S unit)
    (s : S) :
  for_each l (λ x, for_each (h x) body) s = for_each (l ≫= h) body s.
Proof.
  revert s. induction l as [|x l IH]; intros s; [done|].
  rewrite bind_cons, for_each_app. cbn [for_each]. unfold bind.
  destruct (for_each (h x) body s) as [s' [[]|e]]; [apply IH|done].
Qed.

Lemma filter_bind_children (nodes_src : list take_node) :
  layer_data <$> filter (λ c, layer_Checked c = true) (nodes_src ≫= children)
  = nodes_src ≫= checked_layers.
Proof.
  induction nodes_src as [|node nodes_src IH]; [done|].
  by rewrite !bind_cons, filter_app, fmap_app, IH.
Qed.

(** The shared loop on a tree whose checked layer nodes connect to layers of
    the scene: [f] reaches the checked layers that are not BaseAnimation
    layers, and nothing else changes. *)
Lemma for_checked_layers_run f nodes_src st :
  (∀ l, Name (f l) = Name l) →
  (∀ l, f (f l) = f l) →
  Forall (λ r, is_Some (get_layer st r)) (nodes_src ≫= checked_layers) →
  for_checked_layers f nodes_src st
  = (map_layers (touched f nodes_src) st, Ok tt).
Proof.
  intros Hname Hidem Hok. unfold for_checked_layers.
  rewrite (for_each_bind nodes_src children).
  rewrite (checked_loop f _ Hname Hidem).
  - unfold touched, reached. by rewrite filter_bind_children.
  - rewrite <- filter_bind_children in Hok. rewrite Forall_fmap in Hok.
    apply Forall_forall. intros c Hc Hchk.
    eapply Forall_forall in Hok; [exact Hok|].
    by apply list_elem_of_filter.
Qed.

Lemma loaded_src_checked_valid st nodes_src :
  loaded_src st nodes_src →
  Forall (λ r, is_Some (get_layer st r)) (nodes_src ≫= checked_layers).
Proof.
  intros Hloaded. apply Forall_forall. intros r Hr.
  apply list_elem_of_bind in Hr as (node & Hr & Hnode).
  destruct (loaded_src_node st nodes_src node Hloaded Hnode) as (t & Ht & Hrefs).
  unfold checked_layers in Hr.
  apply list_elem_of_fmap in Hr as (c & -> & [_ Hc]%list_elem_of_filter).
  assert (layer_data c ∈ layer_data <$> children node) as Hin
    by (by apply list_elem_of_fmap_2).
  rewrite Hrefs in Hin. apply list_elem_of_fmap in Hin as (j & -> & Hj).
  apply elem_of_rev, elem_of_seq in Hj.
  destruct (lookup_lt_is_Some_2 (Layers t) j) as [l Hl]; [lia|].
  exists l. unfold get_layer. cbn [fst snd]. by rewrite Ht.
Qed.

End attribute_buttons.

(** X16. The mute, mode and rotation-mode buttons.  On a tree loaded from
    the scene, each of the three callbacks completes; when the cursor
    position was read and a menu item that the callback knows was chosen,
    the chosen value goes to the layer of every checked layer node that is
    not named BaseAnimation, and to nothing else: BaseAnimation layers,
    layers of unchecked nodes, names, weights, curves, the layer stacks and
    the selections are as they were.  Without a cursor position, without a
    choice, or with an item of another id, the scene is unchanged. *)
Theorem menu_buttons_effect (st : host) (nodes_src : list take_node)
    (result : bool) (item : option Z) :
  loaded_src st nodes_src →
  mute_btn_callback result item nodes_src st
  = (match (if result then on_mute_click item else None) with
     | Some state => map_layers (touched (set_Mute state) nodes_src) st
     | None => st
     end, Ok tt)
  ∧ mode_btn_callback result item nodes_src st
    = (match (if result then get_layer_mode item else None) with
       | Some mode => map_layers (touched (set_LayerMode mode) nodes_src) st
       | None => st
       end, Ok tt)
  ∧ rotation_mode_btn_callback result item nodes_src st
    = (match (if result then get_layer_rotation_mode item else None) with
       | Some mode => map_layers (touched (set_LayerRotationMode mode) nodes_src) st
       | None => st
       end, Ok tt)
  ∧ ∀ f r, get_layer (map_layers (touched f nodes_src) st) r
           = (λ l, if reached nodes_src r l then f l else l) <$> get_layer st r.
Proof.
  intros Hloaded.
  pose proof (loaded_src_checked_valid st nodes_src Hloaded) as Hvalid.
  split_and!.
  - unfold mute_btn_callback. destruct result; [|done].
    destruct (on_mute_click item) as [state|]; [|done].
    by apply for_checked_layers_run.
  - unfold mode_btn_callback. destruct result; [|done].
    destruct (get_layer_mode item) as [mode|]; [|done].
    by apply for_checked_layers_run.
  - unfold rotation_mode_btn_callback. destruct result; [|done].
    destruct (get_layer_rotation_mode item) as [mode|]; [|done].
    by apply for_checked_layers_run.
  - intros f r. apply get_layer_map_layers.
Qed.

Lemma menu_buttons_effect_witness :
  mute_btn_callback true (Some 10%Z)
    (check_layer_node (0, 1) (check_layer_node (0, 0) (reload_src_tree sample_host)))
    sample_host
  = (map_layers
       (touched (set_Mute true)
          (check_layer_node (0, 1)
             (check_layer_node (0, 0) (reload_src_tree sample_host))))
       sample_host, Ok tt).
Proof.
  apply (menu_buttons_effect sample_host
           (check_layer_node (0, 1)
              (check_layer_node (0, 0) (reload_src_tree sample_host)))
           true (Some 10%Z)).
  done.
Defined.

(** X17. The weight button.  On a tree loaded from the scene the callback
    completes.  Only when some node is checked, the input box was confirmed
    and [0.0 <= value <= 100.0] holds does it change the scene: [value]
    becomes the weight of the layer of every checked layer node that is not
    named BaseAnimation.  So every layer afterwards is as it was, or has
    [value] as its weight with [value] in that range; a value for which the
    comparison fails, as NaN, changes nothing. *)
Theorem weight_btn_callback_effect (st : host) (nodes_src : list take_node)
    (btn : Z) (value : float) :
  loaded_src st nodes_src →
  ∃ st',
    weight_btn_callback btn value nodes_src st = (st', Ok tt)
    ∧ st' = (if any_checked nodes_src && (btn =? 1)%Z
                && PrimFloat.leb 0 value && PrimFloat.leb value 100
             then map_layers (touched (set_Weight value) nodes_src) st
             else st)
    ∧ (∀ r l', get_layer st' r = Some l' →
         ∃ l, get_layer st r = Some l
              ∧ (l' = l
                 ∨ (l' = set_Weight value l
                    ∧ PrimFloat.leb 0 value = true
                    ∧ PrimFloat.leb value 100 = true
                    ∧ Name l ≠ "BaseAnimation"
                    ∧ r ∈ nodes_src ≫= checked_layers)))
    ∧ weight_btn_callback btn PrimFloat.nan nodes_src st = (st, Ok tt).
Proof.
  intros Hloaded.
  pose proof (loaded_src_checked_valid st nodes_src Hloaded) as Hvalid.
  assert (weight_btn_callback btn value nodes_src st
          = (if any_checked nodes_src && (btn =? 1)%Z
                && PrimFloat.leb 0 value && PrimFloat.leb value 100
             then map_layers (touched (set_Weight value) nodes_src) st
             else st, Ok tt)) as Hrun.
  { unfold weight_btn_callback.
    destruct (any_checked nodes_src); [|done].
    destruct (btn =? 1)%Z; [|done].
    destruct (PrimFloat.leb 0 value); [|done].
    destruct (PrimFloat.leb value 100); [|done]. cbn.
    by apply for_checked_layers_run. }
  eexists. split_and!; [exact Hrun|done| |].
  - intros r l' Hl'.
    destruct (any_checked nodes_src && (btn =? 1)%Z
              && PrimFloat.leb 0 value && PrimFloat.leb value 100) eqn:Hacc.
    + rewrite get_layer_map_layers in Hl'.
      destruct (get_layer st r) as [l|]; [|done]. cbn in Hl'.
      injection Hl' as <-. exists l. split; [done|].
      unfold touched, reached.
      destruct (bool_decide (r ∈ _)) eqn:Hin; [|by left].
      destruct (bool_decide (Name l = _)) eqn:Hbase; [by left|]. right.
      apply andb_prop in Hacc as [Hacc H100].
      apply andb_prop in Hacc as [_ H0].
      apply bool_decide_eq_true_1 in Hin.
      apply bool_decide_eq_false_1 in Hbase. done.
    + exists l'. split; [done|by left].
  - unfold weight_btn_callback.
    destruct (any_checked nodes_src); [|done]. by destruct (btn =? 1)%Z.
Qed.

Lemma weight_btn_callback_effect_witness :
  ∃ st',
    weight_btn_callback 1 50
      (check_layer_node (0, 1) (check_layer_node (0, 0) (reload_src_tree sample_host)))
      sample_host = (st', Ok tt)
    ∧ st' = (if any_checked
                  (check_layer_node (0, 1)
                     (check_layer_node (0, 0) (reload_src_tree sample_host)))
                && (1 =? 1)%Z && PrimFloat.leb 0 50 && PrimFloat.leb 50 100
             then map_layers
                    (touched (set_Weight 50)
                       (check_layer_node (0, 1)
                          (check_layer_node (0, 0) (reload_src_tree sample_host))))
                    sample_host
             else sample_host)
    ∧ (∀ r l', get_layer st' r = Some l' →
         ∃ l, get_layer sample_host r = Some l
              ∧ (l' = l
                 ∨ (l' = set_Weight 50 l
                    ∧ PrimFloat.leb 0 50 = true
                    ∧ PrimFloat.leb 50 100 = true
                    ∧ Name l ≠ "BaseAnimation"
                    ∧ r ∈ check_layer_node (0, 1)
                            (check_layer_node (0, 0) (reload_src_tree sample_host))
                          ≫= checked_layers)))
    ∧ weight_btn_callback 1 PrimFloat.nan
        (check_layer_node (0, 1) (check_layer_node (0, 0) (reload_src_tree sample_host)))
        sample_host = (sample_host, Ok tt).
Proof.
  apply (weight_btn_callback_effect sample_host). done.
Defined.

Section everything.

Implicit Types (st : host).

Lemma filter_all {A} (P : A → Prop) `{!∀ x, Decision (P x)} (l : list A) :
  Forall P l → filter P l = l.
Proof.
  induction 1 as [|x l Hx _ IH]; [done|].
  by rewrite filter_cons, decide_True, IH by done.
Qed.

Lemma filter_none {A} (P : A → Prop) `{!∀ x, Decision (P x)} (l : list A) :
  Forall (λ x, ¬ P x) l → filter P l = [].
Proof.
  induction 1 as [|x l Hx _ IH]; [done|].
  by rewrite filter_cons, decide_False, IH by done.
Qed.

(** A fully checked take node of a loaded tree hands the whole stack of its
    take to the replay, from the bottom up. *)
Lemma loaded_node_stack st nodes_src node t :
  loaded_src st nodes_src →
  node ∈ nodes_src →
  Takes st !! take_data node = Some t →
  Forall (λ c, layer_Checked c = true) (children node) →
  omap (get_layer st) (rev (checked_layers node)) = Layers t.
Proof.
  intros Hsrc Hnode Ht Hall.
  destruct (loaded_src_node st nodes_src node Hsrc Hnode) as (t' & Ht' & Hrefs).
  rewrite Ht in Ht'. injection Ht' as <-.
  unfold checked_layers. rewrite filter_all by done.
  rewrite Hrefs, <- fmap_rev, rev_rev.
  rewrite (omap_get_layer_stack st _ t) by done.
  apply (omap_lookup_seq [] (Layers t)).
Qed.

Lemma destinations_all (l : list FBTake) i :
  i < length l →
  destinations (dst_all_btn_callback (imap (λ ti _, mkDstNode false ti) l)) i
  = [mkDstNode true i].
Proof.
  unfold destinations, dst_all_btn_callback.
  induction l as [|x l IH] using rev_ind; intros Hi; [cbn in Hi; lia|].
  rewrite imap_app, fmap_app, filter_app. cbn [imap fmap list_fmap].
  rewrite filter_cons, filter_nil. cbn [set_dst_Checked dst_Checked dst_data].
  rewrite Nat.add_0_r. rewrite length_app in Hi. cbn in Hi.
  destruct (decide (i = length l)) as [->|Hne].
  - rewrite decide_True by done.
    assert (filter (λ n, dst_Checked n = true ∧ dst_data n = length l)
              (set_dst_Checked true <$> imap (λ ti _, mkDstNode false ti) l) = [])
      as ->; [|done].
    apply filter_none, Forall_forall. intros n Hn [_ Hd].
    apply list_elem_of_fmap in Hn as (n' & -> & Hn').
    apply elem_of_lookup_imap_1 in Hn' as (k & y & -> & Hk).
    apply lookup_lt_Some in Hk. cbn in Hd. lia.
  - rewrite decide_False by (intros [_ ?]; congruence).
    rewrite IH by lia. done.
Qed.

Lemma omap_stacks st nodes_src :
  loaded_src st nodes_src →
  Forall (λ node, take_Checked node = true
                  ∧ Forall (λ c, layer_Checked c = true) (children node))
         nodes_src →
  ∀ nodes takes,
    nodes ⊆ nodes_src →
    Forall2 (λ node t, Takes st !! take_data node = Some t) nodes takes →
    omap (get_layer st) (nodes ≫= (λ node, rev (checked_layers node)))
    = takes ≫= Layers.
Proof.
  intros Hsrc Hall nodes takes Hsub H2.
  induction H2 as [|node t nodes takes Ht _ IH]; [done|].
  rewrite !bind_cons, omap_app. f_equal.
  - assert (node ∈ nodes_src) as Hnode by (apply Hsub; left).
    eapply Forall_forall in Hall; [|exact Hnode]. destruct Hall as [_ Hc].
    by apply (loaded_node_stack st nodes_src node t).
  - apply IH. intros x Hx. apply Hsub. by right.
Qed.

End everything.

(** X18. Everything to everywhere.  After a reload, the All buttons of both
    panels and the transfer, on a scene with host curves and well-formed
    channel hierarchies: the transfer completes, and every take receives, on
    top of its own stack, a copy of every layer of every take (mode, rotation
    mode, weight and keyed curves), take after take in scene order and each
    stack from the bottom up.  Each copy was assigned its source's name; the
    host stores that name unless a layer below the copy has it, as it is for
    the copies of a take's own layers, and then stores the name that its
    uniqueness policy gives. *)
Theorem transfer_of_everything (st : host) :
  host_wf st →
  channels_wf (Components st) →
  ∃ st' f,
    transfer_anim_layers (src_all_btn_callback (reload_src_tree st))
                         (dst_all_btn_callback (reload_dst_tree st)) st
    = (st', Ok tt)
    ∧ grown st st' f
    ∧ ∀ i t, Takes st !! i = Some t →
        Forall2 (copy_of (scene_curve_channels st)) (Takes st ≫= Layers) (f i)
        ∧ host_named (unique_name st) (Name <$> Layers t)
                     (Takes st ≫= Layers) (f i).
Proof.
  intros Hwf Hch.
  set (nodes_src := src_all_btn_callback (reload_src_tree st)).
  set (nodes_dst := dst_all_btn_callback (reload_dst_tree st)).
  destruct (check_step_loaded st (reload_src_tree st, reload_dst_tree st) SrcAll)
    as [Hsrc _]; [done..|].
  destruct (check_step_loaded st (reload_src_tree st, reload_dst_tree st) DstAll)
    as [_ Hdst]; [done..|].
  cbn [check_step fst snd] in Hsrc, Hdst. fold nodes_src in Hsrc.
  fold nodes_dst in Hdst.
  destruct (transfer_run nodes_dst nodes_src st
              (loaded_src_ok st nodes_src Hwf Hsrc)
              (loaded_dst_ok st nodes_dst Hdst))
    as (st' & f & Hrun & Hg & Hf & Hnamed).
  exists st', f. split_and!; [done..|]. intros i t Ht.
  assert (i < length (Takes st)) as Hi by (by eapply lookup_lt_Some).
  destruct (Hf i) as [Hrep Hdec].
  pose proof (copies_of st _ _ Hwf Hch Hrep Hdec) as Hcopies.
  specialize (Hnamed i t Ht).
  assert (Forall (λ node, take_Checked node = true
                          ∧ Forall (λ c, layer_Checked c = true) (children node))
                 nodes_src) as Hall.
  { apply Forall_fmap, Forall_forall. intros node _. split; [done|]. cbn.
    apply Forall_fmap, Forall_forall. by intros c _. }
  assert (transferred nodes_src nodes_dst i
          = nodes_src ≫= (λ node, rev (checked_layers node))) as Htr.
  { unfold transferred, nodes_dst, reload_dst_tree.
    rewrite destinations_all by done.
    clear -Hall. induction Hall as [|node nodes [Hn _] _ IH]; [done|].
    rewrite !bind_cons, IH, Hn. cbn. by rewrite app_nil_r. }
  assert (omap (get_layer st) (nodes_src ≫= (λ node, rev (checked_layers node)))
          = Takes st ≫= Layers) as Hstacks.
  { apply (omap_stacks st nodes_src Hsrc Hall nodes_src (Takes st)); [done|].
    apply Forall2_same_length_lookup_2.
    - unfold nodes_src, src_all_btn_callback, reload_src_tree.
      by rewrite length_fmap, length_imap.
    - intros k node tk Hnode Htk.
      unfold nodes_src, src_all_btn_callback, reload_src_tree in Hnode.
      rewrite list_lookup_fmap, list_lookup_imap, Htk in Hnode. cbn in Hnode.
      by injection Hnode as <-. }
  rewrite Htr, Hstacks in Hcopies, Hnamed. done.
Qed.

Lemma transfer_of_everything_witness :
  ∃ st' f,
    transfer_anim_layers (src_all_btn_callback (reload_src_tree sample_host))
                         (dst_all_btn_callback (reload_dst_tree sample_host))
                         sample_host
    = (st', Ok tt)
    ∧ grown sample_host st' f
    ∧ ∀ i t, Takes sample_host !! i = Some t →
        Forall2 (copy_of (scene_curve_channels sample_host))
                (Takes sample_host ≫= Layers) (f i)
        ∧ host_named sample_unique_name (Name <$> Layers t)
                     (Takes sample_host ≫= Layers) (f i).
Proof.
  apply (transfer_of_everything sample_host); by_evaluation.
Defined.


